(** * ELF header decoding: a shallow embedding of [src/header.ts]

    The TypeScript classes [ELFHeader], [ProgramHeader], [SectionHeader],
    [Symbol], [Rel], [Dyn], [Note] and [ELF] are embedded over an explicit
    store of ArrayBuffers.  [Buffer] is the class of the package 'buffer'
    that the source imports: a window (ArrayBuffer, byteOffset, length)
    into that store.  [Buffer.from] of an ArrayBuffer shares it,
    [Buffer.from] of a Buffer copies its bytes into a fresh ArrayBuffer of
    that length, and [slice] makes a window on the same ArrayBuffer, taking
    its indices as 32-bit integers and clamping them.

    JavaScript numbers are embedded as integers together with the rounding
    to 53 significant bits that [Number] arithmetic performs; fractions,
    NaN and the infinities do not arise in the modelled code.  Arrays and
    the store are unbounded. *)

From Stdlib Require Import ZArith Lia Bool.
From Stdlib.Strings Require Import Byte.
From stdpp Require Import base list.

Open Scope Z_scope.

(** ** Results of running code: a value, a thrown error, or fuel exhausted *)

Inductive Error := RangeError | TypeError.

Inductive outcome (A : Type) : Type :=
| Ok (a : A)
| Throw (e : Error)
| OutOfFuel.

Arguments Ok {A} a.
Arguments Throw {A} e.
Arguments OutOfFuel {A}.

Definition bind {A B} (m : outcome A) (k : A -> outcome B) : outcome B :=
  match m with
  | Ok a => k a
  | Throw e => Throw e
  | OutOfFuel => OutOfFuel
  end.

Notation "'let!' x ':=' m 'in' k" := (bind m (fun x => k))
  (at level 10, x pattern, m at level 100, k at level 200).

(** ** JavaScript values that flow through the accessors *)

Inductive jsval :=
| Num (z : Z)          (* typeof v == 'number' *)
| Big (z : Z)          (* typeof v == 'bigint' *)
| Undefined
| Boolean (b : bool).

(** Round-to-nearest, ties-to-even, of a non-negative integer to a double. *)
Definition rnd53 (z : Z) : Z :=
  if z <? 2 ^ 53 then z
  else
    let e := Z.log2 z - 52 in
    let q := z / 2 ^ e in
    let r := z mod 2 ^ e in
    let half := 2 ^ (e - 1) in
    if r <? half then q * 2 ^ e
    else if half <? r then (q + 1) * 2 ^ e
    else if Z.even q then q * 2 ^ e else (q + 1) * 2 ^ e.

(** [a + b] and [a * b] on JS numbers holding non-negative integers. *)
Definition js_add (a b : Z) : Z := rnd53 (a + b).
Definition js_mul (a b : Z) : Z := rnd53 (a * b).

(** [Number(v)] as an integer.  [Number(undefined)] is NaN, which is no
    integer: it is given as 0, the integer that the 32-bit conversion of
    [&] makes of NaN, and [Number_is_NaN] tells where a comparison sees
    NaN.  The getters return numbers and bigints only, so NaN can come from
    a caller's value alone. *)
Definition Number (v : jsval) : Z :=
  match v with
  | Num z => z
  | Big z => rnd53 z
  | Undefined => 0
  | Boolean b => if b then 1 else 0
  end.

Definition Number_is_NaN (v : jsval) : bool :=
  match v with Undefined => true | _ => false end.

(** [i < v] where [i] is a number and [v] a number or a bigint: the
    comparison is exact in both cases. *)
Definition js_lt (i : Z) (v : jsval) : bool :=
  match v with
  | Num z | Big z => i <? z
  | Undefined => false
  | Boolean b => i <? (if b then 1 else 0)
  end.

(** [ToNumber] and [ToBigInt] as applied by the [DataView] setters. *)
Definition ToNumber (v : jsval) : outcome Z :=
  match v with
  | Num z => Ok z
  | Big _ => Throw TypeError
  | Undefined => Ok 0
  | Boolean b => Ok (if b then 1 else 0)
  end.

Definition ToBigInt (v : jsval) : outcome Z :=
  match v with
  | Big z => Ok z
  | Boolean b => Ok (if b then 1 else 0)
  | Num _ | Undefined => Throw TypeError
  end.

(** ** Bytes and the two byte orders *)

Definition byte_to_Z (b : byte) : Z := Z.of_N (Byte.to_N b).

Definition byte_of_Z (z : Z) : byte :=
  match Byte.of_N (Z.to_N (z mod 256)) with
  | Some b => b
  | None => x00
  end.

Fixpoint le_decode (bs : list byte) : Z :=
  match bs with
  | [] => 0
  | b :: bs => byte_to_Z b + 256 * le_decode bs
  end.

Fixpoint le_encode (n : nat) (v : Z) : list byte :=
  match n with
  | O => []
  | S n => byte_of_Z v :: le_encode n (v / 256)
  end.

Definition decode (littleEndian : bool) (bs : list byte) : Z :=
  if littleEndian then le_decode bs else le_decode (rev bs).

Definition encode (littleEndian : bool) (n : nat) (v : Z) : list byte :=
  if littleEndian then le_encode n v else rev (le_encode n v).

(** ** The store of ArrayBuffers, and DataViews over whole ArrayBuffers *)

Abbreviation ArrayBuffer := (list byte).
Abbreviation heap := (list ArrayBuffer).

Definition contents (h : heap) (ab : nat) : ArrayBuffer := default [] (h !! ab).

(** [new ArrayBuffer]/[new Uint8Array(bytes)]: a fresh identifier. *)
Definition alloc (bs : ArrayBuffer) (h : heap) : nat * heap := (length h, h ++ [bs]).

(** A [DataView] made by [new DataView(arrayBuffer)] covers the whole
    ArrayBuffer; it is identified with the ArrayBuffer. *)
Definition DataView := nat.

Definition getUint (w : nat) (dv : DataView) (byteOffset : nat) (littleEndian : bool)
    (h : heap) : outcome Z :=
  let bs := contents h dv in
  if (byteOffset + w <=? length bs)%nat
  then Ok (decode littleEndian (take w (drop byteOffset bs)))
  else Throw RangeError.

Definition setUint (w : nat) (dv : DataView) (byteOffset : nat) (v : Z) (littleEndian : bool)
    (h : heap) : outcome heap :=
  let bs := contents h dv in
  if (byteOffset + w <=? length bs)%nat
  then Ok (<[dv := take byteOffset bs ++ encode littleEndian w v ++ drop (byteOffset + w) bs]> h)
  else Throw RangeError.

Definition getUint8 (dv : DataView) (o : nat) (h : heap) : outcome jsval :=
  let! z := getUint 1 dv o true h in Ok (Num z).
Definition getUint16 (dv : DataView) (o : nat) (le : bool) (h : heap) : outcome jsval :=
  let! z := getUint 2 dv o le h in Ok (Num z).
Definition getUint32 (dv : DataView) (o : nat) (le : bool) (h : heap) : outcome jsval :=
  let! z := getUint 4 dv o le h in Ok (Num z).
Definition getBigUint64 (dv : DataView) (o : nat) (le : bool) (h : heap) : outcome jsval :=
  let! z := getUint 8 dv o le h in Ok (Big z).

Definition setUint8 (dv : DataView) (o : nat) (val : jsval) (h : heap) : outcome heap :=
  let! z := ToNumber val in setUint 1 dv o z true h.
Definition setUint16 (dv : DataView) (o : nat) (val : jsval) (le : bool) (h : heap) : outcome heap :=
  let! z := ToNumber val in setUint 2 dv o z le h.
Definition setUint32 (dv : DataView) (o : nat) (val : jsval) (le : bool) (h : heap) : outcome heap :=
  let! z := ToNumber val in setUint 4 dv o z le h.
Definition setBigUint64 (dv : DataView) (o : nat) (val : jsval) (le : bool) (h : heap) : outcome heap :=
  let! z := ToBigInt val in setUint 8 dv o z le h.

(** ** Buffers: windows into the store *)

Record Buffer := mkBuffer {
  buffer : nat;        (* [buf.buffer]: the underlying ArrayBuffer *)
  byteOffset : nat;    (* [buf.byteOffset] *)
  byteLength : nat     (* [buf.length] *)
}.

Definition bytes_of (b : Buffer) (h : heap) : list byte :=
  take (byteLength b) (drop (byteOffset b) (contents h (buffer b))).

(** [Buffer.from(arrayBuffer)]: shares the memory. *)
Definition Buffer_from_ArrayBuffer (ab : nat) (h : heap) : Buffer :=
  mkBuffer ab 0 (length (contents h ab)).

(** [~~x]: conversion of an integer-valued number to a signed 32-bit
    integer. *)
Definition ToInt32 (x : Z) : Z := (x + 2 ^ 31) mod 2 ^ 32 - 2 ^ 31.

(** Index adjustment of [slice]: the index is taken as [~~index], negative
    indices count from the end, and everything is clamped to [0, length]. *)
Definition adjustOffset (offset : Z) (len : nat) : nat :=
  let offset := ToInt32 offset in
  if offset <? 0 then Z.to_nat (Z.max 0 (offset + Z.of_nat len))
  else Nat.min (Z.to_nat offset) len.

(** [buf.slice(start, end)]: a window on the same memory, no copy. *)
Definition slice (b : Buffer) (start end_ : Z) : Buffer :=
  let s := adjustOffset start (byteLength b) in
  let e := adjustOffset end_ (byteLength b) in
  mkBuffer (buffer b) (byteOffset b + s) (e - s).

(** [Buffer.from(buf)]: copies the bytes into a fresh ArrayBuffer. *)
Definition Buffer_from (b : Buffer) (h : heap) : Buffer * heap :=
  let bs := bytes_of b h in
  let '(ab, h') := alloc bs h in
  (mkBuffer ab 0 (length bs), h').

(** [src.copy(target, targetStart, start, end)] of the package 'buffer':
    the bytes [start, end) of [src], as many as [target] has room for from
    [targetStart] on, are stored into the memory of [target]. *)
Definition Buffer_copy (src target : Buffer) (targetStart start end_ : Z) (h : heap)
    : outcome heap :=
  let len_s := Z.of_nat (byteLength src) in
  let len_t := Z.of_nat (byteLength target) in
  let targetStart := if len_t <=? targetStart then len_t else targetStart in
  let end_ := if (0 <? end_) && (end_ <? start) then start else end_ in
  if end_ =? start then Ok h
  else if (len_t =? 0) || (len_s =? 0) then Ok h
  else if targetStart <? 0 then Throw RangeError
  else if (start <? 0) || (len_s <=? start) then Throw RangeError
  else if end_ <? 0 then Throw RangeError
  else
    let end_ := if len_s <? end_ then len_s else end_ in
    let end_ := if len_t - targetStart <? end_ - start
                then len_t - targetStart + start else end_ in
    let bytes := take (Z.to_nat (end_ - start)) (drop (Z.to_nat start) (bytes_of src h)) in
    let p := (byteOffset target + Z.to_nat targetStart)%nat in
    let bs := contents h (buffer target) in
    Ok (<[buffer target := take p bs ++ bytes ++ drop (p + length bytes) bs]> h).

(** [a & b] on numbers: both operands are taken as 32-bit integers. *)
Definition js_and (a b : Z) : Z := Z.land (ToInt32 a) (ToInt32 b).

(** ** The element classes *)

(** [v == n] for a number literal [n]. *)
Definition js_eq (v : jsval) (n : Z) : bool :=
  match v with
  | Num z | Big z => z =? n
  | Undefined => false
  | Boolean b => (if b then 1 else 0) =? n
  end.

Definition typeof_number (v : jsval) : bool :=
  match v with Num _ => true | _ => false end.

(** The abstract base class [ELFElement]: a buffer and the two variant
    getters, which the subclasses override or inherit. *)
Class ELFElement (T : Type) := {
  el_buffer : T -> Buffer;
  isLE : T -> heap -> outcome bool;
  is32bit : T -> heap -> outcome bool
}.

(** [get view()]: a DataView over the whole ArrayBuffer under the buffer. *)
Definition view {T} `{ELFElement T} (this : T) : DataView := buffer (el_buffer this).

(** [toBuffer(options)]: [Buffer.from(this.buffer)], whatever the options. *)
Definition toBuffer {T} `{ELFElement T} (this : T) (h : heap) : Buffer * heap :=
  Buffer_from (el_buffer this) h.

(** Modelled from the spec: the enum [e_ident] of './constants', which is
    not among the sources.  Section 4.1 places the class at byte 4 and the
    data encoding at byte 5; the getter [ident] below fixes the byte that
    each of the nine keys names. *)
Inductive e_ident := MAG0 | MAG1 | MAG2 | MAG3 | CLASS | DATA | VERSION | OSABI | ABIVERSION.

Record ELFHeader := mkELFHeader { header_buffer : Buffer }.

(** What an element reaches through its [elf] back-reference: the [buffer]
    and [header] fields of the [ELF] object, which are assigned once, in
    its constructor. *)
Record ELF_ref := mkELF_ref { elf_buffer : Buffer; elf_header : ELFHeader }.

(** An element built by [super(buffer, elf)]; [elf] may be undefined. *)
Record Element := mkElement { element_buffer : Buffer; elf : option ELF_ref }.

Module ELFHeader.

Definition ident (this : ELFHeader) (h : heap) : outcome (e_ident -> jsval) :=
  let dv := buffer (header_buffer this) in
  let! m0 := getUint8 dv 0 h in
  let! m1 := getUint8 dv 1 h in
  let! m2 := getUint8 dv 2 h in
  let! m3 := getUint8 dv 3 h in
  let! cl := getUint8 dv 4 h in
  let! da := getUint8 dv 5 h in
  let! ve := getUint8 dv 6 h in
  let! os := getUint8 dv 7 h in
  let! ab := getUint8 dv 8 h in
  Ok (fun k => match k with
               | MAG0 => m0 | MAG1 => m1 | MAG2 => m2 | MAG3 => m3
               | CLASS => cl | DATA => da | VERSION => ve
               | OSABI => os | ABIVERSION => ab
               end).

#[global] Instance element : ELFElement ELFHeader := {|
  el_buffer := header_buffer;
  isLE this h := let! id := ident this h in Ok (js_eq (id DATA) 1);
  is32bit this h := let! id := ident this h in Ok (js_eq (id CLASS) 1)
|}.

Definition type (this : ELFHeader) (h : heap) : outcome jsval :=
  let! le := isLE this h in getUint16 (view this) 0x10 le h.

Definition machine (this : ELFHeader) (h : heap) : outcome jsval :=
  let! le := isLE this h in getUint16 (view this) 0x12 le h.

Definition version (this : ELFHeader) (h : heap) : outcome jsval :=
  let! le := isLE this h in getUint32 (view this) 0x14 le h.

Definition entry (this : ELFHeader) (h : heap) : outcome jsval :=
  let! b := is32bit this h in
  if b then let! le := isLE this h in getUint32 (view this) 0x18 le h
  else let! le := isLE this h in getBigUint64 (view this) 0x18 le h.

Definition phoff (this : ELFHeader) (h : heap) : outcome jsval :=
  let! b := is32bit this h in
  if b then let! le := isLE this h in getUint32 (view this) 0x1c le h
  else let! le := isLE this h in getBigUint64 (view this) 0x20 le h.

Definition shoff (this : ELFHeader) (h : heap) : outcome jsval :=
  let! b := is32bit this h in
  if b then let! le := isLE this h in getUint32 (view this) 0x20 le h
  else let! le := isLE this h in getBigUint64 (view this) 0x28 le h.

Definition flags (this : ELFHeader) (h : heap) : outcome jsval :=
  let! b := is32bit this h in
  let! le := isLE this h in getUint32 (view this) (if b then 0x24 else 0x30) le h.

Definition ehsize (this : ELFHeader) (h : heap) : outcome jsval :=
  let! b := is32bit this h in
  let! le := isLE this h in getUint16 (view this) (if b then 0x28 else 0x34) le h.

Definition phentsize (this : ELFHeader) (h : heap) : outcome jsval :=
  let! b := is32bit this h in
  let! le := isLE this h in getUint16 (view this) (if b then 0x2a else 0x36) le h.

Definition phnum (this : ELFHeader) (h : heap) : outcome jsval :=
  let! b := is32bit this h in
  let! le := isLE this h in getUint16 (view this) (if b then 0x2c else 0x38) le h.

Definition shentsize (this : ELFHeader) (h : heap) : outcome jsval :=
  let! b := is32bit this h in
  let! le := isLE this h in getUint16 (view this) (if b then 0x2e else 0x3a) le h.

Definition shnum (this : ELFHeader) (h : heap) : outcome jsval :=
  let! b := is32bit this h in
  let! le := isLE this h in getUint16 (view this) (if b then 0x30 else 0x3c) le h.

Definition shstrndx (this : ELFHeader) (h : heap) : outcome jsval :=
  let! b := is32bit this h in
  let! le := isLE this h in getUint16 (view this) (if b then 0x32 else 0x3e) le h.

Definition set_type (this : ELFHeader) (val : jsval) (h : heap) : outcome heap :=
  let! le := isLE this h in setUint16 (view this) 0x10 val le h.

Definition set_machine (this : ELFHeader) (val : jsval) (h : heap) : outcome heap :=
  let! le := isLE this h in setUint16 (view this) 0x12 val le h.

Definition set_version (this : ELFHeader) (val : jsval) (h : heap) : outcome heap :=
  let! le := isLE this h in setUint32 (view this) 0x14 val le h.

Definition set_entry (this : ELFHeader) (val : jsval) (h : heap) : outcome heap :=
  if typeof_number val
  then let! le := isLE this h in setUint32 (view this) 0x18 val le h
  else let! le := isLE this h in setBigUint64 (view this) 0x18 val le h.

Definition set_phoff (this : ELFHeader) (val : jsval) (h : heap) : outcome heap :=
  if typeof_number val
  then let! le := isLE this h in setUint32 (view this) 0x1c val le h
  else let! le := isLE this h in setBigUint64 (view this) 0x20 val le h.

Definition set_shoff (this : ELFHeader) (val : jsval) (h : heap) : outcome heap :=
  if typeof_number val
  then let! le := isLE this h in setUint32 (view this) 0x20 val le h
  else let! le := isLE this h in setBigUint64 (view this) 0x28 val le h.

Definition set_flags (this : ELFHeader) (val : jsval) (h : heap) : outcome heap :=
  let! b := is32bit this h in
  let! le := isLE this h in setUint32 (view this) (if b then 0x24 else 0x30) val le h.

Definition set_ehsize (this : ELFHeader) (val : jsval) (h : heap) : outcome heap :=
  let! b := is32bit this h in
  let! le := isLE this h in setUint16 (view this) (if b then 0x28 else 0x34) val le h.

Definition set_phentsize (this : ELFHeader) (val : jsval) (h : heap) : outcome heap :=
  let! b := is32bit this h in
  let! le := isLE this h in setUint16 (view this) (if b then 0x2a else 0x36) val le h.

Definition set_phnum (this : ELFHeader) (val : jsval) (h : heap) : outcome heap :=
  let! b := is32bit this h in
  let! le := isLE this h in setUint16 (view this) (if b then 0x2c else 0x38) val le h.

Definition set_shentsize (this : ELFHeader) (val : jsval) (h : heap) : outcome heap :=
  let! b := is32bit this h in
  let! le := isLE this h in setUint16 (view this) (if b then 0x2e else 0x3a) val le h.

Definition set_shnum (this : ELFHeader) (val : jsval) (h : heap) : outcome heap :=
  let! b := is32bit this h in
  let! le := isLE this h in setUint16 (view this) (if b then 0x30 else 0x3c) val le h.

Definition set_shstrndx (this : ELFHeader) (val : jsval) (h : heap) : outcome heap :=
  let! b := is32bit this h in
  let! le := isLE this h in setUint16 (view this) (if b then 0x32 else 0x3e) val le h.

Definition FromBuffer (buffer : Buffer) : ELFHeader := mkELFHeader buffer.

End ELFHeader.

(** The variant getters every other element inherits: [this.elf.isLE] and
    [this.elf.is32bit], where [ELF] forwards both to its header. *)
#[global] Instance Element_element : ELFElement Element := {|
  el_buffer := element_buffer;
  isLE this h :=
    match elf this with
    | Some e => isLE (elf_header e) h
    | None => Throw TypeError
    end;
  is32bit this h :=
    match elf this with
    | Some e => is32bit (elf_header e) h
    | None => Throw TypeError
    end
|}.

(** The accessor shape shared by every native-word field:
    [this.is32bit ? getUint32(o32, isLE) : getBigUint64(o64, isLE)], and
    the setter [typeof val == 'number' ? setUint32(o32, ..) : setBigUint64(o64, ..)]. *)
Section native_word.
Context {T : Type} `{ELFElement T}.

Definition get_word (o32 o64 : nat) (this : T) (h : heap) : outcome jsval :=
  let! b := is32bit this h in
  if b then let! le := isLE this h in getUint32 (view this) o32 le h
  else let! le := isLE this h in getBigUint64 (view this) o64 le h.

Definition set_word (o32 o64 : nat) (this : T) (val : jsval) (h : heap) : outcome heap :=
  if typeof_number val
  then let! le := isLE this h in setUint32 (view this) o32 val le h
  else let! le := isLE this h in setBigUint64 (view this) o64 val le h.
End native_word.

Definition ProgramHeader := Element.

Module ProgramHeader.

Definition type (this : ProgramHeader) (h : heap) : outcome jsval :=
  let! le := isLE this h in getUint32 (view this) 0 le h.

Definition flags (this : ProgramHeader) (h : heap) : outcome jsval :=
  let! b := is32bit this h in
  let! le := isLE this h in getUint32 (view this) (if b then 0x18 else 4) le h.

Definition offset : ProgramHeader -> heap -> outcome jsval := get_word 4 8.
Definition vaddr : ProgramHeader -> heap -> outcome jsval := get_word 8 0x10.
Definition paddr : ProgramHeader -> heap -> outcome jsval := get_word 0x0c 0x18.
Definition filesz : ProgramHeader -> heap -> outcome jsval := get_word 0x10 0x20.
Definition memsz : ProgramHeader -> heap -> outcome jsval := get_word 0x14 0x28.
Definition align : ProgramHeader -> heap -> outcome jsval := get_word 0x1c 0x30.

(** [this.elf.buffer.slice(Number(this.offset), Number(this.offset) + Number(this.filesz))] *)
Definition value (this : ProgramHeader) (h : heap) : outcome Buffer :=
  match elf this with
  | None => Throw TypeError
  | Some e =>
      let! o1 := offset this h in
      let! o2 := offset this h in
      let! sz := filesz this h in
      Ok (slice (elf_buffer e) (Number o1) (js_add (Number o2) (Number sz)))
  end.

Definition set_type (this : ProgramHeader) (val : jsval) (h : heap) : outcome heap :=
  let! le := isLE this h in setUint32 (view this) 0 val le h.

Definition set_flags (this : ProgramHeader) (val : jsval) (h : heap) : outcome heap :=
  let! b := is32bit this h in
  let! le := isLE this h in setUint32 (view this) (if b then 0x18 else 4) val le h.

Definition set_offset : ProgramHeader -> jsval -> heap -> outcome heap := set_word 4 8.
Definition set_vaddr : ProgramHeader -> jsval -> heap -> outcome heap := set_word 8 0x10.
Definition set_paddr : ProgramHeader -> jsval -> heap -> outcome heap := set_word 0x0c 0x18.
Definition set_filesz : ProgramHeader -> jsval -> heap -> outcome heap := set_word 0x10 0x20.
Definition set_memsz : ProgramHeader -> jsval -> heap -> outcome heap := set_word 0x14 0x28.
Definition set_align : ProgramHeader -> jsval -> heap -> outcome heap := set_word 0x1c 0x30.

(** [val.copy(this.elf.buffer, Number(this.offset), 0, Number(this.filesz))] *)
Definition set_value (this : ProgramHeader) (val : Buffer) (h : heap) : outcome heap :=
  match elf this with
  | None => Throw TypeError
  | Some e =>
      let! o := offset this h in
      let! sz := filesz this h in
      Buffer_copy val (elf_buffer e) (Number o) 0 (Number sz) h
  end.

(** [(Number(this.flags) & Number(flag)) == Number(flag)]: nothing is
    equal to NaN. *)
Definition hasFlag (this : ProgramHeader) (flag : jsval) (h : heap) : outcome bool :=
  let! fl := flags this h in
  Ok (negb (Number_is_NaN flag) && (js_and (Number fl) (Number flag) =? Number flag)).

Definition FromBuffer (buffer : Buffer) (elf : option ELF_ref) : ProgramHeader :=
  mkElement buffer elf.

End ProgramHeader.

(** The static side of an element class, as [getData] uses it. *)
Record ELFElementConstructor (T : Type) := mkConstructor {
  SH_TYPES : list Z;
  FromBuffer : Buffer -> option ELF_ref -> T
}.
Arguments SH_TYPES {T} _.
Arguments FromBuffer {T} _ _ _.

(** [SH_TYPES.includes(v)]: SameValueZero against an array of numbers. *)
Definition includes (l : list Z) (v : jsval) : bool :=
  match v with
  | Num z => existsb (Z.eqb z) l
  | _ => false
  end.

Definition SectionHeader := Element.

Module SectionHeader.

Definition name (this : SectionHeader) (h : heap) : outcome jsval :=
  let! le := isLE this h in getUint32 (view this) 0 le h.

Definition type (this : SectionHeader) (h : heap) : outcome jsval :=
  let! le := isLE this h in getUint32 (view this) 4 le h.

Definition flags : SectionHeader -> heap -> outcome jsval := get_word 8 8.
Definition addr : SectionHeader -> heap -> outcome jsval := get_word 0x0c 0x10.
Definition offset : SectionHeader -> heap -> outcome jsval := get_word 0x10 0x18.
Definition size : SectionHeader -> heap -> outcome jsval := get_word 0x14 0x20.

Definition link (this : SectionHeader) (h : heap) : outcome jsval :=
  let! b := is32bit this h in
  let! le := isLE this h in getUint32 (view this) (if b then 0x18 else 0x28) le h.

Definition info (this : SectionHeader) (h : heap) : outcome jsval :=
  let! b := is32bit this h in
  let! le := isLE this h in getUint32 (view this) (if b then 0x1c else 0x2c) le h.

Definition addralign : SectionHeader -> heap -> outcome jsval := get_word 0x20 0x30.
Definition entsize : SectionHeader -> heap -> outcome jsval := get_word 0x24 0x38.

(** [this.elf.buffer.slice(Number(this.offset), Number(this.offset) + Number(this.size))] *)
Definition value (this : SectionHeader) (h : heap) : outcome Buffer :=
  match elf this with
  | None => Throw TypeError
  | Some e =>
      let! o1 := offset this h in
      let! o2 := offset this h in
      let! sz := size this h in
      Ok (slice (elf_buffer e) (Number o1) (js_add (Number o2) (Number sz)))
  end.

(** [(Number(this.flags) & Number(flag)) == Number(flag)]: nothing is
    equal to NaN. *)
Definition hasFlag (this : SectionHeader) (flag : jsval) (h : heap) : outcome bool :=
  let! fl := flags this h in
  Ok (negb (Number_is_NaN flag) && (js_and (Number fl) (Number flag) =? Number flag)).

(** The [for] loop of [getData]: [i] is the loop variable, [result] the
    array built so far; every turn re-reads [this.size] and
    [this.entsize] and copies one window of [value]. *)
Fixpoint getData_loop {T} (fuel : nat) (elfElement : ELFElementConstructor T)
    (this : SectionHeader) (value : Buffer) (i : Z) (result : list T) (h : heap)
    : outcome (list T * heap) :=
  match fuel with
  | O => OutOfFuel
  | S fuel =>
      let! sz := size this h in
      if js_lt i sz then
        let! es := entsize this h in
        let '(entBuffer, h1) := Buffer_from (slice value i (js_add i (Number es))) h in
        let ent := FromBuffer elfElement entBuffer (elf this) in
        let! es' := entsize this h1 in
        getData_loop fuel elfElement this value (js_add i (Number es')) (result ++ [ent]) h1
      else Ok (result, h)
  end.

Definition getData {T} (fuel : nat) (elfElement : ELFElementConstructor T)
    (this : SectionHeader) (h : heap) : outcome (list T * heap) :=
  let! value := value this h in
  let! ty := type this h in
  if negb (includes (SH_TYPES elfElement) ty) then Throw TypeError
  else getData_loop fuel elfElement this value 0 [] h.

Definition FromBuffer (buffer : Buffer) (elf : option ELF_ref) : SectionHeader :=
  mkElement buffer elf.

End SectionHeader.

(** The section-type codes of enum [sh_type] of './constants', which is
    not among the sources: the codes that the element classes name are
    taken as a parameter. *)
Record sh_type := mk_sh_type {
  SYMTAB : Z; DYNSYM : Z; REL : Z; RELA : Z; DYNAMIC : Z; NOTE : Z
}.

Definition Symbol := Element.

Module Symbol.

Definition name (this : Symbol) (h : heap) : outcome jsval :=
  let! le := isLE this h in getUint32 (view this) 0 le h.

Definition value : Symbol -> heap -> outcome jsval := get_word 4 8.
Definition size : Symbol -> heap -> outcome jsval := get_word 8 16.

Definition info (this : Symbol) (h : heap) : outcome jsval :=
  let! b := is32bit this h in getUint8 (view this) (if b then 12 else 4) h.

Definition other (this : Symbol) (h : heap) : outcome jsval :=
  let! b := is32bit this h in getUint8 (view this) (if b then 13 else 5) h.

Definition shndx (this : Symbol) (h : heap) : outcome jsval :=
  let! b := is32bit this h in
  let! le := isLE this h in getUint16 (view this) (if b then 14 else 6) le h.

Definition set_name (this : Symbol) (val : jsval) (h : heap) : outcome heap :=
  let! le := isLE this h in setUint32 (view this) 0 val le h.

Definition set_value : Symbol -> jsval -> heap -> outcome heap := set_word 4 8.
Definition set_size : Symbol -> jsval -> heap -> outcome heap := set_word 8 16.

Definition set_info (this : Symbol) (val : jsval) (h : heap) : outcome heap :=
  let! b := is32bit this h in setUint8 (view this) (if b then 12 else 4) val h.

Definition set_other (this : Symbol) (val : jsval) (h : heap) : outcome heap :=
  let! b := is32bit this h in setUint8 (view this) (if b then 13 else 5) val h.

Definition set_shndx (this : Symbol) (val : jsval) (h : heap) : outcome heap :=
  let! b := is32bit this h in
  let! le := isLE this h in setUint16 (view this) (if b then 14 else 6) val le h.

Definition constructor (c : sh_type) : ELFElementConstructor Symbol :=
  mkConstructor Symbol [SYMTAB c; DYNSYM c] mkElement.

End Symbol.

(** [Rel] carries the extra constructor argument [needsAddend], which is
    [undefined] when [FromBuffer] is called with two arguments. *)
Record Rel := mkRel { rel_element : Element; needsAddend : option bool }.

Module Rel.

#[global] Instance element : ELFElement Rel := {|
  el_buffer this := element_buffer (rel_element this);
  isLE this := isLE (rel_element this);
  is32bit this := is32bit (rel_element this)
|}.

Definition offset : Rel -> heap -> outcome jsval := get_word 0 0.
Definition info : Rel -> heap -> outcome jsval := get_word 4 8.

(** [this.needsAddend && (...)] *)
Definition added (this : Rel) (h : heap) : outcome jsval :=
  match needsAddend this with
  | None => Ok Undefined
  | Some false => Ok (Boolean false)
  | Some true => get_word 8 16 this h
  end.

Definition set_offset : Rel -> jsval -> heap -> outcome heap := set_word 0 0.
Definition set_info : Rel -> jsval -> heap -> outcome heap := set_word 4 8.

Definition set_added (this : Rel) (val : jsval) (h : heap) : outcome heap :=
  match needsAddend this with
  | Some true => set_word 8 16 this val h
  | _ => Ok h
  end.

Definition FromBuffer (buffer : Buffer) (elf : option ELF_ref) (needsAddend : option bool) : Rel :=
  mkRel (mkElement buffer elf) needsAddend.

Definition constructor (c : sh_type) : ELFElementConstructor Rel :=
  mkConstructor Rel [REL c; RELA c] (fun buffer elf => FromBuffer buffer elf None).

End Rel.

Definition Dyn := Element.

Module Dyn.

Definition tag : Dyn -> heap -> outcome jsval := get_word 0 0.
Definition val : Dyn -> heap -> outcome jsval := get_word 4 8.
Definition ptr : Dyn -> heap -> outcome jsval := val.

Definition set_tag : Dyn -> jsval -> heap -> outcome heap := set_word 0 0.
Definition set_val : Dyn -> jsval -> heap -> outcome heap := set_word 4 8.
Definition set_ptr : Dyn -> jsval -> heap -> outcome heap := set_val.

Definition constructor (c : sh_type) : ELFElementConstructor Dyn :=
  mkConstructor Dyn [DYNAMIC c] mkElement.

End Dyn.

Definition Note := Element.

Module Note.

Definition namesz : Note -> heap -> outcome jsval := get_word 0 0.
Definition descsz : Note -> heap -> outcome jsval := get_word 4 8.
Definition type : Note -> heap -> outcome jsval := get_word 8 16.

Definition set_namesz : Note -> jsval -> heap -> outcome heap := set_word 0 0.
Definition set_descsz : Note -> jsval -> heap -> outcome heap := set_word 4 8.
Definition set_type : Note -> jsval -> heap -> outcome heap := set_word 8 16.

Definition constructor (c : sh_type) : ELFElementConstructor Note :=
  mkConstructor Note [NOTE c] mkElement.

End Note.

(** The decoded file.  [self] holds the fields each element reaches through
    its back-reference; the two arrays are filled by [FromBuffer]. *)
Record ELF := mkELF {
  self : ELF_ref;
  sectionHeaders : list SectionHeader;
  programHeaders : list ProgramHeader
}.

Module ELF.

#[global] Instance element : ELFElement ELF := {|
  el_buffer this := elf_buffer (self this);
  isLE this := isLE (elf_header (self this));
  is32bit this := is32bit (elf_header (self this))
|}.

Definition header (this : ELF) : ELFHeader := elf_header (self this).

(** [this.sectionHeaders.filter(sh => sh.type == type)] *)
Fixpoint filter_type (type : Z) (l : list SectionHeader) (h : heap)
    : outcome (list SectionHeader) :=
  match l with
  | [] => Ok []
  | sh :: l =>
      let! t := SectionHeader.type sh h in
      let! r := filter_type type l h in
      Ok (if js_eq t type then sh :: r else r)
  end.

Definition getSectionHeadersByType (this : ELF) (type : Z) (h : heap)
    : outcome (list SectionHeader) :=
  filter_type type (sectionHeaders this) h.

(** The loop shared by [getSymbols] and [getDynamic]:
    [for (let sh of shs) result.push({ sh, records: sh.getData(kind) })]. *)
Fixpoint getData_each {T} (fuel : nat) (elfElement : ELFElementConstructor T)
    (shs : list SectionHeader) (result : list (SectionHeader * list T)) (h : heap)
    : outcome (list (SectionHeader * list T) * heap) :=
  match shs with
  | [] => Ok (result, h)
  | sh :: shs =>
      let! (records, h1) := SectionHeader.getData fuel elfElement sh h in
      getData_each fuel elfElement shs (result ++ [(sh, records)]) h1
  end.

Definition getSymbols (fuel : nat) (c : sh_type) (this : ELF) (h : heap)
    : outcome (list (SectionHeader * list Symbol) * heap) :=
  let! shs := getSectionHeadersByType this (SYMTAB c) h in
  getData_each fuel (Symbol.constructor c) shs [] h.

Definition getDynamic (fuel : nat) (c : sh_type) (this : ELF) (h : heap)
    : outcome (list (SectionHeader * list Dyn) * heap) :=
  let! shs := getSectionHeadersByType this (DYNAMIC c) h in
  getData_each fuel (Dyn.constructor c) shs [] h.

(** First loop of [FromBuffer]: the section header table. *)
Fixpoint sh_loop (fuel : nat) (buffer : Buffer) (header : ELFHeader) (elf : ELF_ref)
    (i : Z) (sectionHeaders : list SectionHeader) (h : heap)
    : outcome (list SectionHeader * heap) :=
  match fuel with
  | O => OutOfFuel
  | S fuel =>
      let! shoff := ELFHeader.shoff header h in
      let! shnum := ELFHeader.shnum header h in
      let! shentsize := ELFHeader.shentsize header h in
      if i <? js_add (Number shoff) (js_mul (Number shnum) (Number shentsize)) then
        let! es := ELFHeader.shentsize header h in
        let '(shRaw, h1) := Buffer_from (slice buffer i (js_add i (Number es))) h in
        let sh := SectionHeader.FromBuffer shRaw (Some elf) in
        let! es' := ELFHeader.shentsize header h1 in
        sh_loop fuel buffer header elf (js_add i (Number es')) (sectionHeaders ++ [sh]) h1
      else Ok (sectionHeaders, h)
  end.

(** Second loop of [FromBuffer]: the program header table. *)
Fixpoint ph_loop (fuel : nat) (buffer : Buffer) (header : ELFHeader) (elf : ELF_ref)
    (i : Z) (programHeaders : list ProgramHeader) (h : heap)
    : outcome (list ProgramHeader * heap) :=
  match fuel with
  | O => OutOfFuel
  | S fuel =>
      let! phoff := ELFHeader.phoff header h in
      let! phnum := ELFHeader.phnum header h in
      let! phentsize := ELFHeader.phentsize header h in
      if i <? js_add (Number phoff) (js_mul (Number phnum) (Number phentsize)) then
        let! es := ELFHeader.phentsize header h in
        let '(phRaw, h1) := Buffer_from (slice buffer i (js_add i (Number es))) h in
        let ph := ProgramHeader.FromBuffer phRaw (Some elf) in
        let! es' := ELFHeader.phentsize header h1 in
        ph_loop fuel buffer header elf (js_add i (Number es')) (programHeaders ++ [ph]) h1
      else Ok (programHeaders, h)
  end.

(** [ELF.FromBuffer(bufferLike)], where [bufferLike] is an ArrayBuffer of
    the store. *)
Definition FromBuffer (fuel : nat) (bufferLike : nat) (h : heap) : outcome (ELF * heap) :=
  let buffer := Buffer_from_ArrayBuffer bufferLike h in
  let header := ELFHeader.FromBuffer buffer in
  let elf := mkELF_ref buffer header in
  let! shoff := ELFHeader.shoff header h in
  let! (shs, h1) := sh_loop fuel buffer header elf (Number shoff) [] h in
  let! phoff := ELFHeader.phoff header h1 in
  let! (phs, h2) := ph_loop fuel buffer header elf (Number phoff) [] h1 in
  Ok (mkELF elf shs phs, h2).

End ELF.

(** ** Fields by name

    One enumeration per class, with the getter and, where the class has
    one, the setter of each field. *)

Inductive header_field :=
| e_type | e_machine | e_version | e_entry | e_phoff | e_shoff | e_flags
| e_ehsize | e_phentsize | e_phnum | e_shentsize | e_shnum | e_shstrndx.

Definition header_get (f : header_field) : ELFHeader -> heap -> outcome jsval :=
  match f with
  | e_type => ELFHeader.type | e_machine => ELFHeader.machine
  | e_version => ELFHeader.version | e_entry => ELFHeader.entry
  | e_phoff => ELFHeader.phoff | e_shoff => ELFHeader.shoff
  | e_flags => ELFHeader.flags | e_ehsize => ELFHeader.ehsize
  | e_phentsize => ELFHeader.phentsize | e_phnum => ELFHeader.phnum
  | e_shentsize => ELFHeader.shentsize | e_shnum => ELFHeader.shnum
  | e_shstrndx => ELFHeader.shstrndx
  end.

Definition header_set (f : header_field) : ELFHeader -> jsval -> heap -> outcome heap :=
  match f with
  | e_type => ELFHeader.set_type | e_machine => ELFHeader.set_machine
  | e_version => ELFHeader.set_version | e_entry => ELFHeader.set_entry
  | e_phoff => ELFHeader.set_phoff | e_shoff => ELFHeader.set_shoff
  | e_flags => ELFHeader.set_flags | e_ehsize => ELFHeader.set_ehsize
  | e_phentsize => ELFHeader.set_phentsize | e_phnum => ELFHeader.set_phnum
  | e_shentsize => ELFHeader.set_shentsize | e_shnum => ELFHeader.set_shnum
  | e_shstrndx => ELFHeader.set_shstrndx
  end.

Inductive ph_field :=
| p_type | p_flags | p_offset | p_vaddr | p_paddr | p_filesz | p_memsz | p_align.

Definition ph_get (f : ph_field) : ProgramHeader -> heap -> outcome jsval :=
  match f with
  | p_type => ProgramHeader.type | p_flags => ProgramHeader.flags
  | p_offset => ProgramHeader.offset | p_vaddr => ProgramHeader.vaddr
  | p_paddr => ProgramHeader.paddr | p_filesz => ProgramHeader.filesz
  | p_memsz => ProgramHeader.memsz | p_align => ProgramHeader.align
  end.

Definition ph_set (f : ph_field) : ProgramHeader -> jsval -> heap -> outcome heap :=
  match f with
  | p_type => ProgramHeader.set_type | p_flags => ProgramHeader.set_flags
  | p_offset => ProgramHeader.set_offset | p_vaddr => ProgramHeader.set_vaddr
  | p_paddr => ProgramHeader.set_paddr | p_filesz => ProgramHeader.set_filesz
  | p_memsz => ProgramHeader.set_memsz | p_align => ProgramHeader.set_align
  end.

(** [SectionHeader] declares getters only. *)
Inductive sh_field :=
| sh_name | sh_type_ | sh_flags | sh_addr | sh_offset | sh_size
| sh_link | sh_info | sh_addralign | sh_entsize.

Definition sh_get (f : sh_field) : SectionHeader -> heap -> outcome jsval :=
  match f with
  | sh_name => SectionHeader.name | sh_type_ => SectionHeader.type
  | sh_flags => SectionHeader.flags | sh_addr => SectionHeader.addr
  | sh_offset => SectionHeader.offset | sh_size => SectionHeader.size
  | sh_link => SectionHeader.link | sh_info => SectionHeader.info
  | sh_addralign => SectionHeader.addralign | sh_entsize => SectionHeader.entsize
  end.

Inductive sym_field := st_name | st_value | st_size | st_info | st_other | st_shndx.

Definition sym_get (f : sym_field) : Symbol -> heap -> outcome jsval :=
  match f with
  | st_name => Symbol.name | st_value => Symbol.value | st_size => Symbol.size
  | st_info => Symbol.info | st_other => Symbol.other | st_shndx => Symbol.shndx
  end.

Definition sym_set (f : sym_field) : Symbol -> jsval -> heap -> outcome heap :=
  match f with
  | st_name => Symbol.set_name | st_value => Symbol.set_value
  | st_size => Symbol.set_size | st_info => Symbol.set_info
  | st_other => Symbol.set_other | st_shndx => Symbol.set_shndx
  end.

Inductive rel_field := r_offset | r_info | r_added.

Definition rel_get (f : rel_field) : Rel -> heap -> outcome jsval :=
  match f with
  | r_offset => Rel.offset | r_info => Rel.info | r_added => Rel.added
  end.

Definition rel_set (f : rel_field) : Rel -> jsval -> heap -> outcome heap :=
  match f with
  | r_offset => Rel.set_offset | r_info => Rel.set_info | r_added => Rel.set_added
  end.

Inductive dyn_field := d_tag | d_val | d_ptr.

Definition dyn_get (f : dyn_field) : Dyn -> heap -> outcome jsval :=
  match f with d_tag => Dyn.tag | d_val => Dyn.val | d_ptr => Dyn.ptr end.

Definition dyn_set (f : dyn_field) : Dyn -> jsval -> heap -> outcome heap :=
  match f with d_tag => Dyn.set_tag | d_val => Dyn.set_val | d_ptr => Dyn.set_ptr end.

Inductive note_field := n_namesz | n_descsz | n_type.

Definition note_get (f : note_field) : Note -> heap -> outcome jsval :=
  match f with
  | n_namesz => Note.namesz | n_descsz => Note.descsz | n_type => Note.type
  end.

Definition note_set (f : note_field) : Note -> jsval -> heap -> outcome heap :=
  match f with
  | n_namesz => Note.set_namesz | n_descsz => Note.set_descsz | n_type => Note.set_type
  end.

(** ** The layout tables of the specification

    The field tables of sections 4.1, 4.3 and 4.5 of the specification,
    written as data, and the field codec of section 4.2 reading one entry
    of such a table.  The getters above are compared with these. *)

Inductive width := u8 | u16 | u32 | nativeWord.

Record layout := mkLayout { off32 : nat; off64 : nat; field_width : width }.

Definition byte_at (bs : list byte) (k : nat) : Z :=
  match bs !! k with
  | Some b => byte_to_Z b
  | None => 0
  end.

(** Section 4.1: byte 4 equal to 1 is the 32-bit class, byte 5 equal to 1
    is little-endian. *)
Definition spec_is32bit (bs : list byte) : bool := byte_at bs 4 =? 1.
Definition spec_isLE (bs : list byte) : bool := byte_at bs 5 =? 1.

Definition width_bytes (is32 : bool) (w : width) : nat :=
  match w with
  | u8 => 1 | u16 => 2 | u32 => 4
  | nativeWord => if is32 then 4 else 8
  end.

Definition spec_read (bs : list byte) (is32 le : bool) (l : layout) : outcome jsval :=
  let o := if is32 then off32 l else off64 l in
  let w := width_bytes is32 (field_width l) in
  if (o + w <=? length bs)%nat then
    let z := decode le (take w (drop o bs)) in
    Ok (match field_width l with
        | nativeWord => if is32 then Num z else Big z
        | _ => Num z
        end)
  else Throw RangeError.

(** Section 4.3. *)
Definition spec_header_layout (f : header_field) : layout :=
  match f with
  | e_type => mkLayout 0x10 0x10 u16
  | e_machine => mkLayout 0x12 0x12 u16
  | e_version => mkLayout 0x14 0x14 u32
  | e_entry => mkLayout 0x18 0x18 nativeWord
  | e_phoff => mkLayout 0x1c 0x20 nativeWord
  | e_shoff => mkLayout 0x20 0x28 nativeWord
  | e_flags => mkLayout 0x24 0x30 u32
  | e_ehsize => mkLayout 0x28 0x34 u16
  | e_phentsize => mkLayout 0x2a 0x36 u16
  | e_phnum => mkLayout 0x2c 0x38 u16
  | e_shentsize => mkLayout 0x2e 0x3a u16
  | e_shnum => mkLayout 0x30 0x3c u16
  | e_shstrndx => mkLayout 0x32 0x3e u16
  end.

(** Section 4.5, program header. *)
Definition spec_ph_layout (f : ph_field) : layout :=
  match f with
  | p_type => mkLayout 0 0 u32
  | p_flags => mkLayout 0x18 4 u32
  | p_offset => mkLayout 4 8 nativeWord
  | p_vaddr => mkLayout 8 0x10 nativeWord
  | p_paddr => mkLayout 0xc 0x18 nativeWord
  | p_filesz => mkLayout 0x10 0x20 nativeWord
  | p_memsz => mkLayout 0x14 0x28 nativeWord
  | p_align => mkLayout 0x1c 0x30 nativeWord
  end.

(** Section 4.5, section header. *)
Definition spec_sh_layout (f : sh_field) : layout :=
  match f with
  | sh_name => mkLayout 0 0 u32
  | sh_type_ => mkLayout 4 4 u32
  | sh_flags => mkLayout 8 8 nativeWord
  | sh_addr => mkLayout 0xc 0x10 nativeWord
  | sh_offset => mkLayout 0x10 0x18 nativeWord
  | sh_size => mkLayout 0x14 0x20 nativeWord
  | sh_link => mkLayout 0x18 0x28 u32
  | sh_info => mkLayout 0x1c 0x2c u32
  | sh_addralign => mkLayout 0x20 0x30 nativeWord
  | sh_entsize => mkLayout 0x24 0x38 nativeWord
  end.

(** A field of an element other than the file header, read as the
    specification describes it: under the variant of the file that the
    element refers to. *)
Definition spec_read_element (this : Element) (l : layout) (h : heap) : outcome jsval :=
  match elf this with
  | None => Throw TypeError
  | Some e =>
      let file := contents h (buffer (header_buffer (elf_header e))) in
      if (9 <=? length file)%nat
      then spec_read (contents h (buffer (element_buffer this)))
             (spec_is32bit file) (spec_isLE file) l
      else Throw RangeError
  end.

(** ** The shape of the three table loops

    [for (let i = start; i < bound; i += step) push(copy of slice(i, i + step))],
    with the bound and the step already read.  The loops of [getData] and
    [FromBuffer] are shown below to run as this one. *)

Fixpoint walk {T} (fuel : nat) (lt : Z -> bool) (step : Z) (src : Buffer)
    (mk : Buffer -> T) (i : Z) (result : list T) (h : heap) : outcome (list T * heap) :=
  match fuel with
  | O => OutOfFuel
  | S fuel =>
      if lt i then
        let '(b, h1) := Buffer_from (slice src i (js_add i step)) h in
        walk fuel lt step src mk (js_add i step) (result ++ [mk b]) h1
      else Ok (result, h)
  end.

(** The value of the loop variable at the start of turn [j]. *)
Fixpoint idx (step : Z) (i : Z) (j : nat) : Z :=
  match j with
  | O => i
  | S j => js_add (idx step i j) step
  end.

(** The bytes copied at turn [j], and the elements and the store after [n]
    turns. *)
Definition window (step : Z) (src : Buffer) (i : Z) (h : heap) (j : nat) : list byte :=
  bytes_of (slice src (idx step i j) (js_add (idx step i j) step)) h.

Definition walked {T} (step : Z) (src : Buffer) (mk : Buffer -> T) (i : Z) (h : heap)
    (n : nat) : list T :=
  map (fun j => mk (mkBuffer (length h + j) 0 (length (window step src i h j)))) (seq 0 n).

Definition walked_heap (step : Z) (src : Buffer) (i : Z) (h : heap) (n : nat) : heap :=
  h ++ map (window step src i h) (seq 0 n).

(** The integer a numeric value stands for. *)
Definition raw (v : jsval) : Z :=
  match v with
  | Num z | Big z => z
  | Undefined => 0
  | Boolean b => if b then 1 else 0
  end.

Definition numeric (v : jsval) : Prop := v = Num (raw v) \/ v = Big (raw v).

(** A buffer whose window lies inside its ArrayBuffer. *)
Definition well_formed (b : Buffer) (h : heap) : Prop :=
  (byteOffset b + byteLength b <= length (contents h (buffer b)))%nat.

(** An element is allocated in a store when its own ArrayBuffer and the
    one of its file's header are. *)
Definition allocated (this : Element) (h : heap) : Prop :=
  (buffer (element_buffer this) < length h)%nat /\
  forall e, elf this = Some e ->
    (buffer (header_buffer (elf_header e)) < length h)%nat /\
    (buffer (elf_buffer e) < length h)%nat.

(** The number of turns of a table loop over [N] entries of size [s]: the
    bound [off + N * s] is reached at once when [s] is zero. *)
Definition table_count (N s : Z) : nat := if s =? 0 then 0%nat else Z.to_nat N.

(** ** Sample files

    Small images on which the statements below are exercised.  For them
    the section type codes are those of the ELF format; the general
    statements hold for any codes. *)

Definition elf_sh_type : sh_type :=
  {| SYMTAB := 2; DYNSYM := 11; REL := 9; RELA := 4; DYNAMIC := 6; NOTE := 7 |}.

Definition w8 (z : Z) : list byte := le_encode 1 z.
Definition w16 (z : Z) : list byte := le_encode 2 z.
Definition w32 (z : Z) : list byte := le_encode 4 z.
Definition w64 (z : Z) : list byte := le_encode 8 z.

Definition ident_bytes (class data : Z) : list byte :=
  w8 0x7f ++ w8 0x45 ++ w8 0x4c ++ w8 0x46 ++ w8 class ++ w8 data ++ w8 1 ++ w8 0 ++ w64 0.

(** A little-endian 64-bit file: a 64-byte header with [phoff = 0x40],
    [phentsize = 0x38], [phnum] as given and no sections, followed by one
    program header of type 1 with [offset = 0x1000] and [filesz = 0x200]. *)
Definition header64 (phentsize phnum : Z) : list byte :=
  ident_bytes 2 1 ++ w16 2 ++ w16 0x3e ++ w32 1 ++ w64 0x401000 ++ w64 0x40 ++ w64 0 ++
  w32 0 ++ w16 0x40 ++ w16 phentsize ++ w16 phnum ++ w16 0x40 ++ w16 0 ++ w16 0.

Definition phdr64 : list byte :=
  w32 1 ++ w32 5 ++ w64 0x1000 ++ w64 0x400000 ++ w64 0x400000 ++ w64 0x200 ++ w64 0x200 ++
  w64 0x1000.

Definition file64 : list byte := header64 0x38 1 ++ phdr64.

(** The same file with a zero entry size in the program header table. *)
Definition file64_zero_entsize : list byte := header64 0 1 ++ phdr64.


(** A little-endian 32-bit file with four sections: a null section with a
    non-zero size, a symbol table of two entries, a RELA section of one
    entry whose addend is 42, and a symbol table with entry size zero. *)
Definition header32 (shentsize shnum : Z) : list byte :=
  ident_bytes 1 1 ++ w16 1 ++ w16 3 ++ w32 1 ++ w32 0 ++ w32 0 ++ w32 0x34 ++
  w32 0 ++ w16 0x34 ++ w16 0x20 ++ w16 0 ++ w16 shentsize ++ w16 shnum ++ w16 0.

Definition shdr32 (type offset size entsize : Z) : list byte :=
  w32 0 ++ w32 type ++ w32 0 ++ w32 0 ++ w32 offset ++ w32 size ++ w32 0 ++ w32 0 ++
  w32 4 ++ w32 entsize.

Definition sym32 (name value size info other shndx : Z) : list byte :=
  w32 name ++ w32 value ++ w32 size ++ w8 info ++ w8 other ++ w16 shndx.

Definition sections32 : list byte :=
  shdr32 0 212 16 0 ++ shdr32 2 212 32 16 ++ shdr32 4 244 12 12 ++ shdr32 2 212 16 0.

Definition data32 : list byte :=
  sym32 0 0 0 0 0 0 ++ sym32 1 0x8048000 4 0x12 0 1 ++ (w32 0x8049000 ++ w32 0x101 ++ w32 42).

Definition file32 : list byte := header32 40 4 ++ sections32 ++ data32.

(** The same file read with a section header entry size of 8: every
    section header window stops after the type field. *)
Definition file32_short_entries : list byte := header32 8 1 ++ sections32 ++ data32.

(** Decoding a sample with ample fuel, into a store that holds only it. *)
Definition decode_sample (file : list byte) : outcome (ELF * heap) :=
  ELF.FromBuffer 100 0 [file].

Definition nth_section (j : nat) (r : outcome (ELF * heap)) : option (SectionHeader * heap) :=
  match r with
  | Ok (e, h) => match sectionHeaders e !! j with Some sh => Some (sh, h) | None => None end
  | _ => None
  end.


(** The store after decoding [file32], and its sections as [FromBuffer]
    builds them. *)
Definition sample_ref32 : ELF_ref :=
  mkELF_ref (mkBuffer 0 0 256) (mkELFHeader (mkBuffer 0 0 256)).

Definition sample_heap32 : heap :=
  [file32; shdr32 0 212 16 0; shdr32 2 212 32 16; shdr32 4 244 12 12; shdr32 2 212 16 0].

Definition sample_section (j : nat) : SectionHeader :=
  mkElement (mkBuffer (S j) 0 40) (Some sample_ref32).

(** The store after decoding [file64], and its program header. *)
Definition sample_ref64 : ELF_ref :=
  mkELF_ref (mkBuffer 0 0 120) (mkELFHeader (mkBuffer 0 0 120)).

Definition sample_heap64 : heap := [file64; phdr64].

Definition sample_program : ProgramHeader :=
  mkElement (mkBuffer 1 0 56) (Some sample_ref64).

(** Section 4.7: symbols, relocations, dynamic entries and notes. *)
Definition spec_sym_layout (f : sym_field) : layout :=
  match f with
  | st_name => mkLayout 0 0 u32
  | st_value => mkLayout 4 8 nativeWord
  | st_size => mkLayout 8 0x10 nativeWord
  | st_info => mkLayout 0xc 4 u8
  | st_other => mkLayout 0xd 5 u8
  | st_shndx => mkLayout 0xe 6 u16
  end.

Definition spec_rel_layout (f : rel_field) : layout :=
  match f with
  | r_offset => mkLayout 0 0 nativeWord
  | r_info => mkLayout 4 8 nativeWord
  | r_added => mkLayout 8 16 nativeWord
  end.

Definition spec_dyn_layout (f : dyn_field) : layout :=
  match f with
  | d_tag => mkLayout 0 0 nativeWord
  | d_val | d_ptr => mkLayout 4 8 nativeWord
  end.

Definition spec_note_layout (f : note_field) : layout :=
  match f with
  | n_namesz => mkLayout 0 0 nativeWord
  | n_descsz => mkLayout 4 8 nativeWord
  | n_type => mkLayout 8 16 nativeWord
  end.

(** ** Accessors

    A field of an element of one of the classes that declare setters. *)
Inductive accessor :=
| OfHeader (this : ELFHeader) (f : header_field)
| OfProgramHeader (this : ProgramHeader) (f : ph_field)
| OfSymbol (this : Symbol) (f : sym_field)
| OfRel (this : Rel) (f : rel_field)
| OfDyn (this : Dyn) (f : dyn_field)
| OfNote (this : Note) (f : note_field).

Definition accessor_get (a : accessor) : heap -> outcome jsval :=
  match a with
  | OfHeader this f => header_get f this
  | OfProgramHeader this f => ph_get f this
  | OfSymbol this f => sym_get f this
  | OfRel this f => rel_get f this
  | OfDyn this f => dyn_get f this
  | OfNote this f => note_get f this
  end.

Definition accessor_set (a : accessor) : jsval -> heap -> outcome heap :=
  match a with
  | OfHeader this f => header_set f this
  | OfProgramHeader this f => ph_set f this
  | OfSymbol this f => sym_set f this
  | OfRel this f => rel_set f this
  | OfDyn this f => dyn_set f this
  | OfNote this f => note_set f this
  end.

(** The ArrayBuffer under the element's DataView. *)
Definition written (a : accessor) : nat :=
  match a with
  | OfHeader this _ => view this
  | OfProgramHeader this _ | OfSymbol this _ | OfDyn this _ | OfNote this _ => view this
  | OfRel this _ => view this
  end.

Definition accessor_is32bit (a : accessor) : heap -> outcome bool :=
  match a with
  | OfHeader this _ => is32bit this
  | OfProgramHeader this _ | OfSymbol this _ | OfDyn this _ | OfNote this _ => is32bit this
  | OfRel this _ => is32bit this
  end.

Definition accessor_layout (a : accessor) : layout :=
  match a with
  | OfHeader _ f => spec_header_layout f
  | OfProgramHeader _ f => spec_ph_layout f
  | OfSymbol _ f => spec_sym_layout f
  | OfRel _ f => spec_rel_layout f
  | OfDyn _ f => spec_dyn_layout f
  | OfNote _ f => spec_note_layout f
  end.

(** The element does not share its ArrayBuffer with the header of its
    file (the header itself excepted). *)
Definition apart (this : Element) : bool :=
  match elf this with
  | Some e => negb (buffer (header_buffer (elf_header e)) =? buffer (element_buffer this))%nat
  | None => true
  end.


(** The addend accessors act only when [needsAddend] is true. *)
Definition accessor_enabled (a : accessor) : bool :=
  match a with
  | OfRel this r_added =>
      match needsAddend this with Some true => true | _ => false end
  | _ => true
  end.

(** A value of the kind and range that a field of the given width holds
    under the given word width: a number below 2^8, 2^16 or 2^32 for the
    fixed widths, and for a native word a number below 2^32 in a 32-bit
    file, a bigint below 2^64 in a 64-bit file. *)
Definition fits_width (is32 : bool) (w : width) (v : jsval) : bool :=
  match w, v with
  | u8, Num z => (0 <=? z) && (z <? 2 ^ 8)
  | u16, Num z => (0 <=? z) && (z <? 2 ^ 16)
  | u32, Num z => (0 <=? z) && (z <? 2 ^ 32)
  | nativeWord, Num z => is32 && (0 <=? z) && (z <? 2 ^ 32)
  | nativeWord, Big z => negb is32 && (0 <=? z) && (z <? 2 ^ 64)
  | _, _ => false
  end.

Definition fits (a : accessor) (v : jsval) (h : heap) : bool :=
  match accessor_is32bit a h with
  | Ok is32 => fits_width is32 (field_width (accessor_layout a)) v && accessor_enabled a
  | _ => false
  end.

(** The shape of every setter in terms of a layout: fixed-width fields are
    written at the offset of the file's word width; a native word is
    written as a u32 at the 32-bit offset when the value is a number and
    as a u64 at the 64-bit offset otherwise. *)
Definition layout_write (dv : DataView) (is32 le : bool) (l : layout) (v : jsval)
    (h : heap) : outcome heap :=
  match field_width l with
  | u8 => setUint8 dv (if is32 then off32 l else off64 l) v h
  | u16 => setUint16 dv (if is32 then off32 l else off64 l) v le h
  | u32 => setUint32 dv (if is32 then off32 l else off64 l) v le h
  | nativeWord =>
      if typeof_number v then setUint32 dv (off32 l) v le h
      else setBigUint64 dv (off64 l) v le h
  end.

Definition element_write (this : Element) (l : layout) (v : jsval) (h : heap) : outcome heap :=
  match elf this with
  | None => Throw TypeError
  | Some e =>
      let file := contents h (buffer (header_buffer (elf_header e))) in
      if (9 <=? length file)%nat
      then layout_write (buffer (element_buffer this)) (spec_is32bit file) (spec_isLE file) l v h
      else Throw RangeError
  end.

(** A little-endian 64-bit file with no program header and one section, a
    symbol table whose size field is 2^53 + 1 and whose entry size is 1. *)
Definition shdr64 (type offset size entsize : Z) : list byte :=
  w32 0 ++ w32 type ++ w64 0 ++ w64 0 ++ w64 offset ++ w64 size ++ w32 0 ++ w32 0 ++
  w64 8 ++ w64 entsize.

Definition file64_huge_section : list byte :=
  ident_bytes 2 1 ++ w16 2 ++ w16 0x3e ++ w32 1 ++ w64 0 ++ w64 0 ++ w64 0x40 ++
  w32 0 ++ w16 0x40 ++ w16 0x38 ++ w16 0 ++ w16 0x40 ++ w16 1 ++ w16 0 ++
  shdr64 2 0 (2 ^ 53 + 1) 1.

Definition sample_huge_section : SectionHeader :=
  mkElement (mkBuffer 1 0 64)
    (Some (mkELF_ref (mkBuffer 0 0 128) (mkELFHeader (mkBuffer 0 0 128)))).

Definition sample_heap_huge : heap := [file64_huge_section; shdr64 2 0 (2 ^ 53 + 1) 1].

(** An element reports, in every store, the variant that a header reports. *)
Definition same_variant {T} `{ELFElement T} (header : ELFHeader) (x : T) : Prop :=
  forall h : heap, is32bit x h = is32bit header h /\ isLE x h = isLE header h.

(** The least length of a buffer whose table descriptors can all be read:
    the section count, the last of them, ends at 0x32 in the 32-bit layout
    and at 0x3e in the 64-bit layout. *)
Definition min_length (is32 : bool) : nat := if is32 then 0x32%nat else 0x3e%nat.

(** Two fields whose bytes, under a word width, do not overlap. *)
Definition regions_disjoint (is32 : bool) (l1 l2 : layout) : bool :=
  let o1 := if is32 then off32 l1 else off64 l1 in
  let o2 := if is32 then off32 l2 else off64 l2 in
  let w1 := width_bytes is32 (field_width l1) in
  let w2 := width_bytes is32 (field_width l2) in
  ((o1 + w1 <=? o2) || (o2 + w2 <=? o1))%nat.

(** A program header of the 32-bit layout that describes [filesz] bytes at
    [offset], a store that holds [file32], such a header for the four
    bytes at 212, and six bytes to assign to its [value]. *)
Definition phdr32 (offset filesz : Z) : list byte :=
  w32 1 ++ w32 offset ++ w32 0 ++ w32 0 ++ w32 filesz ++ w32 filesz ++ w32 5 ++ w32 4.

Definition sample_heap_segment : heap :=
  [file32; phdr32 212 4; w32 0x11223344 ++ w16 0x5566].

Definition sample_segment : ProgramHeader :=
  mkElement (mkBuffer 1 0 32) (Some sample_ref32).

Definition sample_payload : Buffer := mkBuffer 2 0 6.

(** The first three sections of [file32] as a file object. *)
Definition sample_elf32 : ELF :=
  mkELF sample_ref32 [sample_section 0; sample_section 1; sample_section 2] [].

(** A file object over [file32] whose only section header was cut after
    its type field, which names a symbol table. *)
Definition sample_heap32_short : heap := [file32; take 8 (shdr32 2 212 32 16)].

Definition sample_elf32_short : ELF :=
  mkELF sample_ref32 [mkElement (mkBuffer 1 0 8) (Some sample_ref32)] [].

(** The program header of [file64] beside a file of which only the first
    eight bytes are there. *)
Definition sample_heap_no_ident : heap := [take 8 file64; phdr64].

Definition sample_program_no_ident : ProgramHeader :=
  mkElement (mkBuffer 1 0 56)
    (Some (mkELF_ref (mkBuffer 0 0 8) (mkELFHeader (mkBuffer 0 0 8)))).

(** A little-endian 64-bit header alone, whose section header table is
    said to start at 2^60, with three entries of 64 bytes. *)
Definition file64_far_table : list byte :=
  ident_bytes 2 1 ++ w16 2 ++ w16 0x3e ++ w32 1 ++ w64 0x401000 ++ w64 0x40 ++ w64 (2 ^ 60) ++
  w32 0 ++ w16 0x40 ++ w16 0x38 ++ w16 0 ++ w16 0x40 ++ w16 3 ++ w16 0.

(** * Properties *)

(** ** The byte codec *)

Lemma byte_to_Z_range b : 0 <= byte_to_Z b < 256.
Proof.
  unfold byte_to_Z. pose proof (Byte.to_N_bounded b). lia.
Qed.

Lemma byte_to_of_Z z : byte_to_Z (byte_of_Z z) = z mod 256.
Proof.
  unfold byte_to_Z, byte_of_Z.
  pose proof (Z.mod_pos_bound z 256 eq_refl) as Hr.
  destruct (Byte.of_N (Z.to_N (z mod 256))) as [b|] eqn:E.
  - apply Byte.to_of_N in E. rewrite E. lia.
  - apply Byte.of_N_None_iff in E. lia.
Qed.

Lemma length_le_encode n v : length (le_encode n v) = n.
Proof. revert v. induction n as [|n IH]; intros v; simpl; [done | by rewrite IH]. Qed.

Lemma length_encode le n v : length (encode le n v) = n.
Proof.
  unfold encode. destruct le; [| rewrite length_rev]; apply length_le_encode.
Qed.

Lemma le_decode_encode n v : le_decode (le_encode n v) = v mod 256 ^ Z.of_nat n.
Proof.
  revert v. induction n as [|n IH]; intros v.
  - simpl. by rewrite Z.mod_1_r.
  - cbn [le_encode le_decode]. rewrite byte_to_of_Z, IH.
    rewrite Nat2Z.inj_succ, Z.pow_succ_r by lia.
    rewrite Z.rem_mul_r by lia. reflexivity.
Qed.

Lemma decode_encode le n v : decode le (encode le n v) = v mod 256 ^ Z.of_nat n.
Proof.
  unfold decode, encode. destruct le; [| rewrite rev_involutive]; apply le_decode_encode.
Qed.

Lemma le_decode_range bs : 0 <= le_decode bs < 256 ^ Z.of_nat (length bs).
Proof.
  induction bs as [|b bs IH].
  - simpl. lia.
  - cbn [le_decode length]. pose proof (byte_to_Z_range b).
    rewrite Nat2Z.inj_succ, Z.pow_succ_r by lia. lia.
Qed.

Lemma decode_range le bs : 0 <= decode le bs < 256 ^ Z.of_nat (length bs).
Proof.
  unfold decode. destruct le; [apply le_decode_range |].
  rewrite <- (length_rev bs). apply le_decode_range.
Qed.

(** ** The store *)

Lemma contents_insert_eq (h : heap) ab bs :
  (ab < length h)%nat -> contents (<[ab := bs]> h) ab = bs.
Proof. intros Hlt. unfold contents. by rewrite list_lookup_insert_eq. Qed.

Lemma contents_insert_ne (h : heap) ab ab' bs :
  ab <> ab' -> contents (<[ab := bs]> h) ab' = contents h ab'.
Proof. intros Hne. unfold contents. by rewrite list_lookup_insert_ne. Qed.

Lemma contents_dangling (h : heap) ab : (length h <= ab)%nat -> contents h ab = [].
Proof. intros Hge. unfold contents. by rewrite lookup_ge_None_2. Qed.

(** ** DataView reads and writes *)

Lemma setUint_inv w dv o v le h h' :
  setUint w dv o v le h = Ok h' ->
  (o + w <= length (contents h dv))%nat /\
  h' = <[dv := take o (contents h dv) ++ encode le w v ++ drop (o + w) (contents h dv)]> h.
Proof.
  unfold setUint. case_match eqn:E; [| done].
  intros [= <-]. apply Nat.leb_le in E. done.
Qed.

Lemma setUint_allocated w dv o v le h h' :
  (0 < w)%nat -> setUint w dv o v le h = Ok h' -> (dv < length h)%nat.
Proof.
  intros Hw [Hb _]%setUint_inv.
  destruct (decide (dv < length h)%nat) as [|Hge]; [done |].
  rewrite contents_dangling in Hb by lia. simpl in Hb. lia.
Qed.

Lemma setUint_length w dv o v le h h' :
  setUint w dv o v le h = Ok h' -> length h' = length h.
Proof. intros [_ ->]%setUint_inv. apply length_insert. Qed.

(** A write touches one ArrayBuffer only. *)
Lemma setUint_frame w dv o v le h h' dv' :
  setUint w dv o v le h = Ok h' -> dv' <> dv -> contents h' dv' = contents h dv'.
Proof. intros [_ ->]%setUint_inv Hne. by apply contents_insert_ne. Qed.

Lemma setUint_contents w dv o v le h h' :
  (0 < w)%nat -> setUint w dv o v le h = Ok h' ->
  contents h' dv = take o (contents h dv) ++ encode le w v ++ drop (o + w) (contents h dv).
Proof.
  intros Hw Hs. pose proof (setUint_allocated _ _ _ _ _ _ _ Hw Hs).
  apply setUint_inv in Hs as [_ ->]. by apply contents_insert_eq.
Qed.

Lemma setUint_contents_length w dv o v le h h' :
  (0 < w)%nat -> setUint w dv o v le h = Ok h' ->
  length (contents h' dv) = length (contents h dv).
Proof.
  intros Hw Hs. rewrite (setUint_contents _ _ _ _ _ _ _ Hw Hs).
  apply setUint_inv in Hs as [Hb _].
  rewrite !length_app, length_take, length_encode, length_drop. lia.
Qed.

(** Reading back what was written gives the value modulo the width. *)
Lemma getUint_setUint w dv o v le h h' :
  (0 < w)%nat -> setUint w dv o v le h = Ok h' ->
  getUint w dv o le h' = Ok (v mod 256 ^ Z.of_nat w).
Proof.
  intros Hw Hs. unfold getUint.
  rewrite (setUint_contents_length _ _ _ _ _ _ _ Hw Hs).
  rewrite (setUint_contents _ _ _ _ _ _ _ Hw Hs).
  apply setUint_inv in Hs as [Hb _].
  assert (E : (o + w <=? length (contents h dv))%nat = true) by by apply Nat.leb_le.
  rewrite E. f_equal.
  rewrite drop_app_length' by (rewrite length_take; lia).
  rewrite take_app_length' by (by rewrite length_encode).
  apply decode_encode.
Qed.

(** A read below the written window sees the old bytes. *)
Lemma getUint_setUint_below w dv o v le h h' w' o' le' :
  (0 < w)%nat -> setUint w dv o v le h = Ok h' -> (o' + w' <= o)%nat ->
  getUint w' dv o' le' h' = getUint w' dv o' le' h.
Proof.
  intros Hw Hs Hlt. unfold getUint.
  rewrite (setUint_contents_length _ _ _ _ _ _ _ Hw Hs).
  rewrite (setUint_contents _ _ _ _ _ _ _ Hw Hs).
  apply setUint_inv in Hs as [Hb _].
  case_match; [| done]. do 2 f_equal.
  rewrite <- (take_drop o (contents h dv)) at 3.
  rewrite !drop_app_le by (rewrite length_take; lia).
  rewrite !take_app_le by (rewrite length_drop, length_take; lia).
  done.
Qed.

(** ** The format variant *)

Lemma getUint1_at dv k le h :
  getUint 1 dv k le h =
  if (k + 1 <=? length (contents h dv))%nat then Ok (byte_at (contents h dv) k)
  else Throw RangeError.
Proof.
  unfold getUint, byte_at. case_match eqn:E; [| done].
  apply Nat.leb_le in E. f_equal.
  destruct (lookup_lt_is_Some_2 (contents h dv) k) as [b Hb]; [lia |].
  rewrite Hb, (drop_S _ _ _ Hb). simpl. rewrite take_0.
  unfold decode. destruct le; simpl; lia.
Qed.

(** The header reads its variant from bytes 4 and 5 of its own
    ArrayBuffer, after reading all nine identification bytes. *)
Lemma header_variant (this : ELFHeader) h :
  let bs := contents h (view this) in
  is32bit this h = (if (9 <=? length bs)%nat then Ok (spec_is32bit bs) else Throw RangeError) /\
  isLE this h = (if (9 <=? length bs)%nat then Ok (spec_isLE bs) else Throw RangeError).
Proof.
  intros bs. subst bs. unfold view.
  cbn [is32bit isLE ELFHeader.element el_buffer].
  unfold ELFHeader.ident, getUint8. rewrite !getUint1_at.
  set (bs := contents h _).
  destruct (Nat.leb_spec 9 (length bs)) as [Hle|Hlt].
  - repeat match goal with
           | |- context [(?a + 1 <=? length ?l)%nat] =>
               replace (a + 1 <=? length l)%nat with true by (symmetry; apply Nat.leb_le; lia)
           end.
    done.
  - split.
    all: repeat match goal with
           | |- context [(?a + 1 <=? length ?l)%nat] =>
               destruct (Nat.leb_spec (a + 1) (length l)); cbn [bind]; try done
           end.
    all: lia.
Qed.

Lemma header_is32bit (this : ELFHeader) h :
  is32bit this h =
  if (9 <=? length (contents h (view this)))%nat
  then Ok (spec_is32bit (contents h (view this))) else Throw RangeError.
Proof. apply header_variant. Qed.

Lemma header_isLE (this : ELFHeader) h :
  isLE this h =
  if (9 <=? length (contents h (view this)))%nat
  then Ok (spec_isLE (contents h (view this))) else Throw RangeError.
Proof. apply header_variant. Qed.

(** ** Field layouts *)

Ltac unfold_getters :=
  unfold header_get, ph_get, sh_get, sym_get, rel_get, dyn_get, note_get,
    ELFHeader.type, ELFHeader.machine, ELFHeader.version, ELFHeader.entry,
    ELFHeader.phoff, ELFHeader.shoff, ELFHeader.flags, ELFHeader.ehsize,
    ELFHeader.phentsize, ELFHeader.phnum, ELFHeader.shentsize, ELFHeader.shnum,
    ELFHeader.shstrndx,
    ProgramHeader.type, ProgramHeader.flags, ProgramHeader.offset,
    ProgramHeader.vaddr, ProgramHeader.paddr, ProgramHeader.filesz,
    ProgramHeader.memsz, ProgramHeader.align,
    SectionHeader.name, SectionHeader.type, SectionHeader.flags, SectionHeader.addr,
    SectionHeader.offset, SectionHeader.size, SectionHeader.link, SectionHeader.info,
    SectionHeader.addralign, SectionHeader.entsize,
    Symbol.name, Symbol.value, Symbol.size, Symbol.info, Symbol.other, Symbol.shndx,
    Rel.offset, Rel.info, Rel.added,
    Dyn.ptr, Dyn.tag, Dyn.val,
    Note.namesz, Note.descsz, Note.type,
    get_word.

Ltac unfold_setters :=
  unfold header_set, ph_set, sym_set, rel_set, dyn_set, note_set,
    ELFHeader.set_type, ELFHeader.set_machine, ELFHeader.set_version,
    ELFHeader.set_entry, ELFHeader.set_phoff, ELFHeader.set_shoff,
    ELFHeader.set_flags, ELFHeader.set_ehsize, ELFHeader.set_phentsize,
    ELFHeader.set_phnum, ELFHeader.set_shentsize, ELFHeader.set_shnum,
    ELFHeader.set_shstrndx,
    ProgramHeader.set_type, ProgramHeader.set_flags, ProgramHeader.set_offset,
    ProgramHeader.set_vaddr, ProgramHeader.set_paddr, ProgramHeader.set_filesz,
    ProgramHeader.set_memsz, ProgramHeader.set_align,
    Symbol.set_name, Symbol.set_value, Symbol.set_size, Symbol.set_info,
    Symbol.set_other, Symbol.set_shndx,
    Rel.set_offset, Rel.set_info, Rel.set_added,
    Dyn.set_ptr, Dyn.set_tag, Dyn.set_val,
    Note.set_namesz, Note.set_descsz, Note.set_type,
    set_word.

Lemma decode_byte le l : decode le (take 1 l) = decode true (take 1 l).
Proof. destruct l as [|b l]; destruct le; reflexivity. Qed.

Ltac solve_read :=
  unfold spec_read, getUint8, getUint16, getUint32, getBigUint64, getUint;
  cbn [off32 off64 field_width width_bytes];
  repeat match goal with
         | |- context [(?a <=? length ?l)%nat] =>
             destruct (Nat.leb_spec a (length l)); cbn [bind]; try reflexivity; try lia
         end;
  try (rewrite (decode_byte false); reflexivity).

Lemma header_get_spec (this : ELFHeader) (h : heap) (f : header_field) :
  header_get f this h =
  spec_read (contents h (view this))
    (spec_is32bit (contents h (view this))) (spec_isLE (contents h (view this)))
    (spec_header_layout f).
Proof.
  destruct f; unfold_getters; rewrite ?header_is32bit, ?header_isLE.
  all: destruct (Nat.leb_spec 9 (length (contents h (view this)))) as [Hle|Hlt];
    cbn [bind spec_header_layout];
    destruct (spec_is32bit _), (spec_isLE _); solve_read.
Qed.

Ltac solve_element_read :=
  unfold_getters; unfold spec_read_element;
  cbn [is32bit isLE Element_element Rel.element];
  match goal with |- context [elf ?t] => destruct (elf t) as [e|]; [| reflexivity] end;
  rewrite ?header_is32bit, ?header_isLE; unfold view;
  cbn [el_buffer ELFHeader.element Element_element Rel.element];
  match goal with
  | |- context [(9 <=? length ?l)%nat] => destruct (Nat.leb_spec 9 (length l)); [| reflexivity]
  end;
  cbn [bind spec_ph_layout spec_sh_layout spec_sym_layout spec_rel_layout
         spec_dyn_layout spec_note_layout];
  destruct (spec_is32bit _), (spec_isLE _); solve_read.

Lemma ph_get_spec (this : ProgramHeader) (h : heap) (f : ph_field) :
  ph_get f this h = spec_read_element this (spec_ph_layout f) h.
Proof. destruct f; solve_element_read. Qed.

Lemma sh_get_spec (this : SectionHeader) (h : heap) (f : sh_field) :
  sh_get f this h = spec_read_element this (spec_sh_layout f) h.
Proof. destruct f; solve_element_read. Qed.

(** C5: every getter of the file header reads the bytes that the table of
    section 4.3 assigns to its field: the offset of the file's word width,
    the declared width (a native word being a number of 4 bytes in a 32-bit
    file and a bigint of 8 bytes otherwise), in the file's byte order.
    Both sides raise a RangeError when the bytes are not there. *)
Theorem C5_header_fields_follow_table (this : ELFHeader) (h : heap) (f : header_field) :
  header_get f this h =
  spec_read (contents h (view this))
    (spec_is32bit (contents h (view this))) (spec_isLE (contents h (view this)))
    (spec_header_layout f).
Proof.
  apply header_get_spec.
Qed.

(** C6: every getter of a program header reads the bytes that section 4.5
    assigns to its field, under the variant of the file it belongs to; the
    flags are the u32 at 0x18 in a 32-bit file and at 4 in a 64-bit file. *)
Theorem C6_program_header_fields_follow_table
    (this : ProgramHeader) (e : ELF_ref) (h : heap) (f : ph_field) :
  elf this = Some e ->
  (9 <= length (contents h (view (elf_header e))))%nat ->
  ph_get f this h =
  spec_read (contents h (view this))
    (spec_is32bit (contents h (view (elf_header e))))
    (spec_isLE (contents h (view (elf_header e))))
    (spec_ph_layout f)
  /\ spec_ph_layout p_flags = mkLayout 0x18 4 u32.
Proof.
  intros He Hlen. split; [| reflexivity].
  apply Nat.leb_le in Hlen.
  rewrite ph_get_spec. unfold spec_read_element, view in *.
  cbn [el_buffer ELFHeader.element Element_element] in *.
  by rewrite He, Hlen.
Qed.

(** ** Allocation leaves what exists alone *)

Lemma Buffer_from_eq b h :
  Buffer_from b h = (mkBuffer (length h) 0 (length (bytes_of b h)), h ++ [bytes_of b h]).
Proof. reflexivity. Qed.

Lemma contents_app_old (h k : heap) ab :
  (ab < length h)%nat -> contents (h ++ k) ab = contents h ab.
Proof. intros Hlt. unfold contents. by rewrite lookup_app_l. Qed.

Lemma bytes_of_app_old b (h k : heap) :
  (buffer b < length h)%nat -> bytes_of b (h ++ k) = bytes_of b h.
Proof. intros Hlt. unfold bytes_of. by rewrite contents_app_old. Qed.

Lemma header_get_app (this : ELFHeader) f (h k : heap) :
  (view this < length h)%nat -> header_get f this (h ++ k) = header_get f this h.
Proof. intros Hlt. rewrite !header_get_spec. by rewrite contents_app_old. Qed.

Lemma allocated_app this (h k : heap) : allocated this h -> allocated this (h ++ k).
Proof.
  intros [H1 H2]. split; [rewrite length_app; lia |].
  intros e He. specialize (H2 e He). rewrite length_app. lia.
Qed.

Lemma spec_read_element_app this l (h k : heap) :
  allocated this h -> spec_read_element this l (h ++ k) = spec_read_element this l h.
Proof.
  intros [H1 H2]. unfold spec_read_element.
  destruct (elf this) as [e|]; [| done].
  destruct (H2 e eq_refl) as [H3 _].
  rewrite !contents_app_old by done. done.
Qed.

Lemma sh_get_app (this : SectionHeader) f (h k : heap) :
  allocated this h -> sh_get f this (h ++ k) = sh_get f this h.
Proof. intros Ha. rewrite !sh_get_spec. by apply spec_read_element_app. Qed.

(** ** The table loop *)

Section walk.
Context {T : Type} (lt : Z -> bool) (step : Z) (src : Buffer) (mk : Buffer -> T).

Lemma idx_shift i j : idx step i (S j) = idx step (js_add i step) j.
Proof. induction j as [|j IH]; [done |]. cbn [idx] in *. by rewrite IH. Qed.

Lemma window_shift i (h : heap) bs j :
  (buffer src < length h)%nat ->
  window step src (js_add i step) (h ++ [bs]) j = window step src i h (S j).
Proof.
  intros Hlt. unfold window. rewrite <- idx_shift.
  apply bytes_of_app_old. by cbn.
Qed.

Lemma walked_S i (h : heap) n :
  (buffer src < length h)%nat ->
  let w := bytes_of (slice src i (js_add i step)) h in
  walked step src mk i h (S n) =
    mk (mkBuffer (length h) 0 (length w)) :: walked step src mk (js_add i step) (h ++ [w]) n
  /\ walked_heap step src i h (S n) = walked_heap step src (js_add i step) (h ++ [w]) n.
Proof.
  intros Hsrc w. unfold walked, walked_heap. cbn [seq map]. split.
  - f_equal; [by rewrite Nat.add_0_r |].
    rewrite <- fmap_S_seq.
    change (map ?f (S <$> ?l)) with (f <$> (S <$> l)).
    rewrite <- list_fmap_compose.
    apply list_fmap_ext. intros _ j _. cbv [compose].
    rewrite window_shift by done.
    rewrite length_app. cbn [length]. do 2 f_equal. lia.
  - rewrite <- app_assoc. f_equal. cbn [app]. f_equal.
    rewrite <- fmap_S_seq.
    change (map ?f (S <$> ?l)) with (f <$> (S <$> l)).
    rewrite <- list_fmap_compose.
    apply list_fmap_ext. intros _ j _. cbv [compose]. by rewrite window_shift.
Qed.

Lemma walked_0 i (h : heap) :
  walked step src mk i h 0 = [] /\ walked_heap step src i h 0 = h.
Proof. unfold walked, walked_heap. cbn. by rewrite app_nil_r. Qed.

(** [n] turns whose test succeeds followed by one whose test fails: the
    loop returns, having pushed [n] elements. *)
Lemma walk_returns n : forall fuel i result (h : heap),
  (buffer src < length h)%nat ->
  (forall j, (j < n)%nat -> lt (idx step i j) = true) ->
  lt (idx step i n) = false ->
  (n < fuel)%nat ->
  walk fuel lt step src mk i result h =
  Ok (result ++ walked step src mk i h n, walked_heap step src i h n).
Proof.
  induction n as [|n IH]; intros fuel i result h Hsrc Hlt Hstop Hfuel.
  - destruct fuel as [|fuel]; [lia |]. cbn [walk idx] in *. rewrite Hstop.
    destruct (walked_0 i h) as [-> ->]. by rewrite app_nil_r.
  - destruct fuel as [|fuel]; [lia |]. cbn [walk].
    pose proof (Hlt 0%nat ltac:(lia)) as H0. cbn [idx] in H0.
    rewrite H0, Buffer_from_eq.
    rewrite IH; [| rewrite length_app; lia | | by rewrite <- idx_shift | lia].
    2: { intros j Hj. rewrite <- idx_shift. apply Hlt. lia. }
    destruct (walked_S i h n Hsrc) as [-> ->].
    by rewrite <- app_assoc.
Qed.

(** Whenever the loop returns, it has made some number [n] of turns. *)
Lemma walk_inv fuel : forall i result (h : heap) res h',
  (buffer src < length h)%nat ->
  walk fuel lt step src mk i result h = Ok (res, h') ->
  exists n, res = result ++ walked step src mk i h n /\
            h' = walked_heap step src i h n.
Proof.
  induction fuel as [|fuel IH]; intros i result h res h' Hsrc Hw; [done |].
  cbn [walk] in Hw. destruct (lt i).
  - rewrite Buffer_from_eq in Hw.
    apply IH in Hw as (n & -> & ->); [| rewrite length_app; lia].
    exists (S n). destruct (walked_S i h n Hsrc) as [-> ->].
    by rewrite <- app_assoc.
  - injection Hw as <- <-. exists 0%nat.
    destruct (walked_0 i h) as [-> ->]. by rewrite app_nil_r.
Qed.

(** The loop itself never throws: [slice] clamps and [Buffer.from] copies
    whatever is left. *)
Lemma walk_no_throw fuel : forall i result (h : heap) e,
  walk fuel lt step src mk i result h <> Throw e.
Proof.
  induction fuel as [|fuel IH]; intros i result h e; [done |].
  cbn [walk]. destruct (lt i); [| done].
  rewrite Buffer_from_eq. apply IH.
Qed.

(** A test that never fails: the loop runs out of any amount of fuel. *)
Lemma walk_diverges fuel : forall i result (h : heap),
  (forall j, lt (idx step i j) = true) ->
  walk fuel lt step src mk i result h = OutOfFuel.
Proof.
  induction fuel as [|fuel IH]; intros i result h Hlt; [done |].
  cbn [walk]. pose proof (Hlt 0%nat) as H0. cbn [idx] in H0.
  rewrite H0, Buffer_from_eq.
  apply IH. intros j. rewrite <- idx_shift. apply Hlt.
Qed.

Lemma length_walked i (h : heap) n : length (walked step src mk i h n) = n.
Proof. unfold walked. by rewrite length_map, length_seq. Qed.

Lemma length_walked_heap i (h : heap) n :
  length (walked_heap step src i h n) = (length h + n)%nat.
Proof. unfold walked_heap. by rewrite length_app, length_map, length_seq. Qed.

Lemma walked_lookup i (h : heap) n j :
  (j < n)%nat ->
  walked step src mk i h n !! j =
  Some (mk (mkBuffer (length h + j) 0 (length (window step src i h j)))).
Proof.
  intros Hj. unfold walked.
  change (map ?f ?l) with (f <$> l).
  rewrite list_lookup_fmap, lookup_seq_lt by done. done.
Qed.

Lemma walked_heap_old i (h : heap) n ab :
  (ab < length h)%nat -> contents (walked_heap step src i h n) ab = contents h ab.
Proof. intros Hlt. by apply contents_app_old. Qed.

Lemma walked_heap_new i (h : heap) n j :
  (j < n)%nat ->
  contents (walked_heap step src i h n) (length h + j) = window step src i h j.
Proof.
  intros Hj. unfold walked_heap, contents.
  rewrite lookup_app_r by lia.
  replace (length h + j - length h)%nat with j by lia.
  change (map ?f ?l) with (f <$> l).
  rewrite list_lookup_fmap, lookup_seq_lt by done. done.
Qed.
End walk.

(** ** Number arithmetic on integers *)

Lemma rnd53_exact z : z <= 2 ^ 53 -> rnd53 z = z.
Proof.
  intros Hz. unfold rnd53. destruct (Z.ltb_spec z (2 ^ 53)) as [|Hge]; [done |].
  assert (z = 2 ^ 53) as -> by lia. reflexivity.
Qed.

Lemma rnd53_large z : 2 ^ 53 <= z -> 2 ^ 53 <= rnd53 z.
Proof.
  intros Hz. unfold rnd53. destruct (Z.ltb_spec z (2 ^ 53)) as [|_]; [lia |].
  assert (Hl : 53 <= Z.log2 z) by (apply Z.log2_le_pow2; lia).
  set (e := Z.log2 z - 52). assert (He : 1 <= e) by lia.
  assert (Hp : 2 <= 2 ^ e).
  { change 2 with (2 ^ 1) at 1. apply Z.pow_le_mono_r; lia. }
  assert (Hq : 2 ^ 52 <= z / 2 ^ e).
  { apply Z.div_le_lower_bound; [lia |].
    rewrite Z.mul_comm, <- Z.pow_add_r by lia.
    replace (52 + e) with (Z.log2 z) by lia.
    apply Z.log2_spec. lia. }
  assert (Hm : 2 ^ 53 <= z / 2 ^ e * 2 ^ e).
  { change (2 ^ 53) with (2 ^ 52 * 2). apply Z.mul_le_mono_nonneg; lia. }
  repeat case_match; lia.
Qed.

Lemma js_add_exact a b : a + b <= 2 ^ 53 -> js_add a b = a + b.
Proof. apply rnd53_exact. Qed.

Lemma js_mul_exact a b : a * b <= 2 ^ 53 -> js_mul a b = a * b.
Proof. apply rnd53_exact. Qed.

Lemma idx_exact step i j :
  0 <= step -> i + Z.of_nat j * step <= 2 ^ 53 -> idx step i j = i + Z.of_nat j * step.
Proof.
  intros Hs. induction j as [|j IH]; intros Hb; cbn [idx]; [lia |].
  rewrite IH by nia. rewrite js_add_exact by nia. lia.
Qed.

(** ** The loops of [getData] and [FromBuffer] are table loops *)

Lemma getData_loop_walk {T} (elfElement : ELFElementConstructor T)
    (this : SectionHeader) value szv esv fuel : forall i result (h : heap),
  allocated this h ->
  SectionHeader.size this h = Ok szv ->
  SectionHeader.entsize this h = Ok esv ->
  SectionHeader.getData_loop fuel elfElement this value i result h =
  walk fuel (fun i => js_lt i szv) (Number esv) value
    (fun b => FromBuffer elfElement b (elf this)) i result h.
Proof.
  induction fuel as [|fuel IH]; intros i result h Ha Hsz Hes; [done |].
  cbn [SectionHeader.getData_loop walk]. rewrite Hsz. cbn [bind].
  destruct (js_lt i szv); [| done].
  rewrite Hes. cbn [bind]. rewrite Buffer_from_eq.
  change (SectionHeader.entsize this) with (sh_get sh_entsize this) in *.
  change (SectionHeader.size this) with (sh_get sh_size this) in *.
  rewrite sh_get_app, Hes by done. cbn [bind].
  apply IH; [by apply allocated_app | |];
    change (SectionHeader.entsize this) with (sh_get sh_entsize this);
    change (SectionHeader.size this) with (sh_get sh_size this);
    by rewrite sh_get_app.
Qed.

Lemma sh_loop_walk buffer header elf shoff shnum shentsize fuel :
  forall i result (h : heap),
  (view header < length h)%nat ->
  ELFHeader.shoff header h = Ok shoff ->
  ELFHeader.shnum header h = Ok shnum ->
  ELFHeader.shentsize header h = Ok shentsize ->
  ELF.sh_loop fuel buffer header elf i result h =
  walk fuel (fun i => i <? js_add (Number shoff) (js_mul (Number shnum) (Number shentsize)))
    (Number shentsize) buffer (fun b => SectionHeader.FromBuffer b (Some elf)) i result h.
Proof.
  induction fuel as [|fuel IH]; intros i result h Ha Hoff Hnum Hes; [done |].
  cbn [ELF.sh_loop walk]. rewrite Hoff, Hnum, Hes. cbn [bind].
  case_match; [| done].
  rewrite Buffer_from_eq.
  change (ELFHeader.shentsize header) with (header_get e_shentsize header) in *.
  change (ELFHeader.shnum header) with (header_get e_shnum header) in *.
  change (ELFHeader.shoff header) with (header_get e_shoff header) in *.
  rewrite header_get_app, Hes by done. cbn [bind].
  apply IH; [rewrite length_app; lia | | |];
    change (ELFHeader.shentsize header) with (header_get e_shentsize header);
    change (ELFHeader.shnum header) with (header_get e_shnum header);
    change (ELFHeader.shoff header) with (header_get e_shoff header);
    by rewrite header_get_app.
Qed.

Lemma ph_loop_walk buffer header elf phoff phnum phentsize fuel :
  forall i result (h : heap),
  (view header < length h)%nat ->
  ELFHeader.phoff header h = Ok phoff ->
  ELFHeader.phnum header h = Ok phnum ->
  ELFHeader.phentsize header h = Ok phentsize ->
  ELF.ph_loop fuel buffer header elf i result h =
  walk fuel (fun i => i <? js_add (Number phoff) (js_mul (Number phnum) (Number phentsize)))
    (Number phentsize) buffer (fun b => ProgramHeader.FromBuffer b (Some elf)) i result h.
Proof.
  induction fuel as [|fuel IH]; intros i result h Ha Hoff Hnum Hes; [done |].
  cbn [ELF.ph_loop walk]. rewrite Hoff, Hnum, Hes. cbn [bind].
  case_match; [| done].
  rewrite Buffer_from_eq.
  change (ELFHeader.phentsize header) with (header_get e_phentsize header) in *.
  change (ELFHeader.phnum header) with (header_get e_phnum header) in *.
  change (ELFHeader.phoff header) with (header_get e_phoff header) in *.
  rewrite header_get_app, Hes by done. cbn [bind].
  apply IH; [rewrite length_app; lia | | |];
    change (ELFHeader.phentsize header) with (header_get e_phentsize header);
    change (ELFHeader.phnum header) with (header_get e_phnum header);
    change (ELFHeader.phoff header) with (header_get e_phoff header);
    by rewrite header_get_app.
Qed.

(** ** Slices *)

Lemma well_formed_from_ArrayBuffer ab (h : heap) : well_formed (Buffer_from_ArrayBuffer ab h) h.
Proof. unfold well_formed. cbn. lia. Qed.

Lemma ToInt32_small x : 0 <= x < 2 ^ 31 -> ToInt32 x = x.
Proof. intros Hx. unfold ToInt32. rewrite Z.mod_small; lia. Qed.

(** A slice holds the bytes of its source between the two indices, as far
    as the source reaches, when the indices are below 2^31. *)
Lemma bytes_of_slice src (h : heap) a b :
  well_formed src h -> 0 <= a < 2 ^ 31 -> 0 <= b < 2 ^ 31 ->
  bytes_of (slice src a b) h =
  take (Z.to_nat (b - a)) (drop (Z.to_nat a) (bytes_of src h)).
Proof.
  intros Hwf Ha Hb. unfold bytes_of, slice, adjustOffset, well_formed in *.
  rewrite !ToInt32_small by done.
  cbn [buffer byteOffset byteLength].
  rewrite (proj2 (Z.ltb_ge a 0)), (proj2 (Z.ltb_ge b 0)) by lia.
  apply list_eq; intros i.
  rewrite !lookup_take, !lookup_drop, lookup_take, lookup_drop.
  repeat case_decide; try lia; try done.
  f_equal. lia.
Qed.

(** ** Numeric values *)

Lemma spec_read_numeric bs is32 le l v :
  spec_read bs is32 le l = Ok v -> numeric v /\ 0 <= raw v.
Proof.
  unfold spec_read. case_match; [| done]. intros [= <-].
  pose proof (decode_range le
    (take (width_bytes is32 (field_width l)) (drop (if is32 then off32 l else off64 l) bs))).
  unfold numeric. destruct (field_width l), is32; cbn [raw]; split; auto; lia.
Qed.

Lemma header_get_numeric this f h v :
  header_get f this h = Ok v -> numeric v /\ 0 <= raw v.
Proof. rewrite header_get_spec. apply spec_read_numeric. Qed.

Lemma spec_read_element_numeric this l h v :
  spec_read_element this l h = Ok v -> numeric v /\ 0 <= raw v.
Proof.
  unfold spec_read_element. destruct (elf this); [| done].
  case_match; [| done]. apply spec_read_numeric.
Qed.

Lemma sh_get_numeric this f h v :
  sh_get f this h = Ok v -> numeric v /\ 0 <= raw v.
Proof. rewrite sh_get_spec. apply spec_read_element_numeric. Qed.

Lemma spec_read_fixed bs is32 le l v :
  field_width l <> nativeWord -> spec_read bs is32 le l = Ok v ->
  v = Num (raw v) /\ 0 <= raw v < 256 ^ Z.of_nat (width_bytes is32 (field_width l)).
Proof.
  unfold spec_read. intros Hw. case_match eqn:E; [| done]. intros [= <-].
  apply Nat.leb_le in E.
  pose proof (decode_range le
    (take (width_bytes is32 (field_width l)) (drop (if is32 then off32 l else off64 l) bs))) as Hr.
  rewrite length_take, length_drop in Hr.
  rewrite Nat.min_l in Hr by lia.
  destruct (field_width l); done.
Qed.

Lemma header_get_u16 this f h v :
  field_width (spec_header_layout f) = u16 ->
  header_get f this h = Ok v -> v = Num (raw v) /\ 0 <= raw v < 65536.
Proof.
  rewrite header_get_spec. intros Hw Hr.
  apply spec_read_fixed in Hr; [| by rewrite Hw].
  by rewrite Hw in Hr.
Qed.

Lemma Number_Num v : v = Num (raw v) -> Number v = raw v.
Proof. by intros ->. Qed.

Lemma Number_exact v : numeric v -> raw v <= 2 ^ 53 -> Number v = raw v.
Proof.
  intros [Hv|Hv] Hr; rewrite Hv; cbn [Number raw]; [done |].
  by apply rnd53_exact.
Qed.

Lemma js_lt_raw i v : numeric v -> js_lt i v = (i <? raw v).
Proof. intros [Hv|Hv]; rewrite Hv; reflexivity. Qed.

(** ** Turns of a table loop within the safe integers *)

Lemma table_turns off N s :
  0 <= off -> 0 <= N -> 0 <= s -> off + N * s <= 2 ^ 53 ->
  let bound := js_add off (js_mul N s) in
  let n := table_count N s in
  (forall j, (j <= n)%nat -> idx s off j = off + Z.of_nat j * s) /\
  (forall j, (j < n)%nat -> (idx s off j <? bound) = true) /\
  (idx s off n <? bound) = false.
Proof.
  intros Hoff HN Hs Hb bound n.
  assert (Hbound : bound = off + N * s).
  { unfold bound. rewrite js_mul_exact by nia. apply js_add_exact. lia. }
  assert (Hn : Z.of_nat n * s = N * s).
  { unfold n, table_count. destruct (Z.eqb_spec s 0) as [->|]; [lia |].
    rewrite Z2Nat.id by lia. done. }
  assert (Hidx : forall j, (j <= n)%nat -> idx s off j = off + Z.of_nat j * s).
  { intros j Hj. apply idx_exact; [done |]. nia. }
  split; [done |]. split.
  - intros j Hj. rewrite Hidx by lia. apply Z.ltb_lt. rewrite Hbound.
    unfold n, table_count in *. destruct (Z.eqb_spec s 0); [lia |]. nia.
  - rewrite Hidx by lia. apply Z.ltb_ge. lia.
Qed.

(** ** Decoding a file *)

Lemma FromBuffer_spec fuel ab (h : heap) shoff shnum shentsize phoff phnum phentsize :
  let buf := Buffer_from_ArrayBuffer ab h in
  let header := ELFHeader.FromBuffer buf in
  let elf := mkELF_ref buf header in
  let n1 := table_count (raw shnum) (raw shentsize) in
  let h1 := walked_heap (raw shentsize) buf (raw shoff) h n1 in
  let n2 := table_count (raw phnum) (raw phentsize) in
  (ab < length h)%nat ->
  ELFHeader.shoff header h = Ok shoff ->
  ELFHeader.shnum header h = Ok shnum ->
  ELFHeader.shentsize header h = Ok shentsize ->
  ELFHeader.phoff header h = Ok phoff ->
  ELFHeader.phnum header h = Ok phnum ->
  ELFHeader.phentsize header h = Ok phentsize ->
  raw shoff + raw shnum * raw shentsize <= 2 ^ 53 ->
  raw phoff + raw phnum * raw phentsize <= 2 ^ 53 ->
  (n1 < fuel)%nat -> (n2 < fuel)%nat ->
  ELF.FromBuffer fuel ab h =
  Ok (mkELF elf
        (walked (raw shentsize) buf (fun b => SectionHeader.FromBuffer b (Some elf))
           (raw shoff) h n1)
        (walked (raw phentsize) buf (fun b => ProgramHeader.FromBuffer b (Some elf))
           (raw phoff) h1 n2),
      walked_heap (raw phentsize) buf (raw phoff) h1 n2).
Proof.
  intros buf header elf n1 h1 n2 Hab Hso Hsn Hse Hpo Hpn Hpe Hsb Hpb Hf1 Hf2.
  destruct (header_get_numeric header e_shoff h _ Hso) as [Nso Pso].
  destruct (header_get_u16 header e_shnum h _ eq_refl Hsn) as [Nsn Psn].
  destruct (header_get_u16 header e_shentsize h _ eq_refl Hse) as [Nse Pse].
  destruct (header_get_numeric header e_phoff h _ Hpo) as [Npo Ppo].
  destruct (header_get_u16 header e_phnum h _ eq_refl Hpn) as [Npn Ppn].
  destruct (header_get_u16 header e_phentsize h _ eq_refl Hpe) as [Npe Ppe].
  assert (Eso : Number shoff = raw shoff) by (apply Number_exact; [done | nia]).
  assert (Epo : Number phoff = raw phoff) by (apply Number_exact; [done | nia]).
  pose proof (Number_Num _ Nsn) as Esn. pose proof (Number_Num _ Nse) as Ese.
  pose proof (Number_Num _ Npn) as Epn. pose proof (Number_Num _ Npe) as Epe.
  assert (Hh1 : forall f, header_get f header h1 = header_get f header h).
  { intros f. unfold h1, walked_heap. by apply header_get_app. }
  unfold ELF.FromBuffer. fold buf header elf.
  rewrite Hso. cbn [bind].
  rewrite (sh_loop_walk _ _ _ shoff shnum shentsize) by done.
  rewrite Eso, Esn, Ese.
  destruct (table_turns (raw shoff) (raw shnum) (raw shentsize)) as (_ & Ht1 & Hs1);
    [lia .. |].
  assert (Hab0 : (buffer buf < length h)%nat) by done.
  rewrite (walk_returns _ _ buf _ n1 fuel _ _ _ Hab0 Ht1 Hs1 Hf1). cbn [bind app]. fold h1.
  change (ELFHeader.phoff header) with (header_get e_phoff header).
  rewrite Hh1. change (header_get e_phoff header h) with (ELFHeader.phoff header h).
  rewrite Hpo. cbn [bind].
  rewrite (ph_loop_walk _ _ _ phoff phnum phentsize);
    [| unfold h1; rewrite length_walked_heap; cbn; lia
     | change (ELFHeader.phoff header) with (header_get e_phoff header); by rewrite Hh1
     | change (ELFHeader.phnum header) with (header_get e_phnum header); by rewrite Hh1
     | change (ELFHeader.phentsize header) with (header_get e_phentsize header); by rewrite Hh1].
  rewrite Epo, Epn, Epe.
  destruct (table_turns (raw phoff) (raw phnum) (raw phentsize)) as (_ & Ht2 & Hs2);
    [lia .. |].
  assert (Hab1 : (buffer buf < length h1)%nat).
  { unfold h1. rewrite length_walked_heap. cbn. lia. }
  by rewrite (walk_returns _ _ buf _ n2 fuel _ _ _ Hab1 Ht2 Hs2 Hf2).
Qed.

(** The bytes copied at turn [j] of a table loop over a whole ArrayBuffer,
    within the safe integers and for a window that ends below 2^31: the
    entry window, cut at the end. *)
Lemma window_table ab (h k : heap) off N s j :
  (ab < length h)%nat ->
  0 <= off -> 0 <= N -> 0 <= s -> off + N * s <= 2 ^ 53 ->
  (j < table_count N s)%nat ->
  off + (Z.of_nat j + 1) * s < 2 ^ 31 ->
  window s (Buffer_from_ArrayBuffer ab h) off (h ++ k) j =
  take (Z.to_nat s) (drop (Z.to_nat (off + Z.of_nat j * s)) (contents h ab)).
Proof.
  intros Hab Hoff HN Hs Hb Hj Hend.
  destruct (table_turns off N s Hoff HN Hs Hb) as (Hidx & _ & _).
  unfold window. rewrite bytes_of_app_old by done.
  rewrite (Hidx j) by lia.
  assert (Hnext : js_add (off + Z.of_nat j * s) s = off + Z.of_nat (S j) * s).
  { rewrite <- (Hidx j), <- (Hidx (S j)) by lia. done. }
  rewrite Hnext.
  rewrite bytes_of_slice; [| apply well_formed_from_ArrayBuffer | nia | nia].
  replace (off + Z.of_nat (S j) * s - (off + Z.of_nat j * s)) with s by lia.
  do 2 f_equal. unfold bytes_of. cbn [byteOffset byteLength buffer Buffer_from_ArrayBuffer].
  rewrite drop_0. by apply take_ge.
Qed.

(** The bytes of the [j]-th element of a walk, in any store that extends
    the one the walk left. *)
Lemma walked_element_bytes step src i (h k : heap) n j :
  (j < n)%nat ->
  let b := mkBuffer (length h + j) 0 (length (window step src i h j)) in
  bytes_of b (walked_heap step src i h n ++ k) = window step src i h j.
Proof.
  intros Hj b. unfold bytes_of, b. cbn [buffer byteOffset byteLength].
  rewrite contents_app_old by (rewrite length_walked_heap; lia).
  rewrite walked_heap_new by done.
  rewrite drop_0. by apply take_ge.
Qed.

(** C8 (amended): within the safe integers, walking a table with entry
    count [N] and entry size [s] yields [N] elements when [s] is positive
    and none when [s] is zero ([table_count]); the [j]-th element holds a
    copy of bytes [off + j*s, off + (j+1)*s) of the file, as far as the
    file reaches, in order (for a window that ends below 2^31, where
    [slice] takes its indices as they are). *)
Theorem C8_table_walk_elements fuel ab (h : heap)
    shoff shnum shentsize phoff phnum phentsize :
  let header := ELFHeader.FromBuffer (Buffer_from_ArrayBuffer ab h) in
  (ab < length h)%nat ->
  ELFHeader.shoff header h = Ok shoff ->
  ELFHeader.shnum header h = Ok shnum ->
  ELFHeader.shentsize header h = Ok shentsize ->
  ELFHeader.phoff header h = Ok phoff ->
  ELFHeader.phnum header h = Ok phnum ->
  ELFHeader.phentsize header h = Ok phentsize ->
  raw shoff + raw shnum * raw shentsize <= 2 ^ 53 ->
  raw phoff + raw phnum * raw phentsize <= 2 ^ 53 ->
  (table_count (raw shnum) (raw shentsize) < fuel)%nat ->
  (table_count (raw phnum) (raw phentsize) < fuel)%nat ->
  exists elf h',
    ELF.FromBuffer fuel ab h = Ok (elf, h') /\
    length (sectionHeaders elf) = table_count (raw shnum) (raw shentsize) /\
    length (programHeaders elf) = table_count (raw phnum) (raw phentsize) /\
    (forall j sh, sectionHeaders elf !! j = Some sh ->
       raw shoff + (Z.of_nat j + 1) * raw shentsize < 2 ^ 31 ->
       bytes_of (element_buffer sh) h' =
       take (Z.to_nat (raw shentsize))
         (drop (Z.to_nat (raw shoff + Z.of_nat j * raw shentsize)) (contents h ab))) /\
    (forall j ph, programHeaders elf !! j = Some ph ->
       raw phoff + (Z.of_nat j + 1) * raw phentsize < 2 ^ 31 ->
       bytes_of (element_buffer ph) h' =
       take (Z.to_nat (raw phentsize))
         (drop (Z.to_nat (raw phoff + Z.of_nat j * raw phentsize)) (contents h ab))).
Proof.
  intros header Hab Hso Hsn Hse Hpo Hpn Hpe Hsb Hpb Hf1 Hf2.
  destruct (header_get_numeric header e_shoff h _ Hso) as [_ Pso].
  destruct (header_get_u16 header e_shnum h _ eq_refl Hsn) as [_ Psn].
  destruct (header_get_u16 header e_shentsize h _ eq_refl Hse) as [_ Pse].
  destruct (header_get_numeric header e_phoff h _ Hpo) as [_ Ppo].
  destruct (header_get_u16 header e_phnum h _ eq_refl Hpn) as [_ Ppn].
  destruct (header_get_u16 header e_phentsize h _ eq_refl Hpe) as [_ Ppe].
  eexists _, _. split; [by eapply FromBuffer_spec |].
  cbn [sectionHeaders programHeaders].
  rewrite !length_walked. split; [done |]. split; [done |]. split.
  - intros j sh Hj Hend.
    assert (Hlt : (j < table_count (raw shnum) (raw shentsize))%nat).
    { apply lookup_lt_Some in Hj. by rewrite length_walked in Hj. }
    rewrite walked_lookup in Hj by done. injection Hj as <-.
    cbn [SectionHeader.FromBuffer element_buffer].
    unfold walked_heap at 1.
    rewrite walked_element_bytes by done.
    rewrite <- (app_nil_r h) at 2. apply (window_table _ _ _ _ (raw shnum)); lia.
  - intros j ph Hj Hend.
    assert (Hlt : (j < table_count (raw phnum) (raw phentsize))%nat).
    { apply lookup_lt_Some in Hj. by rewrite length_walked in Hj. }
    rewrite walked_lookup in Hj by done. injection Hj as <-.
    cbn [ProgramHeader.FromBuffer element_buffer].
    rewrite <- (app_nil_r (walked_heap (raw phentsize) _ _ _ _)).
    rewrite walked_element_bytes by done.
    unfold walked_heap at 1.
    apply (window_table _ _ _ _ (raw phnum)); lia.
Qed.

(** ** Record extraction *)

Lemma rnd53_ge c z : c <= 2 ^ 53 -> c <= z -> c <= rnd53 z.
Proof.
  intros Hc Hz. destruct (Z.le_gt_cases z (2 ^ 53)) as [Hle|Hgt].
  - by rewrite rnd53_exact.
  - pose proof (rnd53_large z). lia.
Qed.

Lemma Number_ge c v : numeric v -> c <= 2 ^ 53 -> c <= raw v -> c <= Number v.
Proof.
  intros [Hv|Hv] Hc Hr; rewrite Hv; cbn [Number]; [done |]. by apply rnd53_ge.
Qed.

(** Once the guards are passed and the fields are read, [getData] is a
    table loop over the content window. *)
Lemma getData_walk {T} (elfElement : ELFElementConstructor T)
    (this : SectionHeader) e ov szv esv tv fuel (h : heap) :
  allocated this h ->
  elf this = Some e ->
  SectionHeader.offset this h = Ok ov ->
  SectionHeader.size this h = Ok szv ->
  SectionHeader.entsize this h = Ok esv ->
  SectionHeader.type this h = Ok tv ->
  includes (SH_TYPES elfElement) tv = true ->
  SectionHeader.getData fuel elfElement this h =
  walk fuel (fun i => js_lt i szv) (Number esv)
    (slice (elf_buffer e) (Number ov) (js_add (Number ov) (Number szv)))
    (fun b => FromBuffer elfElement b (elf this)) 0 [] h.
Proof.
  intros Ha He Ho Hsz Hes Hty Hin.
  unfold SectionHeader.getData, SectionHeader.value.
  rewrite He, Ho, Hsz, Hty. cbn [bind]. rewrite Hin. cbn [negb].
  rewrite <- He. by apply getData_loop_walk.
Qed.

(** The turns of the extraction loop for a size within the safe integers
    and a positive entry size. *)
Lemma getData_turns szv esv :
  numeric szv -> numeric esv ->
  0 <= raw szv <= 2 ^ 53 -> 0 < raw esv ->
  let n := Z.to_nat ((raw szv + raw esv - 1) / raw esv) in
  (forall j, (j < n)%nat -> js_lt (idx (Number esv) 0 j) szv = true) /\
  js_lt (idx (Number esv) 0 n) szv = false.
Proof.
  intros Nsz Nes Hsz Hes n.
  set (sz := raw szv) in *. set (es := raw esv) in *.
  set (q := (sz + es - 1) / es) in *.
  pose proof (Z.div_mod (sz + es - 1) es ltac:(lia)) as Hdm.
  pose proof (Z.mod_pos_bound (sz + es - 1) es Hes) as Hr.
  fold q in Hdm.
  assert (Hq0 : 0 <= q) by (apply Z.div_pos; lia).
  assert (Hqn : Z.of_nat n = q) by (unfold n; lia).
  assert (Hup : sz <= q * es) by lia.
  assert (Hlo : (q - 1) * es < sz) by lia.
  destruct (Z.le_gt_cases sz es) as [Hbig|Hsmall].
  - (* at most one turn *)
    assert (HE : sz <= Number esv) by (apply Number_ge; [done | lia | done]).
    destruct (Z.eq_dec sz 0) as [Hz|Hnz].
    + assert (q = 0) by nia. assert (n = 0%nat) as -> by lia.
      split; [lia |]. cbn [idx]. rewrite js_lt_raw by done. apply Z.ltb_ge. fold sz. lia.
    + assert (q = 1) by nia. assert (n = 1%nat) as -> by lia.
      split.
      * intros j Hj. assert (j = 0%nat) as -> by lia. cbn [idx].
        rewrite js_lt_raw by done. apply Z.ltb_lt. fold sz. lia.
      * cbn [idx]. rewrite js_lt_raw by done. apply Z.ltb_ge. fold sz.
        unfold js_add. apply rnd53_ge; lia.
  - (* the entry size is below the size, hence exact *)
    assert (HE : Number esv = es) by (apply Number_exact; [done | fold es; lia]).
    rewrite HE.
    assert (Hidx : forall j, (j < n)%nat -> idx es 0 j = Z.of_nat j * es).
    { intros j Hj. rewrite idx_exact; [lia | lia | nia]. }
    split.
    + intros j Hj. rewrite Hidx by done. rewrite js_lt_raw by done.
      apply Z.ltb_lt. fold sz. nia.
    + assert (1 <= q) by nia.
      destruct n as [|m]; [lia |]. cbn [idx]. rewrite Hidx by lia.
      rewrite js_lt_raw by done. apply Z.ltb_ge. fold sz.
      unfold js_add. apply rnd53_ge; [lia | nia].
Qed.

Lemma idx_zero j : idx 0 0 j = 0.
Proof. induction j as [|j IH]; [done |]. cbn [idx]. by rewrite IH. Qed.

Lemma Number_zero v : numeric v -> raw v = 0 -> Number v = 0.
Proof. intros Hv Hr. rewrite Number_exact by (done || lia). done. Qed.

Lemma spec_read_not_OutOfFuel bs is32 le l : spec_read bs is32 le l <> OutOfFuel.
Proof. unfold spec_read. by case_match. Qed.

Lemma sh_get_not_OutOfFuel this f h : sh_get f this h <> OutOfFuel.
Proof.
  rewrite sh_get_spec. unfold spec_read_element.
  destruct (elf this); [| done]. case_match; [| done]. apply spec_read_not_OutOfFuel.
Qed.

Lemma sh_get_Ok_elf this f h v : sh_get f this h = Ok v -> exists e, elf this = Some e.
Proof.
  rewrite sh_get_spec. unfold spec_read_element.
  destruct (elf this) as [e|]; [eauto | done].
Qed.

(** With a file behind the element, a getter fails with a RangeError only. *)
Lemma sh_get_Throw this e f (h : heap) err :
  elf this = Some e -> sh_get f this h = Throw err -> err = RangeError.
Proof.
  rewrite sh_get_spec. unfold spec_read_element, spec_read. intros ->.
  repeat case_match; congruence.
Qed.

(** The samples are what decoding produces. *)
Example decode_file32 :
  decode_sample file32 =
  Ok (mkELF sample_ref32 (map sample_section [0; 1; 2; 3]%nat) [], sample_heap32).
Proof. vm_compute. reflexivity. Qed.

Example decode_file64 :
  decode_sample file64 = Ok (mkELF sample_ref64 [] [sample_program], sample_heap64).
Proof. vm_compute. reflexivity. Qed.

(** The scenario of the specification: one program header of type 1 with
    offset 0x1000 and file size 0x200. *)
Example decode_file64_program :
  ProgramHeader.type sample_program sample_heap64 = Ok (Num 1) /\
  ProgramHeader.offset sample_program sample_heap64 = Ok (Big 0x1000) /\
  ProgramHeader.filesz sample_program sample_heap64 = Ok (Big 0x200).
Proof. vm_compute. auto. Qed.

(** C10 (amended): for a section whose offset, size and type are
    readable.  When the record kind accepts the type and the entry size is
    readable, extraction runs out of any amount of fuel when the size is
    positive and the entry size is zero, and returns with
    ceiling(size / entsize) records when the entry size is positive and
    the size is at most 2^53.  When the type is not accepted, extraction
    throws before the loop is entered, whatever size and entry size are.
    The entry size is first read inside the loop: with an accepted type
    and an unreadable entry size, extraction returns no record when the
    size is zero and throws a RangeError in the first turn when the size
    is positive.  And when the offset, the size or the type cannot be
    read, extraction throws before the loop. *)
Theorem C10_getData_termination {T} (elfElement : ELFElementConstructor T)
    (this : SectionHeader) (h : heap) :
  allocated this h ->
  (forall ov szv tv,
     SectionHeader.offset this h = Ok ov ->
     SectionHeader.size this h = Ok szv ->
     SectionHeader.type this h = Ok tv ->
     (includes (SH_TYPES elfElement) tv = true ->
      (forall esv, SectionHeader.entsize this h = Ok esv ->
         (0 < raw szv -> raw esv = 0 ->
          forall fuel, SectionHeader.getData fuel elfElement this h = OutOfFuel) /\
         (0 < raw esv -> raw szv <= 2 ^ 53 ->
          forall fuel, (Z.to_nat ((raw szv + raw esv - 1) / raw esv) < fuel)%nat ->
          exists recs h',
            SectionHeader.getData fuel elfElement this h = Ok (recs, h') /\
            Z.of_nat (length recs) = (raw szv + raw esv - 1) / raw esv)) /\
      (forall err, SectionHeader.entsize this h = Throw err ->
         (raw szv = 0 ->
          forall fuel, SectionHeader.getData (S fuel) elfElement this h = Ok ([], h)) /\
         (0 < raw szv ->
          forall fuel,
            SectionHeader.getData (S fuel) elfElement this h = Throw RangeError))) /\
     (includes (SH_TYPES elfElement) tv = false ->
      forall fuel, SectionHeader.getData fuel elfElement this h = Throw TypeError)) /\
  ((exists err, SectionHeader.offset this h = Throw err \/
                SectionHeader.size this h = Throw err \/
                SectionHeader.type this h = Throw err) ->
   exists err, forall fuel, SectionHeader.getData fuel elfElement this h = Throw err).
Proof.
  intros Ha. split.
  - intros ov szv tv Ho Hsz Hty.
    destruct (sh_get_Ok_elf this sh_offset h ov Ho) as [e He].
    destruct (sh_get_numeric this sh_size h szv Hsz) as [Nsz Psz].
    split.
    + intros Hin. split.
      * intros esv Hes.
        destruct (sh_get_numeric this sh_entsize h esv Hes) as [Nes Pes].
        pose proof (getData_walk elfElement this e ov szv esv tv) as Hw.
        split.
        -- intros Hpos Hzero fuel. rewrite (Hw fuel h) by done.
           apply walk_diverges. intros j.
           rewrite Number_zero, idx_zero, js_lt_raw by done. by apply Z.ltb_lt.
        -- intros Hpos Hsafe fuel Hfuel. rewrite (Hw fuel h) by done.
           destruct (getData_turns szv esv) as [Hturn Hstop]; [done | done | lia | done |].
           destruct Ha as [_ Ha]. destruct (Ha e He) as [_ Hb].
           erewrite walk_returns; [| exact Hb | exact Hturn | exact Hstop | exact Hfuel].
           eexists _, _. split; [reflexivity |].
           cbn [app]. rewrite length_walked.
           assert (0 <= (raw szv + raw esv - 1) / raw esv) by (apply Z.div_pos; lia).
           lia.
      * intros err Hes.
        assert (Herr : err = RangeError) by by apply (sh_get_Throw this e sh_entsize h).
        subst err.
        split; intros Hraw fuel; unfold SectionHeader.getData, SectionHeader.value;
          rewrite He, Ho, Hsz, Hty; cbn [bind]; rewrite Hin; cbn [negb];
          cbn [SectionHeader.getData_loop]; rewrite Hsz; cbn [bind];
          rewrite js_lt_raw by done.
        -- replace (0 <? raw szv) with false by (symmetry; apply Z.ltb_ge; lia). done.
        -- replace (0 <? raw szv) with true by (symmetry; by apply Z.ltb_lt).
           by rewrite Hes.
    + intros Hin fuel. unfold SectionHeader.getData, SectionHeader.value.
      rewrite He, Ho, Hsz, Hty. cbn [bind]. by rewrite Hin.
  - intros [err Herr]. unfold SectionHeader.getData, SectionHeader.value.
    pose proof (sh_get_not_OutOfFuel this sh_offset h) as No.
    pose proof (sh_get_not_OutOfFuel this sh_size h) as Ns.
    pose proof (sh_get_Ok_elf this sh_offset h) as Eo.
    pose proof (sh_get_Ok_elf this sh_size h) as Es.
    pose proof (sh_get_Ok_elf this sh_type_ h) as Et.
    cbn [sh_get] in No, Ns, Eo, Es, Et.
    destruct (elf this) as [e|] eqn:He; [| by exists TypeError].
    destruct (SectionHeader.offset this h) as [ov|eo|]; [| by exists eo | done].
    destruct (SectionHeader.size this h) as [szv|es|]; [| by exists es | done].
    destruct Herr as [?|[?|Hty]]; [done | done |].
    rewrite Hty. by exists err.
Qed.

(** C7 (amended): when the section's type is readable and is not among
    those the record kind declares, extraction fails and returns nothing.
    The error is the invalid-type TypeError exactly when the section's
    offset and size are readable; when one of them is not, the error is
    the RangeError of reading it, because [getData] evaluates
    [this.value] before it looks at the type.  The declared sets are those
    of the four record classes. *)
Theorem C7_getData_rejects_other_types {T} (elfElement : ELFElementConstructor T)
    (this : SectionHeader) (h : heap) tv fuel :
  SectionHeader.type this h = Ok tv ->
  includes (SH_TYPES elfElement) tv = false ->
  (exists e, SectionHeader.getData fuel elfElement this h = Throw e) /\
  (forall ov szv,
     SectionHeader.offset this h = Ok ov -> SectionHeader.size this h = Ok szv ->
     SectionHeader.getData fuel elfElement this h = Throw TypeError) /\
  ((exists ov szv, SectionHeader.offset this h = Ok ov /\ SectionHeader.size this h = Ok szv) \/
   (SectionHeader.offset this h = Throw RangeError \/
    SectionHeader.size this h = Throw RangeError) /\
   SectionHeader.getData fuel elfElement this h = Throw RangeError) /\
  (forall c,
     SH_TYPES (Symbol.constructor c) = [SYMTAB c; DYNSYM c] /\
     SH_TYPES (Rel.constructor c) = [REL c; RELA c] /\
     SH_TYPES (Dyn.constructor c) = [DYNAMIC c] /\
     SH_TYPES (Note.constructor c) = [NOTE c]).
Proof.
  intros Hty Hin.
  destruct (sh_get_Ok_elf this sh_type_ h tv Hty) as [e He].
  assert (Hboth : forall ov szv,
    SectionHeader.offset this h = Ok ov -> SectionHeader.size this h = Ok szv ->
    SectionHeader.getData fuel elfElement this h = Throw TypeError).
  { intros ov szv Ho Hsz. unfold SectionHeader.getData, SectionHeader.value.
    rewrite He, Ho, Hsz, Hty. cbn [bind]. by rewrite Hin. }
  pose proof (sh_get_not_OutOfFuel this sh_offset h) as No.
  pose proof (sh_get_not_OutOfFuel this sh_size h) as Ns.
  pose proof (sh_get_Throw this e sh_offset h) as To.
  pose proof (sh_get_Throw this e sh_size h) as Ts.
  cbn [sh_get] in No, Ns, To, Ts.
  assert (Hcases :
    (exists ov szv, SectionHeader.offset this h = Ok ov /\
                    SectionHeader.size this h = Ok szv) \/
    (SectionHeader.offset this h = Throw RangeError \/
     SectionHeader.size this h = Throw RangeError) /\
    SectionHeader.getData fuel elfElement this h = Throw RangeError).
  { unfold SectionHeader.getData, SectionHeader.value. rewrite He.
    destruct (SectionHeader.offset this h) as [ov|eo|]; [| | done].
    - destruct (SectionHeader.size this h) as [szv|es|]; [| | done].
      + left. eauto.
      + rewrite (Ts es He eq_refl). right. split; [by right | done].
    - rewrite (To eo He eq_refl). right. split; [by left | done]. }
  split; [| split; [exact Hboth | split; [exact Hcases | done]]].
  destruct Hcases as [(ov & szv & Ho & Hsz)|[_ Hr]]; [| eauto].
  exists TypeError. by apply (Hboth ov szv).
Qed.

Lemma sample_section_allocated j : (j < 4)%nat -> allocated (sample_section j) sample_heap32.
Proof.
  intros Hj. split; [cbn; lia |]. intros e [= <-]. cbn. lia.
Qed.

Lemma C10_getData_termination_witness :
  (forall fuel,
     SectionHeader.getData fuel (Symbol.constructor elf_sh_type)
       (sample_section 3) sample_heap32 = OutOfFuel) /\
  (exists recs h',
     SectionHeader.getData 10 (Symbol.constructor elf_sh_type)
       (sample_section 1) sample_heap32 = Ok (recs, h') /\
     Z.of_nat (length recs) = 2) /\
  (forall fuel,
     SectionHeader.getData fuel (Symbol.constructor elf_sh_type)
       (sample_section 0) sample_heap32 = Throw TypeError).
Proof.
  split; [| split].
  - destruct (C10_getData_termination (Symbol.constructor elf_sh_type)
                (sample_section 3) sample_heap32) as [Hr _];
      [apply sample_section_allocated; lia |].
    destruct (Hr (Num 212) (Num 16) (Num 2) eq_refl eq_refl eq_refl) as [Hacc _].
    destruct (Hacc eq_refl) as [Hes _].
    apply (Hes (Num 0) eq_refl); [cbn; lia | reflexivity].
  - destruct (C10_getData_termination (Symbol.constructor elf_sh_type)
                (sample_section 1) sample_heap32) as [Hr _];
      [apply sample_section_allocated; lia |].
    destruct (Hr (Num 212) (Num 32) (Num 2) eq_refl eq_refl eq_refl) as [Hacc _].
    destruct (Hacc eq_refl) as [Hes _].
    apply (proj2 (Hes (Num 16) eq_refl) ltac:(cbn; lia) ltac:(cbn; lia) 10%nat).
    vm_compute. lia.
  - destruct (C10_getData_termination (Symbol.constructor elf_sh_type)
                (sample_section 0) sample_heap32) as [Hr _];
      [apply sample_section_allocated; lia |].
    destruct (Hr (Num 212) (Num 16) (Num 0) eq_refl eq_refl eq_refl) as [_ Hrej].
    apply Hrej. reflexivity.
Defined.

(** Beyond 2^53 a positive entry size does not guarantee termination: with
    a size of 2^53 + 1 and an entry size of 1 the loop variable stays at
    2^53, because 2^53 + 1 is not a Number. *)
Lemma getData_stalls_beyond_safe_integers {T} (elfElement : ELFElementConstructor T)
    (this : SectionHeader) (h : heap) ov tv :
  allocated this h ->
  SectionHeader.offset this h = Ok ov ->
  SectionHeader.size this h = Ok (Big (2 ^ 53 + 1)) ->
  SectionHeader.entsize this h = Ok (Big 1) ->
  SectionHeader.type this h = Ok tv ->
  includes (SH_TYPES elfElement) tv = true ->
  forall fuel, SectionHeader.getData fuel elfElement this h = OutOfFuel.
Proof.
  intros Ha Ho Hsz Hes Hty Hin fuel.
  destruct (sh_get_Ok_elf this sh_offset h ov Ho) as [e He].
  rewrite (getData_walk elfElement this e ov _ _ tv fuel h) by done.
  apply walk_diverges.
  assert (Hidx : forall j, 0 <= idx 1 0 j <= 2 ^ 53).
  { induction j as [|j IH]; cbn [idx]; [lia |].
    destruct (Z.eq_dec (idx 1 0 j) (2 ^ 53)) as [->|Hne]; [vm_compute; split; discriminate |].
    rewrite js_add_exact by lia. lia. }
  intros j. change (Number (Big 1)) with 1. cbn [js_lt].
  apply Z.ltb_lt. specialize (Hidx j). lia.
Qed.

Example decode_file64_huge_section :
  decode_sample file64_huge_section =
  Ok (mkELF (mkELF_ref (mkBuffer 0 0 128) (mkELFHeader (mkBuffer 0 0 128)))
        [sample_huge_section] [], sample_heap_huge).
Proof. vm_compute. reflexivity. Qed.

(** Two sections on which the statement fails.  A section with a positive
    size and a zero entry size whose extraction terminates: the type guard
    throws before the loop is entered.  And a symbol table with entry size
    1 and size 2^53 + 1 whose extraction never returns. *)
Lemma C10_counterexample :
  (SectionHeader.size (sample_section 0) sample_heap32 = Ok (Num 16) /\
   SectionHeader.entsize (sample_section 0) sample_heap32 = Ok (Num 0) /\
   SectionHeader.getData 0 (Symbol.constructor elf_sh_type)
     (sample_section 0) sample_heap32 = Throw TypeError /\
   SectionHeader.getData 100 (Symbol.constructor elf_sh_type)
     (sample_section 0) sample_heap32 = Throw TypeError) /\
  (SectionHeader.size sample_huge_section sample_heap_huge = Ok (Big (2 ^ 53 + 1)) /\
   SectionHeader.entsize sample_huge_section sample_heap_huge = Ok (Big 1) /\
   forall fuel,
     SectionHeader.getData fuel (Symbol.constructor elf_sh_type)
       sample_huge_section sample_heap_huge = OutOfFuel).
Proof.
  split; [vm_compute; auto |].
  split; [reflexivity |]. split; [reflexivity |].
  apply (getData_stalls_beyond_safe_integers _ _ _ (Big 0) (Num 2));
    [| reflexivity ..].
  split; [cbn; lia |]. intros e [= <-]. cbn. lia.
Qed.

Lemma C7_getData_rejects_other_types_witness :
  SectionHeader.getData 10 (Rel.constructor elf_sh_type)
    (sample_section 1) sample_heap32 = Throw TypeError /\
  SectionHeader.getData 10 (Rel.constructor elf_sh_type)
    (mkElement (mkBuffer 1 0 8) (Some sample_ref32)) sample_heap32_short = Throw RangeError.
Proof.
  split.
  - destruct (C7_getData_rejects_other_types (Rel.constructor elf_sh_type)
                (sample_section 1) sample_heap32 (Num 2) 10)
      as (_ & Hty & _); [reflexivity | reflexivity |].
    apply (Hty (Num 212) (Num 32)); reflexivity.
  - destruct (C7_getData_rejects_other_types (Rel.constructor elf_sh_type)
                (mkElement (mkBuffer 1 0 8) (Some sample_ref32)) sample_heap32_short
                (Num 2) 10)
      as (_ & _ & [(ov & szv & Ho & _)|[_ Hr]] & _); [reflexivity | reflexivity | |].
    + vm_compute in Ho. discriminate Ho.
    + exact Hr.
Defined.

(** A section header whose window was cut after the type field: its type
    is readable and is not a symbol table's, yet extraction of symbols
    fails with a RangeError, raised by reading the offset. *)
Lemma C7_counterexample :
  match nth_section 0 (decode_sample file32_short_entries) with
  | Some (sh, h) =>
      SectionHeader.type sh h = Ok (Num 0) /\
      includes (SH_TYPES (Symbol.constructor elf_sh_type)) (Num 0) = false /\
      SectionHeader.getData 10 (Symbol.constructor elf_sh_type) sh h = Throw RangeError
  | None => False
  end.
Proof. vm_compute. auto. Qed.

(** Every record that [getData] returns was built by the class's
    [FromBuffer] from a buffer allocated during the call and the section's
    own back-reference. *)
Lemma getData_loop_Forall {T} (P : T -> Prop) (elfElement : ELFElementConstructor T)
    (this : SectionHeader) value (h0 : heap) :
  (forall b, (length h0 <= buffer b)%nat -> P (FromBuffer elfElement b (elf this))) ->
  forall fuel i result (h : heap) recs h',
    (length h0 <= length h)%nat ->
    Forall P result ->
    SectionHeader.getData_loop fuel elfElement this value i result h = Ok (recs, h') ->
    Forall P recs.
Proof.
  intros HP. induction fuel as [|fuel IH]; intros i result h recs h' Hlen Hres Hrun; [done |].
  cbn [SectionHeader.getData_loop] in Hrun.
  destruct (SectionHeader.size this h) as [szv| |]; cbn [bind] in Hrun; [| done | done].
  destruct (js_lt i szv); [| by injection Hrun as <- <-].
  destruct (SectionHeader.entsize this h) as [esv| |]; cbn [bind] in Hrun; [| done | done].
  rewrite Buffer_from_eq in Hrun.
  destruct (SectionHeader.entsize this _) as [esv'| |]; cbn [bind] in Hrun; [| done | done].
  eapply IH; [| | exact Hrun].
  - rewrite length_app. lia.
  - apply Forall_app. split; [done |]. apply Forall_singleton. apply HP. cbn. lia.
Qed.

Lemma getData_Forall {T} (P : T -> Prop) (elfElement : ELFElementConstructor T)
    (this : SectionHeader) fuel (h : heap) recs h' :
  (forall b, (length h <= buffer b)%nat -> P (FromBuffer elfElement b (elf this))) ->
  SectionHeader.getData fuel elfElement this h = Ok (recs, h') ->
  Forall P recs.
Proof.
  intros HP Hrun. unfold SectionHeader.getData in Hrun.
  destruct (SectionHeader.value this h) as [value| |]; cbn [bind] in Hrun; [| done | done].
  destruct (SectionHeader.type this h) as [tv| |]; cbn [bind] in Hrun; [| done | done].
  destruct (negb _); [done |].
  eapply (getData_loop_Forall P _ _ _ h); [exact HP | | | exact Hrun]; [lia | constructor].
Qed.

(** C3: what the code does.  [getData] calls [FromBuffer] with two
    arguments, so every relocation it returns has [needsAddend] undefined
    and its [added] getter answers [undefined], whatever the type of the
    section, RELA included. *)
Theorem C3_extracted_relocations_have_no_addend fuel (c : sh_type)
    (this : SectionHeader) (h : heap) recs h' :
  SectionHeader.getData fuel (Rel.constructor c) this h = Ok (recs, h') ->
  Forall (fun r => needsAddend r = None /\ forall h'', Rel.added r h'' = Ok Undefined) recs.
Proof.
  apply getData_Forall. intros b _. cbn. split; [done |].
  intros h''. reflexivity.
Qed.

Lemma C3_extracted_relocations_have_no_addend_witness :
  exists r h',
    SectionHeader.type (sample_section 2) sample_heap32 = Ok (Num (RELA elf_sh_type)) /\
    SectionHeader.getData 10 (Rel.constructor elf_sh_type) (sample_section 2) sample_heap32
      = Ok ([r], h') /\
    needsAddend r = None /\
    Rel.added r h' = Ok Undefined /\
    getUint32 (view r) 8 true h' = Ok (Num 42).
Proof.
  eexists _, _. split; [reflexivity |]. split; [vm_compute; reflexivity |].
  pose proof (C3_extracted_relocations_have_no_addend 10 elf_sh_type
                (sample_section 2) sample_heap32 _ _ eq_refl) as HF.
  apply Forall_cons_1 in HF as [[Hn Ha] _].
  split; [exact Hn |]. split; [apply Ha |]. reflexivity.
Defined.

(** ** No bounds check in the walks *)




Lemma C8_table_walk_elements_witness :
  exists elf h',
    ELF.FromBuffer 100 0 [file64] = Ok (elf, h') /\
    length (sectionHeaders elf) = 0%nat /\
    length (programHeaders elf) = 1%nat /\
    (forall j sh, sectionHeaders elf !! j = Some sh ->
       0 + (Z.of_nat j + 1) * 64 < 2 ^ 31 ->
       bytes_of (element_buffer sh) h' =
       take 64 (drop (Z.to_nat (0 + Z.of_nat j * 64)) file64)) /\
    (forall j ph, programHeaders elf !! j = Some ph ->
       64 + (Z.of_nat j + 1) * 56 < 2 ^ 31 ->
       bytes_of (element_buffer ph) h' =
       take 56 (drop (Z.to_nat (64 + Z.of_nat j * 56)) file64)).
Proof.
  apply (C8_table_walk_elements 100 0 [file64]
           (Big 0) (Num 0) (Num 64) (Big 64) (Num 1) (Num 56));
    [cbn; lia | reflexivity .. | cbn; lia | cbn; lia | cbn; lia | cbn; lia].
Defined.

(** A program header table with one entry of size zero: no element is
    produced. *)
Lemma C8_counterexample :
  ELFHeader.phnum (mkELFHeader (mkBuffer 0 0 120)) [file64_zero_entsize] = Ok (Num 1) /\
  ELFHeader.phentsize (mkELFHeader (mkBuffer 0 0 120)) [file64_zero_entsize] = Ok (Num 0) /\
  exists elf h',
    decode_sample file64_zero_entsize = Ok (elf, h') /\ programHeaders elf = [].
Proof.
  split; [reflexivity |]. split; [reflexivity |].
  eexists _, _. split; [vm_compute; reflexivity | reflexivity].
Qed.

(** ** What decoding returns *)

Lemma sh_loop_Ok_getters fuel buffer header elf i result (h : heap) r :
  ELF.sh_loop fuel buffer header elf i result h = Ok r ->
  exists shoff shnum shentsize,
    ELFHeader.shoff header h = Ok shoff /\
    ELFHeader.shnum header h = Ok shnum /\
    ELFHeader.shentsize header h = Ok shentsize.
Proof.
  destruct fuel as [|fuel]; [done |]. cbn [ELF.sh_loop].
  destruct (ELFHeader.shoff header h); [| done | done].
  destruct (ELFHeader.shnum header h); [| done | done].
  destruct (ELFHeader.shentsize header h); [| done | done].
  intros _. by eexists _, _, _.
Qed.

Lemma ph_loop_Ok_getters fuel buffer header elf i result (h : heap) r :
  ELF.ph_loop fuel buffer header elf i result h = Ok r ->
  exists phoff phnum phentsize,
    ELFHeader.phoff header h = Ok phoff /\
    ELFHeader.phnum header h = Ok phnum /\
    ELFHeader.phentsize header h = Ok phentsize.
Proof.
  destruct fuel as [|fuel]; [done |]. cbn [ELF.ph_loop].
  destruct (ELFHeader.phoff header h); [| done | done].
  destruct (ELFHeader.phnum header h); [| done | done].
  destruct (ELFHeader.phentsize header h); [| done | done].
  intros _. by eexists _, _, _.
Qed.

(** Whenever [FromBuffer] returns, the file object refers to the given
    ArrayBuffer, its two arrays are walks of that buffer, and the store has
    only grown. *)
Lemma FromBuffer_inv fuel ab (h : heap) elf h' :
  (ab < length h)%nat ->
  ELF.FromBuffer fuel ab h = Ok (elf, h') ->
  let buf := Buffer_from_ArrayBuffer ab h in
  let ref := mkELF_ref buf (ELFHeader.FromBuffer buf) in
  exists s1 i1 n1 s2 i2 n2,
    let h1 := walked_heap s1 buf i1 h n1 in
    elf = mkELF ref
            (walked s1 buf (fun b => SectionHeader.FromBuffer b (Some ref)) i1 h n1)
            (walked s2 buf (fun b => ProgramHeader.FromBuffer b (Some ref)) i2 h1 n2) /\
    h' = walked_heap s2 buf i2 h1 n2 /\
    (exists shoff, ELFHeader.shoff (ELFHeader.FromBuffer buf) h = Ok shoff).
Proof.
  intros Hab Hrun buf ref. unfold ELF.FromBuffer in Hrun.
  fold buf in Hrun. fold ref in Hrun.
  destruct (ELFHeader.shoff _ h) as [shoff| |] eqn:Hso; cbn [bind] in Hrun; [| done | done].
  destruct (ELF.sh_loop _ _ _ _ _ _ h) as [[shs h1]| |] eqn:Hsh; cbn [bind] in Hrun;
    [| done | done].
  destruct (sh_loop_Ok_getters _ _ _ _ _ _ _ _ Hsh) as (so & sn & se & Hso' & Hsn & Hse).
  rewrite (sh_loop_walk _ _ _ so sn se) in Hsh by done.
  apply walk_inv in Hsh as (n1 & -> & ->); [| done].
  destruct (ELFHeader.phoff _ _) as [phoff| |] eqn:Hpo; cbn [bind] in Hrun; [| done | done].
  destruct (ELF.ph_loop _ _ _ _ _ _ _) as [[phs h2]| |] eqn:Hph; cbn [bind] in Hrun;
    [| done | done].
  destruct (ph_loop_Ok_getters _ _ _ _ _ _ _ _ Hph) as (po & pn & pe & Hpo' & Hpn & Hpe).
  rewrite (ph_loop_walk _ _ _ po pn pe) in Hph;
    [| rewrite length_walked_heap; cbn; lia | done ..].
  apply walk_inv in Hph as (n2 & -> & ->); [| rewrite length_walked_heap; cbn; lia].
  injection Hrun as <- <-.
  exists (Number se), (Number shoff), n1, (Number pe), (Number phoff), n2.
  cbn [app]. split; [done |]. split; [done |]. eauto.
Qed.

Lemma elem_of_walked {T} step src (mk : Buffer -> T) i (h : heap) n x :
  x ∈ walked step src mk i h n ->
  exists j, (j < n)%nat /\ x = mk (mkBuffer (length h + j) 0 (length (window step src i h j))).
Proof.
  intros Hx. apply list_elem_of_lookup in Hx as [j Hj].
  assert (Hlt : (j < n)%nat).
  { apply lookup_lt_Some in Hj. by rewrite length_walked in Hj. }
  rewrite walked_lookup in Hj by done. injection Hj as <-. eauto.
Qed.

Lemma C6_program_header_fields_follow_table_witness :
  ph_get p_flags sample_program sample_heap64 =
  spec_read phdr64 false true (mkLayout 0x18 4 u32)
  /\ spec_ph_layout p_flags = mkLayout 0x18 4 u32.
Proof.
  apply (C6_program_header_fields_follow_table sample_program sample_ref64
           sample_heap64 p_flags); [reflexivity | cbn; lia].
Defined.

Example header_fields_file64 :
  map (fun f => header_get f (mkELFHeader (mkBuffer 0 0 120)) [file64])
    [e_type; e_machine; e_entry; e_phoff; e_phentsize; e_phnum; e_shentsize] =
  [Ok (Num 2); Ok (Num 0x3e); Ok (Big 0x401000); Ok (Big 0x40); Ok (Num 0x38); Ok (Num 1);
   Ok (Num 0x40)].
Proof. vm_compute. reflexivity. Qed.

(** ** One variant per file *)

Lemma header_get_Ok_ident this f h v :
  header_get f this h = Ok v -> (9 <= length (contents h (view this)))%nat.
Proof.
  rewrite header_get_spec. unfold spec_read.
  case_match eqn:E; [| done]. intros _. apply Nat.leb_le in E.
  destruct f, (spec_is32bit _); cbn in E; lia.
Qed.

Lemma referring_same_variant (x : Element) ref :
  elf x = Some ref -> same_variant (elf_header ref) x.
Proof.
  intros He hh. cbn [is32bit isLE Element_element]. by rewrite He.
Qed.

(** C9: after decoding, the header reports the variant spelled by bytes 4
    and 5 of the given buffer (1 meaning 32-bit, respectively
    little-endian), and the file object, every section header, every
    program header and every record extracted from a section report, in
    every store, what that header reports. *)
Theorem C9_one_variant_per_file fuel ab (h : heap) elf h' :
  (ab < length h)%nat ->
  ELF.FromBuffer fuel ab h = Ok (elf, h') ->
  (is32bit (ELF.header elf) h' = Ok (spec_is32bit (contents h ab)) /\
   isLE (ELF.header elf) h' = Ok (spec_isLE (contents h ab))) /\
  same_variant (ELF.header elf) elf /\
  (forall x, x ∈ sectionHeaders elf ++ programHeaders elf ->
     same_variant (ELF.header elf) x) /\
  (forall sh c fuel' (h1 : heap), sh ∈ sectionHeaders elf ->
     (forall recs h2,
        SectionHeader.getData fuel' (Symbol.constructor c) sh h1 = Ok (recs, h2) ->
        Forall (same_variant (ELF.header elf)) recs) /\
     (forall recs h2,
        SectionHeader.getData fuel' (Rel.constructor c) sh h1 = Ok (recs, h2) ->
        Forall (same_variant (ELF.header elf)) recs) /\
     (forall recs h2,
        SectionHeader.getData fuel' (Dyn.constructor c) sh h1 = Ok (recs, h2) ->
        Forall (same_variant (ELF.header elf)) recs) /\
     (forall recs h2,
        SectionHeader.getData fuel' (Note.constructor c) sh h1 = Ok (recs, h2) ->
        Forall (same_variant (ELF.header elf)) recs)).
Proof.
  intros Hab Hrun.
  destruct (FromBuffer_inv _ _ _ _ _ Hab Hrun)
    as (s1 & i1 & n1 & s2 & i2 & n2 & -> & -> & shoff & Hso).
  set (buf := Buffer_from_ArrayBuffer ab h) in *.
  set (ref := mkELF_ref buf (ELFHeader.FromBuffer buf)) in *.
  unfold ELF.header. cbn [self sectionHeaders programHeaders].
  change (elf_header ref) with (ELFHeader.FromBuffer buf).
  assert (Hsec : forall x,
    x ∈ walked s1 buf (fun b => SectionHeader.FromBuffer b (Some ref)) i1 h n1 ->
    elf x = Some ref).
  { intros x (j & _ & ->)%elem_of_walked. done. }
  split; [| split; [| split]].
  - apply (header_get_Ok_ident _ e_shoff) in Hso. apply Nat.leb_le in Hso.
    rewrite header_is32bit, header_isLE.
    assert (Hc : contents (walked_heap s2 buf i2 (walked_heap s1 buf i1 h n1) n2)
                   (view (ELFHeader.FromBuffer buf)) = contents h ab).
    { rewrite !walked_heap_old; [done | cbn; lia | rewrite length_walked_heap; cbn; lia]. }
    rewrite Hc. change (view (ELFHeader.FromBuffer buf)) with ab in Hso.
    by rewrite Hso.
  - by intros hh.
  - intros x [Hx|Hx]%elem_of_app.
    + by apply (referring_same_variant x ref), Hsec.
    + apply elem_of_walked in Hx as (j & _ & ->).
      by apply (referring_same_variant _ ref).
  - intros sh c fuel' h1 Hsh. specialize (Hsec sh Hsh).
    repeat split; intros recs h2 Hget;
      (eapply getData_Forall; [| exact Hget]); intros b _ hh; rewrite Hsec; done.
Qed.

Lemma C9_one_variant_per_file_witness :
  is32bit (mkELFHeader (mkBuffer 0 0 256)) sample_heap32 = Ok true /\
  isLE (mkELFHeader (mkBuffer 0 0 256)) sample_heap32 = Ok true /\
  same_variant (mkELFHeader (mkBuffer 0 0 256)) (sample_section 1).
Proof.
  destruct (C9_one_variant_per_file 100 0 [file32] _ _ ltac:(cbn; lia) decode_file32)
    as ((H32 & HLE) & _ & Hel & _).
  split; [exact H32 |]. split; [exact HLE |].
  apply Hel. apply elem_of_app. left. by apply (list_elem_of_lookup_2 _ 1%nat).
Defined.

(** ** Getters and setters in terms of the layouts *)

Lemma sym_get_spec (this : Symbol) (h : heap) (f : sym_field) :
  sym_get f this h = spec_read_element this (spec_sym_layout f) h.
Proof. destruct f; solve_element_read. Qed.

Lemma dyn_get_spec (this : Dyn) (h : heap) (f : dyn_field) :
  dyn_get f this h = spec_read_element this (spec_dyn_layout f) h.
Proof. destruct f; solve_element_read. Qed.

Lemma note_get_spec (this : Note) (h : heap) (f : note_field) :
  note_get f this h = spec_read_element this (spec_note_layout f) h.
Proof. destruct f; solve_element_read. Qed.

Lemma rel_get_spec (this : Rel) (h : heap) (f : rel_field) :
  accessor_enabled (OfRel this f) = true ->
  rel_get f this h = spec_read_element (rel_element this) (spec_rel_layout f) h.
Proof.
  destruct f; cbn [accessor_enabled]; intros Hen; [solve_element_read .. |].
  unfold rel_get, Rel.added. destruct (needsAddend this) as [[|]|]; [| done | done].
  solve_element_read.
Qed.

Ltac solve_write :=
  unfold layout_write;
  cbn [off32 off64 field_width];
  repeat match goal with
         | |- context [typeof_number ?v] => destruct (typeof_number v)
         | |- context [(9 <=? length ?l)%nat] => destruct (Nat.leb_spec 9 (length l))
         | |- context [spec_is32bit ?l] => destruct (spec_is32bit l)
         end;
  cbn [bind]; reflexivity.

Lemma header_set_spec (this : ELFHeader) f v (h : heap) :
  header_set f this v h =
  if (9 <=? length (contents h (view this)))%nat
  then layout_write (view this) (spec_is32bit (contents h (view this)))
         (spec_isLE (contents h (view this))) (spec_header_layout f) v h
  else Throw RangeError.
Proof.
  destruct f; unfold_setters; rewrite ?header_is32bit, ?header_isLE;
    cbn [spec_header_layout]; solve_write.
Qed.

Ltac solve_element_write :=
  unfold_setters; unfold element_write;
  cbn [is32bit isLE Element_element Rel.element];
  match goal with
  | |- context [elf ?t] =>
      destruct (elf t) as [e|];
      [| repeat match goal with
                | |- context [typeof_number ?v] => destruct (typeof_number v)
                end; reflexivity]
  end;
  rewrite ?header_is32bit, ?header_isLE; unfold view;
  cbn [el_buffer ELFHeader.element Element_element Rel.element];
  cbn [spec_ph_layout spec_sym_layout spec_rel_layout spec_dyn_layout spec_note_layout];
  solve_write.

Lemma ph_set_spec (this : ProgramHeader) f v (h : heap) :
  ph_set f this v h = element_write this (spec_ph_layout f) v h.
Proof. destruct f; solve_element_write. Qed.

Lemma sym_set_spec (this : Symbol) f v (h : heap) :
  sym_set f this v h = element_write this (spec_sym_layout f) v h.
Proof. destruct f; solve_element_write. Qed.

Lemma dyn_set_spec (this : Dyn) f v (h : heap) :
  dyn_set f this v h = element_write this (spec_dyn_layout f) v h.
Proof. destruct f; solve_element_write. Qed.

Lemma note_set_spec (this : Note) f v (h : heap) :
  note_set f this v h = element_write this (spec_note_layout f) v h.
Proof. destruct f; solve_element_write. Qed.

Lemma rel_set_spec (this : Rel) f v (h : heap) :
  rel_set f this v h =
  if accessor_enabled (OfRel this f)
  then element_write (rel_element this) (spec_rel_layout f) v h
  else Ok h.
Proof.
  destruct f; cbn [accessor_enabled]; [solve_element_write .. |].
  unfold rel_set, Rel.set_added. destruct (needsAddend this) as [[|]|]; [| done | done].
  solve_element_write.
Qed.

(** ** Writing and reading back *)

Lemma spec_read_getUint dv (h : heap) is32 le l :
  spec_read (contents h dv) is32 le l =
  let! z := getUint (width_bytes is32 (field_width l)) dv
              (if is32 then off32 l else off64 l) le h in
  Ok (match field_width l with
      | nativeWord => if is32 then Num z else Big z
      | _ => Num z
      end).
Proof. unfold spec_read, getUint. by case_match. Qed.

Lemma getUint1_any_order dv k le (h : heap) : getUint 1 dv k le h = getUint 1 dv k true h.
Proof. by rewrite !getUint1_at. Qed.

(** Every setter ends in one [DataView] write, at one of the two offsets
    of the field. *)
Lemma layout_write_inv dv is32 le l v (h h' : heap) :
  layout_write dv is32 le l v h = Ok h' ->
  exists w o z le',
    (0 < w)%nat /\ (o = off32 l \/ o = off64 l) /\ setUint w dv o z le' h = Ok h'.
Proof.
  unfold layout_write, setUint8, setUint16, setUint32, setBigUint64.
  destruct (field_width l); [| | |destruct (typeof_number v)].
  all: match goal with |- context [ToNumber ?x] => destruct (ToNumber x) as [z| |]
                     | |- context [ToBigInt ?x] => destruct (ToBigInt x) as [z| |] end;
    cbn [bind]; try done.
  all: intros Hw; eexists _, _, z, _; split; [| split; [| exact Hw]];
    [lia | destruct is32; auto].
Qed.

Lemma layout_write_frame dv is32 le l v (h h' : heap) dv' :
  layout_write dv is32 le l v h = Ok h' -> dv' <> dv -> contents h' dv' = contents h dv'.
Proof.
  intros (w & o & z & le' & _ & _ & Hw)%layout_write_inv Hne.
  by apply (setUint_frame _ _ _ _ _ _ _ _ Hw).
Qed.

Lemma layout_write_length dv is32 le l v (h h' : heap) :
  layout_write dv is32 le l v h = Ok h' ->
  length h' = length h /\ length (contents h' dv) = length (contents h dv).
Proof.
  intros (w & o & z & le' & Hpos & _ & Hw)%layout_write_inv. split.
  - by apply (setUint_length _ _ _ _ _ _ _ Hw).
  - by apply (setUint_contents_length _ _ _ _ _ _ _ Hpos Hw).
Qed.

(** The bytes below both offsets of the field keep their value. *)
Lemma layout_write_below dv is32 le l v (h h' : heap) k :
  layout_write dv is32 le l v h = Ok h' ->
  (k < off32 l)%nat -> (k < off64 l)%nat ->
  byte_at (contents h' dv) k = byte_at (contents h dv) k.
Proof.
  intros Hlw H32 H64.
  destruct (layout_write_length _ _ _ _ _ _ _ Hlw) as [_ Hlen].
  apply layout_write_inv in Hlw as (w & o & z & le' & Hpos & Ho & Hw).
  assert (Hk : (k + 1 <= o)%nat) by (destruct Ho; lia).
  pose proof (getUint_setUint_below _ _ _ _ _ _ _ 1%nat k true Hpos Hw Hk) as Hg.
  rewrite !getUint1_at, Hlen in Hg.
  destruct (Nat.leb_spec (k + 1) (length (contents h dv))) as [Hin|Hout].
  - by injection Hg.
  - unfold byte_at. rewrite !lookup_ge_None_2 by lia. done.
Qed.

Lemma wrap_small w z : 0 <= z < 256 ^ Z.of_nat w -> z mod 256 ^ Z.of_nat w = z.
Proof. apply Z.mod_small. Qed.

(** A value that fits the field is read back from where it was written. *)
Lemma layout_roundtrip dv is32 le l v (h h' : heap) :
  fits_width is32 (field_width l) v = true ->
  layout_write dv is32 le l v h = Ok h' ->
  spec_read (contents h' dv) is32 le l = Ok v.
Proof.
  rewrite spec_read_getUint.
  unfold layout_write, fits_width, setUint8, setUint16, setUint32, setBigUint64.
  destruct (field_width l), v as [z|z| |]; try done; cbn [width_bytes].
  - (* u8 *)
    intros [H0 H1]%andb_prop Hw. cbn [ToNumber bind] in Hw.
    rewrite getUint1_any_order, (getUint_setUint 1 _ _ _ _ _ _ ltac:(lia) Hw).
    cbn [bind]. rewrite wrap_small; [done |].
    change (256 ^ Z.of_nat 1) with (2 ^ 8). lia.
  - (* u16 *)
    intros [H0 H1]%andb_prop Hw. cbn [ToNumber bind] in Hw.
    rewrite (getUint_setUint 2 _ _ _ _ _ _ ltac:(lia) Hw).
    cbn [bind]. rewrite wrap_small; [done |].
    change (256 ^ Z.of_nat 2) with (2 ^ 16). lia.
  - (* u32 *)
    intros [H0 H1]%andb_prop Hw. cbn [ToNumber bind] in Hw.
    rewrite (getUint_setUint 4 _ _ _ _ _ _ ltac:(lia) Hw).
    cbn [bind]. rewrite wrap_small; [done |].
    change (256 ^ Z.of_nat 4) with (2 ^ 32). lia.
  - (* native word, a number in a 32-bit file *)
    intros [[Hv H0]%andb_prop H1]%andb_prop Hw.
    rewrite Hv in *. cbn [typeof_number ToNumber bind] in Hw.
    rewrite (getUint_setUint 4 _ _ _ _ _ _ ltac:(lia) Hw).
    cbn [bind]. rewrite wrap_small; [done |].
    change (256 ^ Z.of_nat 4) with (2 ^ 32). lia.
  - (* native word, a bigint in a 64-bit file *)
    intros [[Hv H0]%andb_prop H1]%andb_prop Hw.
    apply negb_true_iff in Hv. rewrite Hv in *.
    cbn [typeof_number ToBigInt bind] in Hw.
    rewrite (getUint_setUint 8 _ _ _ _ _ _ ltac:(lia) Hw).
    cbn [bind]. rewrite wrap_small; [done |].
    change (256 ^ Z.of_nat 8) with (2 ^ 64). lia.
Qed.


Lemma element_roundtrip (this : Element) l v (h h' : heap) is32 :
  apart this = true ->
  is32bit this h = Ok is32 ->
  fits_width is32 (field_width l) v = true ->
  element_write this l v h = Ok h' ->
  spec_read_element this l h' = Ok v.
Proof.
  unfold apart, element_write, spec_read_element.
  cbn [is32bit Element_element].
  destruct (elf this) as [e|]; [| done].
  rewrite header_is32bit. unfold view. cbn [el_buffer ELFHeader.element].
  intros Hap%negb_true_iff%Nat.eqb_neq.
  match goal with
  | |- context [(9 <=? ?n)%nat] => destruct (Nat.leb_spec 9 n) as [Hlen|]
  end; [| done].
  intros [= <-] Hfit Hw.
  rewrite (layout_write_frame _ _ _ _ _ _ _ _ Hw Hap).
  apply Nat.leb_le in Hlen. rewrite Hlen.
  by apply (layout_roundtrip _ _ _ _ _ h).
Qed.








(** In a 64-bit file, writing a number to [phoff] stores a u32 at 0x1c,
    inside the entry point, and [phoff] still reads as the old bigint. *)
Example header_phoff_number_in_64bit_file :
  exists h',
    header_set e_phoff (mkELFHeader (mkBuffer 0 0 120)) (Num 0x80) [file64] = Ok h' /\
    header_get e_phoff (mkELFHeader (mkBuffer 0 0 120)) h' = Ok (Big 0x40) /\
    header_get e_entry (mkELFHeader (mkBuffer 0 0 120)) [file64] = Ok (Big 0x401000) /\
    header_get e_entry (mkELFHeader (mkBuffer 0 0 120)) h' = Ok (Big 0x8000401000).
Proof. eexists. split; [vm_compute; reflexivity |]. vm_compute. auto. Qed.

(** ** Who shares the file's buffer *)

Lemma element_write_frame this l v (h h' : heap) ab' :
  element_write this l v h = Ok h' -> ab' <> buffer (element_buffer this) ->
  contents h' ab' = contents h ab'.
Proof.
  unfold element_write. destruct (elf this); [| done].
  case_match; [| done]. intros Hset Hne.
  by apply (layout_write_frame _ _ _ _ _ _ _ _ Hset).
Qed.

Lemma accessor_set_frame a v (h h' : heap) ab' :
  accessor_set a v h = Ok h' -> ab' <> written a -> contents h' ab' = contents h ab'.
Proof.
  destruct a as [this f|this f|this f|this f|this f|this f]; cbn [accessor_set written].
  - rewrite header_set_spec. case_match; [| done]. intros Hset Hne.
    by apply (layout_write_frame _ _ _ _ _ _ _ _ Hset).
  - rewrite ph_set_spec. apply element_write_frame.
  - rewrite sym_set_spec. apply element_write_frame.
  - rewrite rel_set_spec. destruct (accessor_enabled _).
    + apply element_write_frame.
    + by intros [= <-].
  - rewrite dyn_set_spec. apply element_write_frame.
  - rewrite note_set_spec. apply element_write_frame.
Qed.

Lemma view_walked step src e i (h : heap) n :
  map (fun x : Element => view x) (walked step src (fun b => mkElement b e) i h n) =
  seq (length h) n.
Proof.
  unfold walked. rewrite map_map. cbn.
  replace (seq (length h) n) with (seq (length h + 0) n) by (by rewrite Nat.add_0_r).
  by rewrite <- fmap_add_seq.
Qed.

(** The records of one extraction lie on consecutive fresh ArrayBuffers. *)
Lemma getData_loop_views {T} `{ELFElement T} (elfElement : ELFElementConstructor T)
    (this : SectionHeader) value :
  (forall b r, view (FromBuffer elfElement b r) = buffer b) ->
  forall fuel i result (h : heap) recs h',
    SectionHeader.getData_loop fuel elfElement this value i result h = Ok (recs, h') ->
    exists new,
      recs = result ++ new /\
      map (fun r => view r) new = seq (length h) (length new) /\
      length h' = (length h + length new)%nat.
Proof.
  intros Hmk. induction fuel as [|fuel IH]; intros i result h recs h' Hrun; [done |].
  cbn [SectionHeader.getData_loop] in Hrun.
  destruct (SectionHeader.size this h) as [szv| |]; cbn [bind] in Hrun; [| done | done].
  destruct (js_lt i szv).
  - destruct (SectionHeader.entsize this h) as [esv| |]; cbn [bind] in Hrun; [| done | done].
    rewrite Buffer_from_eq in Hrun.
    match type of Hrun with
    | context [SectionHeader.entsize this ?h1] =>
        destruct (SectionHeader.entsize this h1) as [esv'| |]
    end; cbn [bind] in Hrun; [| done | done].
    apply IH in Hrun as (new & -> & Hviews & Hlen).
    rewrite length_app in Hviews, Hlen. cbn [length] in Hviews, Hlen.
    eexists (_ :: new). rewrite <- app_assoc. cbn [app length map seq].
    split; [done |]. split; [| lia].
    rewrite Hmk. cbn [buffer]. f_equal.
    by replace (S (length h)) with (length h + 1)%nat by lia.
  - injection Hrun as <- <-. exists []. by rewrite app_nil_r, Nat.add_0_r.
Qed.

Lemma getData_views {T} `{ELFElement T} (elfElement : ELFElementConstructor T)
    (this : SectionHeader) fuel (h : heap) recs h' :
  (forall b r, view (FromBuffer elfElement b r) = buffer b) ->
  SectionHeader.getData fuel elfElement this h = Ok (recs, h') ->
  Forall (fun r => (length h <= view r < length h')%nat) recs /\
  NoDup (map (fun r => view r) recs).
Proof.
  intros Hmk Hrun. unfold SectionHeader.getData in Hrun.
  destruct (SectionHeader.value this h) as [value| |]; cbn [bind] in Hrun; [| done | done].
  destruct (SectionHeader.type this h) as [tv| |]; cbn [bind] in Hrun; [| done | done].
  destruct (negb _); [done |].
  apply (getData_loop_views _ _ _ Hmk) in Hrun as (new & -> & Hviews & Hlen).
  cbn [app]. split.
  - apply Forall_forall. intros r Hr.
    assert (Hin : view r ∈ seq (length h) (length new)).
    { rewrite <- Hviews. by apply (list_elem_of_fmap_2 (fun r => view r)). }
    apply elem_of_seq in Hin. lia.
  - rewrite Hviews. apply NoDup_seq.
Qed.

(** [copy] stores into the memory of its target only. *)
Lemma Buffer_copy_frame src target targetStart start end_ (h h' : heap) ab' :
  Buffer_copy src target targetStart start end_ h = Ok h' ->
  ab' <> buffer target -> contents h' ab' = contents h ab'.
Proof.
  unfold Buffer_copy. intros Hc Hne.
  repeat case_match; try done; injection Hc as <-; try done;
    by apply contents_insert_ne.
Qed.

(** C1 (amended): only the file object and the file header view the
    given buffer itself.  Every section header and program header, and
    every record extracted from a section, holds its bytes in an
    ArrayBuffer allocated for it during the call, distinct from the file's
    and from one another's; the setter of a field stores into the
    ArrayBuffer of its own element and leaves every other one, the file's
    included, as it was.  The [value] setter of a program header is no
    field setter in this sense: whatever it stores, it changes no
    ArrayBuffer other than the file's, so the program header's own copy
    stays as it was. *)
Theorem C1_elements_hold_copies fuel ab (h : heap) elf h' :
  (ab < length h)%nat ->
  ELF.FromBuffer fuel ab h = Ok (elf, h') ->
  (view elf = ab /\ view (ELF.header elf) = ab) /\
  (forall x : Element, x ∈ sectionHeaders elf ++ programHeaders elf ->
     (length h <= view x < length h')%nat) /\
  NoDup (map (fun x : Element => view x) (sectionHeaders elf ++ programHeaders elf)) /\
  (forall sh c fuel' (h1 : heap),
     (forall recs h2,
        SectionHeader.getData fuel' (Symbol.constructor c) sh h1 = Ok (recs, h2) ->
        Forall (fun r => (length h1 <= view r < length h2)%nat) recs /\
        NoDup (map (fun r => view r) recs)) /\
     (forall recs h2,
        SectionHeader.getData fuel' (Rel.constructor c) sh h1 = Ok (recs, h2) ->
        Forall (fun r => (length h1 <= view r < length h2)%nat) recs /\
        NoDup (map (fun r => view r) recs)) /\
     (forall recs h2,
        SectionHeader.getData fuel' (Dyn.constructor c) sh h1 = Ok (recs, h2) ->
        Forall (fun r => (length h1 <= view r < length h2)%nat) recs /\
        NoDup (map (fun r => view r) recs)) /\
     (forall recs h2,
        SectionHeader.getData fuel' (Note.constructor c) sh h1 = Ok (recs, h2) ->
        Forall (fun r => (length h1 <= view r < length h2)%nat) recs /\
        NoDup (map (fun r => view r) recs))) /\
  (forall a v (h1 h2 : heap), accessor_set a v h1 = Ok h2 ->
     forall ab', ab' <> written a -> contents h2 ab' = contents h1 ab') /\
  (forall ph f v (h1 h2 : heap), ph ∈ programHeaders elf ->
     ph_set f ph v h1 = Ok h2 -> contents h2 ab = contents h1 ab) /\
  (forall ph val (h1 h2 : heap), ph ∈ programHeaders elf ->
     ProgramHeader.set_value ph val h1 = Ok h2 ->
     forall ab', ab' <> ab -> contents h2 ab' = contents h1 ab').
Proof.
  intros Hab Hrun.
  destruct (FromBuffer_inv _ _ _ _ _ Hab Hrun)
    as (s1 & i1 & n1 & s2 & i2 & n2 & -> & -> & _).
  set (buf := Buffer_from_ArrayBuffer ab h) in *.
  set (ref := mkELF_ref buf (ELFHeader.FromBuffer buf)) in *.
  cbn [sectionHeaders programHeaders].
  assert (Hfresh : forall x : Element,
    x ∈ walked s1 buf (fun b => SectionHeader.FromBuffer b (Some ref)) i1 h n1 ++
        walked s2 buf (fun b => ProgramHeader.FromBuffer b (Some ref)) i2
          (walked_heap s1 buf i1 h n1) n2 ->
    (length h <= view x < length (walked_heap s2 buf i2 (walked_heap s1 buf i1 h n1) n2))%nat).
  { intros x [Hx|Hx]%elem_of_app; apply elem_of_walked in Hx as (j & Hj & ->);
      rewrite !length_walked_heap; cbn; try rewrite length_walked_heap; lia. }
  split; [done |]. split; [exact Hfresh |]. split; [| split; [| split; [| split]]].
  - rewrite map_app.
    unfold SectionHeader.FromBuffer, ProgramHeader.FromBuffer.
    rewrite !view_walked, length_walked_heap, <- seq_app. apply NoDup_seq.
  - intros sh c fuel' h1.
    split; [| split; [| split]]; intros recs h2 Hget;
      (eapply getData_views; [| exact Hget]); intros b r; reflexivity.
  - intros a v h1 h2 Hset ab' Hne. by apply (accessor_set_frame a v).
  - intros ph f v h1 h2 Hph Hset.
    apply (accessor_set_frame (OfProgramHeader ph f) v h1 h2 ab Hset).
    cbn [written].
    assert (length h <= view ph)%nat; [| lia].
    apply Hfresh, elem_of_app. by right.
  - intros ph val h1 h2 Hph Hset ab' Hne.
    apply elem_of_walked in Hph as (j & Hj & ->).
    unfold ProgramHeader.set_value, ProgramHeader.FromBuffer in Hset.
    cbn [elf] in Hset.
    repeat match type of Hset with
           | bind ?m _ = _ => destruct m; cbn [bind] in Hset; try done
           end.
    by apply (Buffer_copy_frame _ _ _ _ _ _ _ _ Hset).
Qed.

Lemma C1_elements_hold_copies_witness :
  (length [file64] <= view sample_program < length sample_heap64)%nat /\
  (forall f v (h1 h2 : heap),
     ph_set f sample_program v h1 = Ok h2 -> contents h2 0 = contents h1 0).
Proof.
  destruct (C1_elements_hold_copies 100 0 [file64] _ _ ltac:(cbn; lia) decode_file64)
    as (_ & Hfresh & _ & _ & _ & Hfile & _).
  split.
  - apply Hfresh. apply elem_of_app. right. by apply (list_elem_of_lookup_2 _ 0%nat).
  - intros f v h1 h2. apply Hfile. by apply (list_elem_of_lookup_2 _ 0%nat).
Defined.

(** Writing the type of a decoded program header: the element reads the
    new value, while the file's buffer keeps its bytes and still holds the
    old type at the field's place, 0x40. *)
Lemma C1_counterexample :
  exists h',
    ph_set p_type sample_program (Num 7) sample_heap64 = Ok h' /\
    ph_get p_type sample_program h' = Ok (Num 7) /\
    contents h' 0 = file64 /\
    getUint32 0%nat 0x40 true h' = Ok (Num 1).
Proof. eexists. split; [vm_compute; reflexivity |]. vm_compute. auto. Qed.

(** * Further properties of the code *)

(** ** Decoding and extraction only allocate *)

Lemma getData_loop_extends {T} (elfElement : ELFElementConstructor T)
    (this : SectionHeader) value fuel : forall i result (h : heap) recs h',
  SectionHeader.getData_loop fuel elfElement this value i result h = Ok (recs, h') ->
  exists k new, h' = h ++ k /\ recs = result ++ new /\ length k = length new.
Proof.
  induction fuel as [|fuel IH]; intros i result h recs h' Hrun; [done |].
  cbn [SectionHeader.getData_loop] in Hrun.
  destruct (SectionHeader.size this h) as [szv| |]; cbn [bind] in Hrun; [| done | done].
  destruct (js_lt i szv).
  - destruct (SectionHeader.entsize this h) as [esv| |]; cbn [bind] in Hrun; [| done | done].
    rewrite Buffer_from_eq in Hrun.
    destruct (SectionHeader.entsize this _) as [esv'| |]; cbn [bind] in Hrun; [| done | done].
    apply IH in Hrun as (k & new & -> & -> & Hlen).
    eexists (_ :: k), (_ :: new). rewrite <- !app_assoc. cbn [app length].
    split; [done |]. split; [done |]. by rewrite Hlen.
  - injection Hrun as <- <-. exists [], []. by rewrite !app_nil_r.
Qed.

(** X2: record extraction never writes into an ArrayBuffer that exists: the
    store it returns is the given one followed by one new ArrayBuffer per
    record returned. *)
Theorem getData_only_allocates {T} (elfElement : ELFElementConstructor T)
    (this : SectionHeader) fuel (h : heap) recs h' :
  SectionHeader.getData fuel elfElement this h = Ok (recs, h') ->
  exists k, h' = h ++ k /\ length k = length recs /\
            forall ab, (ab < length h)%nat -> contents h' ab = contents h ab.
Proof.
  intros Hrun. unfold SectionHeader.getData in Hrun.
  destruct (SectionHeader.value this h) as [value| |]; cbn [bind] in Hrun; [| done | done].
  destruct (SectionHeader.type this h) as [tv| |]; cbn [bind] in Hrun; [| done | done].
  destruct (negb _); [done |].
  apply getData_loop_extends in Hrun as (k & new & -> & -> & Hlen).
  exists k. split; [done |]. split; [done |].
  intros ab Hab. by apply contents_app_old.
Qed.

Lemma getData_only_allocates_witness :
  exists recs h' k,
    SectionHeader.getData 10 (Symbol.constructor elf_sh_type) (sample_section 1) sample_heap32
      = Ok (recs, h') /\
    h' = sample_heap32 ++ k /\ length k = length recs /\
    forall ab, (ab < length sample_heap32)%nat -> contents h' ab = contents sample_heap32 ab.
Proof.
  eexists _, _.
  assert (Hrun : SectionHeader.getData 10 (Symbol.constructor elf_sh_type)
                   (sample_section 1) sample_heap32 = Ok _) by (vm_compute; reflexivity).
  destruct (getData_only_allocates _ _ _ _ _ _ Hrun) as (k & Hk & Hlen & Hold).
  exists k. split; [exact Hrun |]. split; [exact Hk |]. split; [exact Hlen | exact Hold].
Defined.

(** X1: decoding a file never writes into an ArrayBuffer that exists, the
    given one included: it allocates one ArrayBuffer per section header and
    per program header and leaves the rest of the store as it was. *)
Theorem FromBuffer_only_allocates fuel ab (h : heap) elf h' :
  (ab < length h)%nat ->
  ELF.FromBuffer fuel ab h = Ok (elf, h') ->
  (exists k, h' = h ++ k) /\
  length h' = (length h + length (sectionHeaders elf) + length (programHeaders elf))%nat /\
  forall ab', (ab' < length h)%nat -> contents h' ab' = contents h ab'.
Proof.
  intros Hab Hrun.
  destruct (FromBuffer_inv _ _ _ _ _ Hab Hrun)
    as (s1 & i1 & n1 & s2 & i2 & n2 & -> & -> & _).
  cbn [sectionHeaders programHeaders]. rewrite !length_walked, !length_walked_heap.
  split; [| split; [done |]].
  - unfold walked_heap. rewrite <- app_assoc. eauto.
  - intros ab' Hab'. rewrite !walked_heap_old; [done | done |].
    rewrite length_walked_heap. lia.
Qed.

Lemma FromBuffer_only_allocates_witness :
  length sample_heap32 = (length [file32] + 4 + 0)%nat /\
  forall ab', (ab' < length [file32])%nat -> contents sample_heap32 ab' = contents [file32] ab'.
Proof.
  destruct (FromBuffer_only_allocates 100 0 [file32] _ _ ltac:(cbn; lia) decode_file32)
    as (_ & Hlen & Hold).
  split; [exact Hlen | exact Hold].
Defined.

(** ** Which buffers decode *)

Lemma FromBuffer_no_throw ab (h : heap) shoff shnum shentsize phoff phnum phentsize :
  let header := ELFHeader.FromBuffer (Buffer_from_ArrayBuffer ab h) in
  (ab < length h)%nat ->
  ELFHeader.shoff header h = Ok shoff ->
  ELFHeader.shnum header h = Ok shnum ->
  ELFHeader.shentsize header h = Ok shentsize ->
  ELFHeader.phoff header h = Ok phoff ->
  ELFHeader.phnum header h = Ok phnum ->
  ELFHeader.phentsize header h = Ok phentsize ->
  forall fuel e, ELF.FromBuffer fuel ab h <> Throw e.
Proof.
  intros header Hab Hso Hsn Hse Hpo Hpn Hpe fuel e. unfold ELF.FromBuffer.
  fold header. rewrite Hso. cbn [bind].
  rewrite (sh_loop_walk _ _ _ shoff shnum shentsize) by done.
  match goal with |- context [walk ?f ?l ?s ?b ?m ?i ?r ?hh] =>
    destruct (walk f l s b m i r hh) as [[shs h1]| |] eqn:Hw end;
    cbn [bind]; [| by apply walk_no_throw in Hw | done].
  apply walk_inv in Hw as (n & _ & ->); [| done].
  assert (Hh1 : forall f, header_get f header (walked_heap (Number shentsize)
            (Buffer_from_ArrayBuffer ab h) (Number shoff) h n) = header_get f header h).
  { intros f. unfold walked_heap. by apply header_get_app. }
  change (ELFHeader.phoff header) with (header_get e_phoff header).
  rewrite Hh1. change (header_get e_phoff header h) with (ELFHeader.phoff header h).
  rewrite Hpo. cbn [bind].
  rewrite (ph_loop_walk _ _ _ phoff phnum phentsize);
    [| rewrite length_walked_heap; cbn; lia
     | change (ELFHeader.phoff header) with (header_get e_phoff header); by rewrite Hh1
     | change (ELFHeader.phnum header) with (header_get e_phnum header); by rewrite Hh1
     | change (ELFHeader.phentsize header) with (header_get e_phentsize header);
       by rewrite Hh1].
  match goal with |- context [walk ?f ?l ?s ?b ?m ?i ?r ?hh] =>
    destruct (walk f l s b m i r hh) as [[phs h2]| |] eqn:Hw end;
    cbn [bind]; [done | by apply walk_no_throw in Hw | done].
Qed.

(** A table descriptor of the header is readable exactly when the buffer
    reaches the end of its field. *)
Lemma header_get_readable (this : ELFHeader) f (h : heap) :
  let bs := contents h (view this) in
  let l := spec_header_layout f in
  let is32 := spec_is32bit bs in
  ((if is32 then off32 l else off64 l) + width_bytes is32 (field_width l) <= length bs)%nat ->
  exists v, header_get f this h = Ok v.
Proof.
  intros bs l is32 Hlen. rewrite header_get_spec. fold bs is32 l. unfold spec_read.
  apply Nat.leb_le in Hlen. rewrite Hlen. eauto.
Qed.

Lemma header_get_unreadable (this : ELFHeader) f (h : heap) :
  let bs := contents h (view this) in
  let l := spec_header_layout f in
  let is32 := spec_is32bit bs in
  (length bs < (if is32 then off32 l else off64 l) + width_bytes is32 (field_width l))%nat ->
  header_get f this h = Throw RangeError.
Proof.
  intros bs l is32 Hlen. rewrite header_get_spec. fold bs is32 l. unfold spec_read.
  apply Nat.leb_gt in Hlen. by rewrite Hlen.
Qed.

Lemma idx_stall step i j : js_add i step = i -> idx step i j = i.
Proof. intros Hs. induction j as [|j IH]; [done |]. cbn [idx]. by rewrite IH. Qed.

Lemma table_count_le N s : (table_count N s <= Z.to_nat N)%nat.
Proof. unfold table_count. case_match; lia. Qed.

(** X3: [FromBuffer] throws exactly when the buffer ends before the
    section count, the last table descriptor of the header: below 50 bytes
    for the 32-bit class and below 62 bytes for any other class byte the
    call fails with a RangeError as soon as the loop may run; from that
    length on the six descriptors are readable and the call never throws,
    nothing else being checked.  It then returns when both table extents,
    offset + count * entry size, are within the safe integers.  Beyond
    them it may not return: when adding the entry size to the section
    table offset gives the offset again, and the bound lies above it, the
    first loop never ends. *)
Theorem FromBuffer_accepts_by_length ab (h : heap) :
  (ab < length h)%nat ->
  let bs := contents h ab in
  let header := ELFHeader.FromBuffer (Buffer_from_ArrayBuffer ab h) in
  ((length bs < min_length (spec_is32bit bs))%nat ->
   forall fuel, ELF.FromBuffer (S fuel) ab h = Throw RangeError) /\
  ((min_length (spec_is32bit bs) <= length bs)%nat ->
   exists shoff shnum shentsize phoff phnum phentsize,
     (ELFHeader.shoff header h = Ok shoff /\
      ELFHeader.shnum header h = Ok shnum /\
      ELFHeader.shentsize header h = Ok shentsize /\
      ELFHeader.phoff header h = Ok phoff /\
      ELFHeader.phnum header h = Ok phnum /\
      ELFHeader.phentsize header h = Ok phentsize) /\
     (forall fuel e, ELF.FromBuffer fuel ab h <> Throw e) /\
     (raw shoff + raw shnum * raw shentsize <= 2 ^ 53 ->
      raw phoff + raw phnum * raw phentsize <= 2 ^ 53 ->
      forall fuel, (Z.to_nat (raw shnum) < fuel)%nat -> (Z.to_nat (raw phnum) < fuel)%nat ->
      exists elf h', ELF.FromBuffer fuel ab h = Ok (elf, h')) /\
     (js_add (Number shoff) (Number shentsize) = Number shoff ->
      Number shoff < js_add (Number shoff) (js_mul (Number shnum) (Number shentsize)) ->
      forall fuel, ELF.FromBuffer fuel ab h = OutOfFuel)).
Proof.
  intros Hab bs header.
  assert (Hv : contents h (view header) = bs) by done.
  split.
  - intros Hshort fuel.
    assert (Hsn : ELFHeader.shnum header h = Throw RangeError).
    { apply (header_get_unreadable header e_shnum). rewrite Hv.
      unfold min_length in Hshort. destruct (spec_is32bit bs); cbn in *; lia. }
    unfold ELF.FromBuffer. fold header.
    destruct (ELFHeader.shoff header h) as [shoff|e|] eqn:Hso; cbn [bind].
    + cbn [ELF.sh_loop]. rewrite Hso. cbn [bind]. by rewrite Hsn.
    + change (ELFHeader.shoff header h) with (header_get e_shoff header h) in Hso.
      rewrite header_get_spec in Hso. unfold spec_read in Hso.
      destruct (_ <=? _)%nat; [done |]. by injection Hso as <-.
    + change (ELFHeader.shoff header h) with (header_get e_shoff header h) in Hso.
      rewrite header_get_spec in Hso. by apply spec_read_not_OutOfFuel in Hso.
  - intros Hlong.
    assert (Hall : forall f,
      In f [e_shoff; e_shnum; e_shentsize; e_phoff; e_phnum; e_phentsize] ->
      exists v, header_get f header h = Ok v).
    { intros f Hf. apply header_get_readable. rewrite Hv. unfold min_length in Hlong.
      cbn [In] in Hf.
      destruct Hf as [<-|[<-|[<-|[<-|[<-|[<-|[]]]]]]];
        destruct (spec_is32bit bs); cbn in *; lia. }
    destruct (Hall e_shoff) as [so Hso]; [cbn; tauto |].
    destruct (Hall e_shnum) as [sn Hsn]; [cbn; tauto |].
    destruct (Hall e_shentsize) as [se Hse]; [cbn; tauto |].
    destruct (Hall e_phoff) as [po Hpo]; [cbn; tauto |].
    destruct (Hall e_phnum) as [pn Hpn]; [cbn; tauto |].
    destruct (Hall e_phentsize) as [pe Hpe]; [cbn; tauto |].
    cbn [header_get] in Hso, Hsn, Hse, Hpo, Hpn, Hpe.
    exists so, sn, se, po, pn, pe. split; [done |]. split; [| split].
    + by apply (FromBuffer_no_throw ab h so sn se po pn pe).
    + intros Hsb Hpb fuel Hf1 Hf2.
      pose proof (table_count_le (raw sn) (raw se)).
      pose proof (table_count_le (raw pn) (raw pe)).
      eexists _, _.
      apply (FromBuffer_spec fuel ab h so sn se po pn pe); try done; lia.
    + intros Hstall Hbound fuel. unfold ELF.FromBuffer. fold header.
      rewrite Hso. cbn [bind].
      rewrite (sh_loop_walk _ header _ so sn se) by done.
      rewrite walk_diverges; [done |].
      intros j. rewrite idx_stall by done. by apply Z.ltb_lt.
Qed.

Lemma FromBuffer_accepts_by_length_witness :
  ELF.FromBuffer 1 0 [take 49 file32] = Throw RangeError /\
  (exists elf h', ELF.FromBuffer 100 0 [file32] = Ok (elf, h')) /\
  (forall fuel, ELF.FromBuffer fuel 0 [file64_far_table] = OutOfFuel).
Proof.
  split; [| split].
  - apply (FromBuffer_accepts_by_length 0 [take 49 file32]); [cbn; lia |].
    vm_compute. lia.
  - destruct (FromBuffer_accepts_by_length 0 [file32] ltac:(cbn; lia)) as [_ Hlong].
    destruct (Hlong ltac:(vm_compute; lia))
      as (so & sn & se & po & pn & pe & (Hso & Hsn & Hse & Hpo & Hpn & Hpe) & _ & Hret & _).
    vm_compute in Hso, Hsn, Hse, Hpo, Hpn, Hpe.
    injection Hso as <-. injection Hsn as <-. injection Hse as <-.
    injection Hpo as <-. injection Hpn as <-. injection Hpe as <-.
    apply Hret; cbn; lia.
  - destruct (FromBuffer_accepts_by_length 0 [file64_far_table] ltac:(cbn; lia))
      as [_ Hlong].
    destruct (Hlong ltac:(vm_compute; lia))
      as (so & sn & se & po & pn & pe & (Hso & Hsn & Hse & _) & _ & _ & Hdiv).
    vm_compute in Hso, Hsn, Hse.
    injection Hso as <-. injection Hsn as <-. injection Hse as <-.
    apply Hdiv; vm_compute; reflexivity.
Defined.

(** ** What the getters return *)

Lemma spec_read_fits bs is32 le l v :
  spec_read bs is32 le l = Ok v -> fits_width is32 (field_width l) v = true.
Proof.
  unfold spec_read. case_match eqn:E; [| done]. intros [= <-].
  apply Nat.leb_le in E.
  pose proof (decode_range le
    (take (width_bytes is32 (field_width l)) (drop (if is32 then off32 l else off64 l) bs))) as Hr.
  rewrite length_take, length_drop, Nat.min_l in Hr by lia.
  unfold fits_width.
  destruct (field_width l), is32; cbn [width_bytes negb andb] in *;
    apply andb_true_intro; (split; [apply Z.leb_le | apply Z.ltb_lt]); try lia.
  all: first [ change (256 ^ Z.of_nat 1) with (2 ^ 8) in Hr
             | change (256 ^ Z.of_nat 2) with (2 ^ 16) in Hr
             | change (256 ^ Z.of_nat 4) with (2 ^ 32) in Hr
             | change (256 ^ Z.of_nat 8) with (2 ^ 64) in Hr ]; lia.
Qed.

Lemma spec_read_element_fits (this : Element) l (h : heap) v :
  spec_read_element this l h = Ok v ->
  exists is32, is32bit this h = Ok is32 /\ fits_width is32 (field_width l) v = true.
Proof.
  unfold spec_read_element. cbn [is32bit Element_element].
  destruct (elf this) as [e|]; [| done].
  rewrite header_is32bit. unfold view. cbn [el_buffer ELFHeader.element].
  case_match; [| done]. intros Hr%spec_read_fits. eauto.
Qed.

Lemma fits_intro a v (h : heap) is32 :
  accessor_is32bit a h = Ok is32 ->
  fits_width is32 (field_width (accessor_layout a)) v = true ->
  accessor_enabled a = true ->
  fits a v h = true.
Proof. unfold fits. by intros -> -> ->. Qed.

(** The addend of a relocation that carries none is the one accessor that
    does not touch the store. *)
Lemma disabled_accessor a (h : heap) :
  accessor_enabled a = false ->
  (accessor_get a h = Ok Undefined \/ accessor_get a h = Ok (Boolean false)) /\
  (forall h', accessor_get a h' = accessor_get a h) /\
  (forall v, accessor_set a v h = Ok h).
Proof.
  destruct a as [this f|this f|this f|this f|this f|this f]; try done.
  destruct f; try done. cbn [accessor_enabled accessor_get accessor_set rel_get rel_set].
  unfold Rel.added, Rel.set_added. destruct (needsAddend this) as [[|]|]; try done; auto.
Qed.

(** X4: whatever a getter returns fits its field: a number below 2^8,
    2^16 or 2^32 for the fixed widths and, for a native word, a number
    below 2^32 in a 32-bit file and a bigint below 2^64 in a 64-bit file.
    The one exception is the addend of a relocation whose [needsAddend] is
    not true: its getter returns undefined or false, whatever the store
    holds, and that fits no field. *)
Theorem getters_return_fitting_values (a : accessor) (h : heap) v :
  accessor_get a h = Ok v ->
  (accessor_enabled a = true -> fits a v h = true) /\
  (accessor_enabled a = false ->
   (v = Undefined \/ v = Boolean false) /\ fits a v h = false /\
   forall h', accessor_get a h' = Ok v).
Proof.
  intros Hget. split.
  2: { intros Hen. destruct (disabled_accessor a h Hen) as (Hv & Hsame & _).
       split; [destruct Hv as [Hv|Hv]; rewrite Hv in Hget; injection Hget as <-; auto |].
       split; [| intros h'; by rewrite Hsame].
       unfold fits. rewrite Hen. case_match; [apply andb_false_r | done | done]. }
  intros Hen.
  destruct a as [this f|this f|this f|this f|this f|this f];
    cbn [accessor_get] in Hget.
  - pose proof (header_get_Ok_ident _ _ _ _ Hget) as Hlen%Nat.leb_le.
    rewrite header_get_spec in Hget. apply spec_read_fits in Hget.
    eapply fits_intro; [| exact Hget | done].
    cbn [accessor_is32bit]. by rewrite header_is32bit, Hlen.
  - rewrite ph_get_spec in Hget.
    apply spec_read_element_fits in Hget as (is32 & H32 & Hf).
    by apply (fits_intro _ _ _ is32).
  - rewrite sym_get_spec in Hget.
    apply spec_read_element_fits in Hget as (is32 & H32 & Hf).
    by apply (fits_intro _ _ _ is32).
  - rewrite rel_get_spec in Hget by done.
    apply spec_read_element_fits in Hget as (is32 & H32 & Hf).
    by apply (fits_intro _ _ _ is32).
  - rewrite dyn_get_spec in Hget.
    apply spec_read_element_fits in Hget as (is32 & H32 & Hf).
    by apply (fits_intro _ _ _ is32).
  - rewrite note_get_spec in Hget.
    apply spec_read_element_fits in Hget as (is32 & H32 & Hf).
    by apply (fits_intro _ _ _ is32).
Qed.

Lemma getters_return_fitting_values_witness :
  fits (OfProgramHeader sample_program p_offset) (Big 0x1000) sample_heap64 = true /\
  fits (OfRel (mkRel sample_program None) r_added) Undefined sample_heap64 = false.
Proof.
  split.
  - apply (proj1 (getters_return_fitting_values
                    (OfProgramHeader sample_program p_offset) sample_heap64 (Big 0x1000)
                    eq_refl)).
    reflexivity.
  - apply (proj2 (getters_return_fitting_values
                    (OfRel (mkRel sample_program None) r_added) sample_heap64 Undefined
                    eq_refl)).
    reflexivity.
Defined.

Lemma spec_read_element_readable (this : Element) e l (h : heap) :
  elf this = Some e ->
  let file := contents h (buffer (header_buffer (elf_header e))) in
  let is32 := spec_is32bit file in
  (9 <= length file)%nat ->
  ((if is32 then off32 l else off64 l) + width_bytes is32 (field_width l)
   <= length (contents h (buffer (element_buffer this))))%nat ->
  exists v, spec_read_element this l h = Ok v.
Proof.
  intros He file is32 Hid Hlen. unfold spec_read_element. rewrite He.
  fold file. apply Nat.leb_le in Hid. rewrite Hid. fold is32. unfold spec_read.
  apply Nat.leb_le in Hlen. rewrite Hlen. eauto.
Qed.

(** X5: an element whose buffer has the size of its record (section
    header 40 or 64 bytes, program header 32 or 56, symbol 16 or 24, for a
    32-bit or a 64-bit file) has every field readable: no getter of it
    throws. *)
Theorem full_size_elements_are_readable (this : Element) e (h : heap) :
  elf this = Some e ->
  let file := contents h (view (elf_header e)) in
  let size := length (contents h (view this)) in
  (9 <= length file)%nat ->
  (((if spec_is32bit file then 40 else 64) <= size)%nat ->
   forall f, exists v, sh_get f this h = Ok v) /\
  (((if spec_is32bit file then 32 else 56) <= size)%nat ->
   forall f, exists v, ph_get f this h = Ok v) /\
  (((if spec_is32bit file then 16 else 24) <= size)%nat ->
   forall f, exists v, sym_get f this h = Ok v).
Proof.
  intros He file size Hid. unfold file, size, view in *.
  cbn [el_buffer ELFHeader.element Element_element] in *.
  repeat split; intros Hsz f;
    rewrite ?sh_get_spec, ?ph_get_spec, ?sym_get_spec;
    apply (spec_read_element_readable this e); try done;
    destruct f, (spec_is32bit _); cbn in *; lia.
Qed.

Lemma full_size_elements_are_readable_witness :
  exists v, sh_get sh_entsize (sample_section 1) sample_heap32 = Ok v.
Proof.
  destruct (full_size_elements_are_readable (sample_section 1) sample_ref32 sample_heap32
              eq_refl ltac:(vm_compute; lia)) as (Hsh & _ & _).
  apply Hsh. vm_compute. lia.
Defined.

(** ** Writing one field and reading another *)

(** A read above the written window sees the old bytes. *)
Lemma getUint_setUint_above w dv o v le (h h' : heap) w' o' le' :
  (0 < w)%nat -> setUint w dv o v le h = Ok h' -> (o + w <= o')%nat ->
  getUint w' dv o' le' h' = getUint w' dv o' le' h.
Proof.
  intros Hw Hs Hge. unfold getUint.
  rewrite (setUint_contents_length _ _ _ _ _ _ _ Hw Hs).
  rewrite (setUint_contents _ _ _ _ _ _ _ Hw Hs).
  apply setUint_inv in Hs as [Hb _].
  case_match; [| done]. do 3 f_equal.
  rewrite drop_app_ge by (rewrite length_take; lia).
  rewrite drop_app_ge by (rewrite length_take, length_encode; lia).
  rewrite length_take, length_encode, drop_drop. f_equal. lia.
Qed.

(** With a value that fits, the setter writes the bytes of the field under
    the file's word width. *)
Lemma layout_write_fits_inv dv is32 le l v (h h' : heap) :
  fits_width is32 (field_width l) v = true ->
  layout_write dv is32 le l v h = Ok h' ->
  exists z le',
    setUint (width_bytes is32 (field_width l)) dv (if is32 then off32 l else off64 l)
      z le' h = Ok h'.
Proof.
  unfold layout_write, fits_width, setUint8, setUint16, setUint32, setBigUint64.
  destruct (field_width l), v as [z|z| |]; try done; cbn [width_bytes];
    intros Hfit Hw; cbn [typeof_number ToNumber ToBigInt bind] in Hw; eauto.
  - apply andb_prop in Hfit as [[-> _]%andb_prop _]. eauto.
  - apply andb_prop in Hfit as [[->%negb_true_iff _]%andb_prop _]. eauto.
Qed.

Lemma layout_write_read_other dv is32 le le' l l' v (h h' : heap) :
  fits_width is32 (field_width l) v = true ->
  regions_disjoint is32 l l' = true ->
  layout_write dv is32 le l v h = Ok h' ->
  spec_read (contents h' dv) is32 le' l' = spec_read (contents h dv) is32 le' l'.
Proof.
  intros Hfit Hdis (z & le0 & Hw)%layout_write_fits_inv; [| done].
  rewrite !spec_read_getUint.
  assert (Hpos : (0 < width_bytes is32 (field_width l))%nat)
    by (destruct (field_width l), is32; cbn; lia).
  unfold regions_disjoint in Hdis.
  apply orb_prop in Hdis as [Hd%Nat.leb_le|Hd%Nat.leb_le].
  - by rewrite (getUint_setUint_above _ _ _ _ _ _ _ _ _ _ Hpos Hw Hd).
  - by rewrite (getUint_setUint_below _ _ _ _ _ _ _ _ _ _ Hpos Hw Hd).
Qed.

Lemma header_fields_disjoint is32 f g :
  f <> g -> regions_disjoint is32 (spec_header_layout f) (spec_header_layout g) = true.
Proof. destruct f, g, is32; intros Hne; try congruence; reflexivity. Qed.

Lemma ph_fields_disjoint is32 f g :
  f <> g -> regions_disjoint is32 (spec_ph_layout f) (spec_ph_layout g) = true.
Proof. destruct f, g, is32; intros Hne; try congruence; reflexivity. Qed.

Lemma sym_fields_disjoint is32 f g :
  f <> g -> regions_disjoint is32 (spec_sym_layout f) (spec_sym_layout g) = true.
Proof. destruct f, g, is32; intros Hne; try congruence; reflexivity. Qed.

(** X6: in the file header, writing a value that fits one field leaves
    what every other field reads unchanged: the thirteen fields do not
    overlap, under either word width. *)
Theorem header_set_keeps_other_fields (this : ELFHeader) f g v (h h' : heap) :
  f <> g ->
  fits (OfHeader this f) v h = true ->
  header_set f this v h = Ok h' ->
  header_get g this h' = header_get g this h.
Proof.
  intros Hne. unfold fits. cbn [accessor_is32bit accessor_layout accessor_enabled].
  rewrite header_is32bit, header_set_spec, !header_get_spec.
  destruct (Nat.leb_spec 9 (length (contents h (view this)))) as [Hlen|]; [| done].
  rewrite andb_true_r. intros Hfit Hw.
  assert (H4 : spec_is32bit (contents h' (view this)) = spec_is32bit (contents h (view this))).
  { unfold spec_is32bit. f_equal.
    apply (layout_write_below _ _ _ _ _ _ _ 4%nat Hw); destruct f; cbn; lia. }
  assert (H5 : spec_isLE (contents h' (view this)) = spec_isLE (contents h (view this))).
  { unfold spec_isLE. f_equal.
    apply (layout_write_below _ _ _ _ _ _ _ 5%nat Hw); destruct f; cbn; lia. }
  rewrite H4, H5.
  eapply layout_write_read_other; [exact Hfit | | exact Hw].
  by apply header_fields_disjoint.
Qed.

Lemma header_set_keeps_other_fields_witness :
  exists h',
    header_set e_phnum (mkELFHeader (mkBuffer 0 0 120)) (Num 3) [file64] = Ok h' /\
    header_get e_phentsize (mkELFHeader (mkBuffer 0 0 120)) h' =
    header_get e_phentsize (mkELFHeader (mkBuffer 0 0 120)) [file64].
Proof.
  eexists. split; [vm_compute; reflexivity |].
  apply (header_set_keeps_other_fields _ e_phnum e_phentsize (Num 3));
    [discriminate | reflexivity | vm_compute; reflexivity].
Defined.

Lemma element_write_read_other (this : Element) l l' v (h h' : heap) is32 :
  apart this = true ->
  is32bit this h = Ok is32 ->
  fits_width is32 (field_width l) v = true ->
  regions_disjoint is32 l l' = true ->
  element_write this l v h = Ok h' ->
  spec_read_element this l' h' = spec_read_element this l' h.
Proof.
  unfold apart, element_write, spec_read_element.
  cbn [is32bit Element_element].
  destruct (elf this) as [e|]; [| done].
  rewrite header_is32bit. unfold view. cbn [el_buffer ELFHeader.element].
  intros Hap%negb_true_iff%Nat.eqb_neq.
  match goal with
  | |- context [(9 <=? ?n)%nat] => destruct (Nat.leb_spec 9 n) as [Hlen|]
  end; [| done].
  intros [= <-] Hfit Hdis Hw.
  rewrite (layout_write_frame _ _ _ _ _ _ _ _ Hw Hap).
  apply Nat.leb_le in Hlen. rewrite Hlen.
  eapply layout_write_read_other; [exact Hfit | exact Hdis | exact Hw].
Qed.

(** X7: in a program header and in a symbol, writing a value that fits
    one field leaves what every other field of that element reads
    unchanged, under either word width (the program header's flags lie
    between filesz and align in one layout, after the type in the other). *)
Theorem element_set_keeps_other_fields (this : Element) v (h h' : heap) :
  apart this = true ->
  (forall f g, f <> g ->
     fits (OfProgramHeader this f) v h = true ->
     ph_set f this v h = Ok h' -> ph_get g this h' = ph_get g this h) /\
  (forall f g, f <> g ->
     fits (OfSymbol this f) v h = true ->
     sym_set f this v h = Ok h' -> sym_get g this h' = sym_get g this h).
Proof.
  intros Hap. split; intros f g Hne; unfold fits;
    cbn [accessor_is32bit accessor_layout accessor_enabled];
    match goal with
    | |- match ?x with _ => _ end = _ -> _ => destruct x as [is32| |] eqn:H32
    end; try done;
    rewrite andb_true_r; intros Hfit.
  - rewrite ph_set_spec, !ph_get_spec.
    apply (element_write_read_other this _ _ v h h' is32); try done.
    by apply ph_fields_disjoint.
  - rewrite sym_set_spec, !sym_get_spec.
    apply (element_write_read_other this _ _ v h h' is32); try done.
    by apply sym_fields_disjoint.
Qed.

Lemma element_set_keeps_other_fields_witness :
  exists h',
    ph_set p_flags sample_program (Num 7) sample_heap64 = Ok h' /\
    ph_get p_type sample_program h' = ph_get p_type sample_program sample_heap64.
Proof.
  eexists. split; [vm_compute; reflexivity |].
  apply (proj1 (element_set_keeps_other_fields sample_program (Num 7) sample_heap64 _
                  eq_refl) p_flags p_type);
    [discriminate | reflexivity | vm_compute; reflexivity].
Defined.

(** ** Writing back what was read *)

Lemma byte_of_to_Z b : byte_of_Z (byte_to_Z b) = b.
Proof.
  unfold byte_of_Z. pose proof (byte_to_Z_range b).
  rewrite Z.mod_small by done. unfold byte_to_Z.
  by rewrite N2Z.id, Byte.of_to_N.
Qed.

Lemma le_encode_decode bs : le_encode (length bs) (le_decode bs) = bs.
Proof.
  induction bs as [|b bs IH]; [done |].
  cbn [length le_encode le_decode]. pose proof (byte_to_Z_range b).
  f_equal.
  - unfold byte_of_Z.
    replace ((byte_to_Z b + 256 * le_decode bs) mod 256) with (byte_to_Z b mod 256).
    + apply byte_of_to_Z.
    + rewrite (Z.mul_comm 256), Z.mod_add by lia. done.
  - replace ((byte_to_Z b + 256 * le_decode bs) / 256) with (le_decode bs); [done |].
    rewrite (Z.mul_comm 256), Z.div_add, Z.div_small by lia. lia.
Qed.

Lemma encode_decode le n bs : length bs = n -> encode le n (decode le bs) = bs.
Proof.
  intros <-. unfold encode, decode. destruct le; [apply le_encode_decode |].
  rewrite <- (length_rev bs), le_encode_decode. apply rev_involutive.
Qed.

(** Storing the bytes that are there leaves the store as it is. *)
Lemma setUint_same w dv o le le' (h : heap) z :
  (0 < w)%nat ->
  getUint w dv o le h = Ok z -> (le' = le \/ w = 1%nat) ->
  setUint w dv o z le' h = Ok h.
Proof.
  intros Hw Hget Hle. unfold getUint in Hget. unfold setUint.
  destruct (Nat.leb_spec (o + w) (length (contents h dv))) as [Hb|]; [| done].
  injection Hget as <-. f_equal.
  assert (Hl : length (take w (drop o (contents h dv))) = w)
    by (rewrite length_take, length_drop; lia).
  assert (He : encode le' w (decode le (take w (drop o (contents h dv))))
               = take w (drop o (contents h dv))).
  { destruct Hle as [->| ->]; [by apply encode_decode |].
    rewrite (decode_byte le), <- (decode_byte le'). by apply encode_decode. }
  rewrite He.
  assert (Hwhole : take o (contents h dv) ++ take w (drop o (contents h dv)) ++
                   drop (o + w) (contents h dv) = contents h dv).
  { rewrite <- drop_drop, take_drop. apply take_drop. }
  rewrite Hwhole. unfold contents in *.
  match goal with
  | |- context [default [] ?x] => destruct x as [bs|] eqn:Hdv
  end; cbn [default] in *.
  - by apply list_insert_id.
  - cbn in Hb. lia.
Qed.

Lemma layout_write_back dv is32 le l v (h : heap) :
  spec_read (contents h dv) is32 le l = Ok v ->
  layout_write dv is32 le l v h = Ok h.
Proof.
  rewrite spec_read_getUint.
  destruct (getUint _ dv _ le h) as [z| |] eqn:Hget; cbn [bind]; [| done | done].
  intros [= <-]. unfold layout_write, setUint8, setUint16, setUint32, setBigUint64.
  destruct (field_width l), is32; cbn [width_bytes typeof_number ToNumber ToBigInt bind] in *;
    apply (setUint_same _ _ _ le); auto; lia.
Qed.

(** X8: assigning to a field the value its getter has just returned
    changes nothing: the store after the setter is the store before it.
    This holds for every field with a setter, for both word widths and
    both byte orders. *)
Theorem write_back_changes_nothing (a : accessor) (h : heap) v :
  accessor_get a h = Ok v -> accessor_set a v h = Ok h.
Proof.
  destruct a as [this f|this f|this f|this f|this f|this f];
    cbn [accessor_get accessor_set]; intros Hget.
  - pose proof (header_get_Ok_ident _ _ _ _ Hget) as Hlen%Nat.leb_le.
    rewrite header_set_spec, Hlen. rewrite header_get_spec in Hget.
    by apply layout_write_back.
  - rewrite ph_set_spec. rewrite ph_get_spec in Hget.
    unfold spec_read_element, element_write in *.
    destruct (elf this); [| done]. case_match; [| done]. by apply layout_write_back.
  - rewrite sym_set_spec. rewrite sym_get_spec in Hget.
    unfold spec_read_element, element_write in *.
    destruct (elf this); [| done]. case_match; [| done]. by apply layout_write_back.
  - rewrite rel_set_spec.
    destruct (accessor_enabled (OfRel this f)) eqn:Hen; [| done].
    rewrite rel_get_spec in Hget by done.
    unfold spec_read_element, element_write in *.
    destruct (elf (rel_element this)); [| done]. case_match; [| done].
    by apply layout_write_back.
  - rewrite dyn_set_spec. rewrite dyn_get_spec in Hget.
    unfold spec_read_element, element_write in *.
    destruct (elf this); [| done]. case_match; [| done]. by apply layout_write_back.
  - rewrite note_set_spec. rewrite note_get_spec in Hget.
    unfold spec_read_element, element_write in *.
    destruct (elf this); [| done]. case_match; [| done]. by apply layout_write_back.
Qed.

Lemma write_back_changes_nothing_witness :
  accessor_set (OfHeader (mkELFHeader (mkBuffer 0 0 120)) e_entry) (Big 0x401000) [file64]
  = Ok [file64].
Proof. apply write_back_changes_nothing. reflexivity. Defined.

(** ** Flag tests *)

Lemma ToInt32_range x : - 2 ^ 31 <= ToInt32 x < 2 ^ 31.
Proof. unfold ToInt32. pose proof (Z.mod_pos_bound (x + 2 ^ 31) (2 ^ 32)). lia. Qed.

Lemma ToInt32_mod x : ToInt32 x mod 2 ^ 31 = x mod 2 ^ 31.
Proof.
  unfold ToInt32. rewrite (Z.mod_eq (x + 2 ^ 31) (2 ^ 32)) by lia.
  replace (x + 2 ^ 31 - 2 ^ 32 * ((x + 2 ^ 31) / 2 ^ 32) - 2 ^ 31)
    with (x + (- 2 * ((x + 2 ^ 31) / 2 ^ 32)) * 2 ^ 31) by lia.
  apply Z.mod_add. lia.
Qed.

Lemma testbit_high b n : 0 <= b < 2 ^ 31 -> 31 <= n -> Z.testbit b n = false.
Proof.
  intros Hb Hn. rewrite <- (Z.mod_small b (2 ^ 31)) by lia.
  apply Z.mod_pow2_bits_high. lia.
Qed.

(** Only the low 31 bits of [a] matter against a mask below 2^31. *)
Lemma land_low a b : 0 <= b < 2 ^ 31 -> Z.land a b = Z.land (a mod 2 ^ 31) b.
Proof.
  intros Hb. apply Z.bits_inj'. intros n Hn. rewrite !Z.land_spec.
  destruct (Z.lt_ge_cases n 31) as [Hlt|Hge].
  - by rewrite Z.mod_pow2_bits_low.
  - by rewrite (testbit_high b n), !andb_false_r.
Qed.

Lemma land_bound a b : 0 <= b < 2 ^ 31 -> 0 <= Z.land a b < 2 ^ 31.
Proof.
  intros Hb.
  assert (Hm : Z.land a b = Z.land a b mod 2 ^ 31).
  { apply Z.bits_inj'. intros n Hn. rewrite Z.testbit_mod_pow2 by lia.
    destruct (Z.ltb_spec n 31) as [Hlt|Hge]; [done |].
    by rewrite Z.land_spec, (testbit_high b n), andb_false_r. }
  rewrite Hm. apply Z.mod_pos_bound. lia.
Qed.

Lemma js_and_lt a b : js_and a b < 2 ^ 31.
Proof.
  unfold js_and. pose proof (ToInt32_range a). pose proof (ToInt32_range b).
  destruct (Z.neg_nonneg_cases (ToInt32 a)) as [Ha|Ha];
    [destruct (Z.neg_nonneg_cases (ToInt32 b)) as [Hb|Hb] |].
  - assert (Z.land (ToInt32 a) (ToInt32 b) < 0) by (apply Z.land_neg; lia). lia.
  - apply land_bound. lia.
  - rewrite Z.land_comm. apply land_bound. lia.
Qed.

(** [(a & b) == b] for a non-negative [b]: the test can only succeed for a
    mask below 2^31, and then it looks at the bits of [a] under the mask. *)
Lemma js_and_test a b :
  0 <= b -> (js_and a b =? b) = (b <? 2 ^ 31) && (Z.land a b =? b).
Proof.
  intros Hb. destruct (Z.ltb_spec b (2 ^ 31)) as [Hlt|Hge]; cbn [andb].
  - unfold js_and. rewrite (ToInt32_small b) by lia.
    by rewrite (land_low (ToInt32 a)), ToInt32_mod, <- land_low by lia.
  - pose proof (js_and_lt a b). apply Z.eqb_neq. lia.
Qed.

(** X9: [hasFlag(flag)], on a program header and on a section header, for
    a flag that is undefined or whose number is not negative: the answer
    is false for an undefined flag (its number is NaN) and for every flag
    value from 2^31 on, whatever the flags field holds (the [&] yields a
    signed 32-bit integer); for a flag below 2^31 it tells whether every
    bit of the flag is set in the flags field as a number. *)
Theorem hasFlag_tests_bits_below_2_31 (this : Element) (flag fl : jsval) (h : heap) :
  0 <= Number flag ->
  (ProgramHeader.flags this h = Ok fl ->
   ProgramHeader.hasFlag this flag h =
   Ok (negb (Number_is_NaN flag) && (Number flag <? 2 ^ 31) &&
       (Z.land (Number fl) (Number flag) =? Number flag))) /\
  (SectionHeader.flags this h = Ok fl ->
   SectionHeader.hasFlag this flag h =
   Ok (negb (Number_is_NaN flag) && (Number flag <? 2 ^ 31) &&
       (Z.land (Number fl) (Number flag) =? Number flag))).
Proof.
  intros Hflag. unfold ProgramHeader.hasFlag, SectionHeader.hasFlag.
  split; intros ->; cbn [bind]; f_equal;
    rewrite <- andb_assoc; f_equal; by apply js_and_test.
Qed.

Lemma hasFlag_tests_bits_below_2_31_witness :
  ProgramHeader.hasFlag sample_program (Num 4) sample_heap64 = Ok true /\
  ProgramHeader.hasFlag sample_program (Num 0xf0000000) sample_heap64 = Ok false /\
  ProgramHeader.hasFlag sample_program Undefined sample_heap64 = Ok false.
Proof.
  split; [| split].
  - apply (proj1 (hasFlag_tests_bits_below_2_31 sample_program (Num 4) (Num 5)
                    sample_heap64 ltac:(cbn; lia))).
    reflexivity.
  - apply (proj1 (hasFlag_tests_bits_below_2_31 sample_program (Num 0xf0000000) (Num 5)
                    sample_heap64 ltac:(cbn; lia))).
    reflexivity.
  - apply (proj1 (hasFlag_tests_bits_below_2_31 sample_program Undefined (Num 5)
                    sample_heap64 ltac:(cbn; lia))).
    reflexivity.
Defined.

(** ** The content window of a section and of a segment *)

Lemma adjustOffset_le x len : (adjustOffset x len <= len)%nat.
Proof. unfold adjustOffset. case_match; lia. Qed.

Lemma slice_inside b s e :
  buffer (slice b s e) = buffer b /\
  (byteOffset b <= byteOffset (slice b s e))%nat /\
  (byteOffset (slice b s e) + byteLength (slice b s e) <= byteOffset b + byteLength b)%nat.
Proof.
  unfold slice. cbn [buffer byteOffset byteLength].
  pose proof (adjustOffset_le s (byteLength b)).
  pose proof (adjustOffset_le e (byteLength b)). lia.
Qed.

(** X10: the [value] of a section header and of a program header is a
    window on the memory of the file's buffer, not a copy, and it never
    reaches outside the file's window, whatever offset and size the header
    holds. *)
Theorem value_is_a_window_on_the_file (this : Element) e (h : heap) w :
  elf this = Some e ->
  SectionHeader.value this h = Ok w \/ ProgramHeader.value this h = Ok w ->
  buffer w = buffer (elf_buffer e) /\
  (byteOffset (elf_buffer e) <= byteOffset w)%nat /\
  (byteOffset w + byteLength w <= byteOffset (elf_buffer e) + byteLength (elf_buffer e))%nat.
Proof.
  unfold SectionHeader.value, ProgramHeader.value. intros ->.
  intros [Hv|Hv];
    repeat match type of Hv with
           | bind ?m _ = _ => destruct m; cbn [bind] in Hv; try done
           end;
    injection Hv as <-; apply slice_inside.
Qed.

Lemma value_is_a_window_on_the_file_witness :
  exists w, SectionHeader.value (sample_section 1) sample_heap32 = Ok w /\
            buffer w = 0%nat /\ (0 <= byteOffset w)%nat /\
            (byteOffset w + byteLength w <= 0 + 256)%nat.
Proof.
  eexists. split; [vm_compute; reflexivity |].
  apply (value_is_a_window_on_the_file (sample_section 1) sample_ref32 sample_heap32 _
           eq_refl).
  left. vm_compute. reflexivity.
Defined.

(** X11: when the file's buffer lies inside its memory and offset + size
    stays below 2^31, the [value] of a section header is the window of
    [size] bytes at [offset] of the file, cut at the end of the file; the
    same holds for a program header with its [filesz]. *)
Theorem value_bytes (this : Element) e (h : heap) ov sv :
  elf this = Some e ->
  well_formed (elf_buffer e) h ->
  numeric ov -> numeric sv -> 0 <= raw ov -> 0 <= raw sv -> raw ov + raw sv < 2 ^ 31 ->
  (SectionHeader.offset this h = Ok ov -> SectionHeader.size this h = Ok sv ->
   exists w, SectionHeader.value this h = Ok w /\
     bytes_of w h = take (Z.to_nat (raw sv)) (drop (Z.to_nat (raw ov)) (bytes_of (elf_buffer e) h))) /\
  (ProgramHeader.offset this h = Ok ov -> ProgramHeader.filesz this h = Ok sv ->
   exists w, ProgramHeader.value this h = Ok w /\
     bytes_of w h = take (Z.to_nat (raw sv)) (drop (Z.to_nat (raw ov)) (bytes_of (elf_buffer e) h))).
Proof.
  intros He Hwf Hno Hns Ho Hs Hlt.
  assert (HNo : Number ov = raw ov) by (apply Number_exact; [done | lia]).
  assert (HNs : Number sv = raw sv) by (apply Number_exact; [done | lia]).
  unfold SectionHeader.value, ProgramHeader.value. rewrite He.
  split; intros -> ->; cbn [bind]; eexists; (split; [reflexivity |]);
    rewrite HNo, HNs, js_add_exact by lia;
    rewrite bytes_of_slice by (done || lia); do 2 f_equal; lia.
Qed.

Lemma value_bytes_witness :
  exists w, SectionHeader.value (sample_section 1) sample_heap32 = Ok w /\
    bytes_of w sample_heap32 =
    take (Z.to_nat 32) (drop (Z.to_nat 212) (bytes_of (mkBuffer 0 0 256) sample_heap32)).
Proof.
  apply (proj1 (value_bytes (sample_section 1) sample_ref32 sample_heap32 (Num 212) (Num 32)
                  eq_refl ltac:(vm_compute; lia) ltac:(by left) ltac:(by left)
                  ltac:(cbn; lia) ltac:(cbn; lia) ltac:(cbn; lia)));
    reflexivity.
Defined.

(** ** The records of a section cover its content *)

Lemma concat_chunks (e : nat) : (0 < e)%nat -> forall n (l : list byte),
  (length l <= n * e)%nat ->
  concat (map (fun j => take e (drop (j * e) l)) (seq 0 n)) = l.
Proof.
  intros He. induction n as [|n IH]; intros l Hl.
  - destruct l; [done | cbn in Hl; lia].
  - cbn [seq map concat]. rewrite <- seq_shift, map_map. cbn [Nat.mul drop].
    transitivity (take e l ++ drop e l); [| apply take_drop]. f_equal.
    rewrite <- (IH (drop e l)) by (rewrite length_drop; lia).
    f_equal. apply map_ext. intros j. by rewrite drop_drop.
Qed.

Lemma slice_well_formed b s e (h : heap) : well_formed b h -> well_formed (slice b s e) h.
Proof.
  unfold well_formed. destruct (slice_inside b s e) as (-> & _ & Hle). lia.
Qed.

Lemma length_bytes_of b (h : heap) : well_formed b h -> length (bytes_of b h) = byteLength b.
Proof. unfold well_formed, bytes_of. rewrite length_take, length_drop. lia. Qed.

(** X12: the records that [getData] returns cover the section's content
    exactly once and in order: when the entry size is positive and
    offset + size + entsize stays below 2^31, the bytes of the records,
    one after the other, are the [size] bytes at [offset] of the file (cut
    at the end of the file). *)
Theorem getData_records_cover_the_content {T} `{ELFElement T}
    (elfElement : ELFElementConstructor T) (this : SectionHeader) e ov szv esv tv fuel
    (h : heap) :
  (forall b r, el_buffer (FromBuffer elfElement b r) = b) ->
  allocated this h ->
  elf this = Some e ->
  well_formed (elf_buffer e) h ->
  SectionHeader.offset this h = Ok ov ->
  SectionHeader.size this h = Ok szv ->
  SectionHeader.entsize this h = Ok esv ->
  SectionHeader.type this h = Ok tv ->
  includes (SH_TYPES elfElement) tv = true ->
  0 < raw esv ->
  raw ov + raw szv + raw esv < 2 ^ 31 ->
  (Z.to_nat (raw szv) < fuel)%nat ->
  exists recs h',
    SectionHeader.getData fuel elfElement this h = Ok (recs, h') /\
    concat (map (fun r => bytes_of (el_buffer r) h') recs) =
    take (Z.to_nat (raw szv)) (drop (Z.to_nat (raw ov)) (bytes_of (elf_buffer e) h)).
Proof.
  intros Hmk Ha He Hwf Ho Hsz Hes Hty Hin Hpos Hlt Hfuel.
  destruct (sh_get_numeric this sh_offset h ov Ho) as [No Po].
  destruct (sh_get_numeric this sh_size h szv Hsz) as [Nsz Psz].
  destruct (sh_get_numeric this sh_entsize h esv Hes) as [Nes Pes].
  assert (HNo : Number ov = raw ov) by (apply Number_exact; [done | lia]).
  assert (HNs : Number szv = raw szv) by (apply Number_exact; [done | lia]).
  assert (HNe : Number esv = raw esv) by (apply Number_exact; [done | lia]).
  pose proof (Z.mul_div_le (raw szv + raw esv - 1) (raw esv) Hpos) as Hq1.
  pose proof (Z.mul_succ_div_gt (raw szv + raw esv - 1) (raw esv) Hpos) as Hq2.
  assert (Hn0 : 0 <= (raw szv + raw esv - 1) / raw esv) by (apply Z.div_pos; lia).
  set (n := Z.to_nat ((raw szv + raw esv - 1) / raw esv)).
  assert (Hn : Z.of_nat n = (raw szv + raw esv - 1) / raw esv) by (unfold n; lia).
  rewrite <- Hn in Hq1, Hq2. clear Hn Hn0.
  assert (Hn1 : raw szv <= Z.of_nat n * raw esv) by lia.
  assert (Hn2 : (Z.of_nat n - 1) * raw esv < raw szv \/ n = 0%nat) by lia.
  assert (Hnfuel : (n < fuel)%nat) by nia.
  rewrite (getData_walk elfElement this e ov szv esv tv fuel h) by done.
  destruct (getData_turns szv esv) as [Hturn Hstop]; [done | done | lia | done |].
  destruct Ha as [_ Ha]. destruct (Ha e He) as [_ Hb].
  erewrite walk_returns; [| exact Hb | exact Hturn | exact Hstop | exact Hnfuel].
  eexists _, _. split; [reflexivity |]. cbn [app].
  rewrite HNo, HNs, HNe, js_add_exact by lia.
  set (V := slice (elf_buffer e) (raw ov) (raw ov + raw szv)).
  assert (HV : bytes_of V h =
               take (Z.to_nat (raw szv)) (drop (Z.to_nat (raw ov)) (bytes_of (elf_buffer e) h))).
  { unfold V. rewrite bytes_of_slice by (done || lia). do 2 f_equal. lia. }
  assert (HwfV : well_formed V h) by by apply slice_well_formed.
  rewrite <- HV. unfold walked. rewrite map_map.
  rewrite <- (concat_chunks (Z.to_nat (raw esv)) ltac:(lia) n (bytes_of V h)).
  - f_equal. apply map_ext_in. intros j Hj%in_seq.
    rewrite Hmk.
    rewrite <- (app_nil_r (walked_heap _ _ _ _ _)).
    rewrite walked_element_bytes by lia.
    unfold window. rewrite idx_exact by nia.
    rewrite js_add_exact by nia.
    rewrite bytes_of_slice by (done || nia). f_equal; [lia |]. f_equal. nia.
  - rewrite HV, length_take. nia.
Qed.

Lemma getData_records_cover_the_content_witness :
  exists recs h',
    SectionHeader.getData 100 (Symbol.constructor elf_sh_type) (sample_section 1)
      sample_heap32 = Ok (recs, h') /\
    concat (map (fun r : Symbol => bytes_of (el_buffer r) h') recs) =
    take (Z.to_nat 32) (drop (Z.to_nat 212) (bytes_of (mkBuffer 0 0 256) sample_heap32)).
Proof.
  apply (getData_records_cover_the_content (Symbol.constructor elf_sh_type)
           (sample_section 1) sample_ref32 (Num 212) (Num 32) (Num 16) (Num 2) 100
           sample_heap32).
  - reflexivity.
  - apply sample_section_allocated. lia.
  - reflexivity.
  - vm_compute. lia.
  - reflexivity.
  - reflexivity.
  - reflexivity.
  - reflexivity.
  - reflexivity.
  - cbn. lia.
  - cbn. lia.
  - cbn. lia.
Defined.

(** ** Encoding *)

Lemma bytes_of_fresh bs (h : heap) : bytes_of (mkBuffer (length h) 0 (length bs)) (h ++ [bs]) = bs.
Proof.
  unfold bytes_of, contents. cbn [buffer byteOffset byteLength].
  rewrite lookup_app_r, Nat.sub_diag by lia. cbn. by rewrite firstn_all.
Qed.

Lemma bytes_of_contents b (h h' : heap) :
  contents h' (buffer b) = contents h (buffer b) -> bytes_of b h' = bytes_of b h.
Proof. unfold bytes_of. by intros ->. Qed.

Lemma accessor_set_length a v (h h' : heap) : accessor_set a v h = Ok h' -> length h' = length h.
Proof.
  destruct a as [this f|this f|this f|this f|this f|this f]; cbn [accessor_set];
    rewrite ?header_set_spec, ?ph_set_spec, ?sym_set_spec, ?rel_set_spec, ?dyn_set_spec,
      ?note_set_spec; unfold element_write;
    repeat case_match; try done; try (by intros [= <-]);
    intros Hw; by destruct (layout_write_length _ _ _ _ _ _ _ Hw).
Qed.

(** X13: [toBuffer] returns a copy of the element's bytes in memory of
    its own, whatever the element: a setter applied afterwards to any
    element (this one included) leaves the returned bytes as they were;
    and the encoding of an element is unchanged by a setter that stores
    into another element's memory, so the encoding of the file object
    does not show what was assigned to a decoded program header or
    record. *)
Theorem toBuffer_returns_a_copy {T} `{ELFElement T} (this : T) (h : heap) b h' :
  toBuffer this h = (b, h') ->
  bytes_of b h' = bytes_of (el_buffer this) h /\
  (forall a v h'', (written a < length h)%nat -> accessor_set a v h' = Ok h'' ->
     bytes_of b h'' = bytes_of (el_buffer this) h) /\
  (forall a v h1, written a <> view this -> accessor_set a v h = Ok h1 ->
     forall b1 h1', toBuffer this h1 = (b1, h1') ->
     bytes_of b1 h1' = bytes_of (el_buffer this) h).
Proof.
  unfold toBuffer. rewrite Buffer_from_eq. intros [= <- <-].
  split; [apply bytes_of_fresh |]. split.
  - intros a v h'' Hlt Hset.
    rewrite <- (bytes_of_fresh (bytes_of (el_buffer this) h) h) at 2.
    apply bytes_of_contents. cbn [buffer].
    apply (accessor_set_frame _ _ _ _ _ Hset). lia.
  - intros a v h1 Hne Hset b1 h1'. rewrite Buffer_from_eq. intros [= <- <-].
    rewrite bytes_of_fresh. apply bytes_of_contents.
    by apply (accessor_set_frame _ _ _ _ _ Hset).
Qed.

Lemma toBuffer_returns_a_copy_witness :
  bytes_of (mkBuffer 2 0 120) (sample_heap64 ++ [file64]) = file64.
Proof.
  assert (Hrun : toBuffer (mkELF sample_ref64 [] [sample_program]) sample_heap64 =
                 (mkBuffer 2 0 120, sample_heap64 ++ [file64])) by reflexivity.
  apply (proj1 (toBuffer_returns_a_copy _ _ _ _ Hrun)).
Defined.

(** ** Assigning the content of a segment *)

Lemma splice_window (bs bytes : list byte) (off L a : nat) :
  (off + L <= length bs)%nat -> (a + length bytes <= L)%nat ->
  take L (drop off (take (off + a) bs ++ bytes ++ drop (off + a + length bytes) bs)) =
  take a (take L (drop off bs)) ++ bytes ++ drop (a + length bytes) (take L (drop off bs)).
Proof.
  intros Hbs Hfit.
  assert (Ha : length (take a (drop off bs)) = a) by (rewrite length_take, length_drop; lia).
  rewrite drop_app_le by (rewrite length_take; lia).
  rewrite <- take_drop_commute.
  rewrite take_app_ge by lia. rewrite Ha.
  rewrite take_app_ge by lia.
  rewrite take_take. replace (a `min` L)%nat with a by lia. do 2 f_equal.
  replace (take L (drop off bs)) with
    (take ((a + length bytes) + (L - a - length bytes)) (drop off bs)) by (f_equal; lia).
  rewrite <- take_drop_commute, drop_drop. do 2 f_equal. lia.
Qed.

Lemma ph_get_numeric this f h v : ph_get f this h = Ok v -> numeric v /\ 0 <= raw v.
Proof.
  rewrite ph_get_spec. unfold spec_read_element.
  destruct (elf this); [| done]. case_match; [| done]. apply spec_read_numeric.
Qed.

Lemma insert_contents_id (h : heap) ab : <[ab := contents h ab]> h = h.
Proof.
  unfold contents. destruct (h !! ab) as [bs|] eqn:E; cbn [default].
  - by apply list_insert_id.
  - apply list_insert_ge. by apply lookup_ge_None.
Qed.

Lemma well_formed_allocated b (h : heap) :
  well_formed b h -> (0 < byteLength b)%nat -> (buffer b < length h)%nat.
Proof.
  unfold well_formed. intros Hwf Hpos.
  destruct (Nat.lt_ge_cases (buffer b) (length h)) as [|Hge]; [done |].
  rewrite contents_dangling in Hwf by done. cbn in Hwf. lia.
Qed.

(** The store after [ph.value = val], when the segment lies inside the
    file and [val] is long enough. *)
Lemma set_value_run (this : ProgramHeader) e (val : Buffer) (h : heap) ov sv :
  elf this = Some e ->
  well_formed val h ->
  ProgramHeader.offset this h = Ok ov ->
  ProgramHeader.filesz this h = Ok sv ->
  raw ov + raw sv <= Z.of_nat (byteLength (elf_buffer e)) ->
  raw ov + raw sv < 2 ^ 31 ->
  raw sv <= Z.of_nat (byteLength val) ->
  let p := (byteOffset (elf_buffer e) + Z.to_nat (raw ov))%nat in
  let bs := contents h (buffer (elf_buffer e)) in
  ProgramHeader.set_value this val h =
  Ok (<[buffer (elf_buffer e) :=
          take p bs ++ take (Z.to_nat (raw sv)) (bytes_of val h) ++
          drop (p + Z.to_nat (raw sv)) bs]> h).
Proof.
  intros He Hwfv Ho Hs Hin Hlt Hval p bs.
  destruct (ph_get_numeric this p_offset h ov Ho) as [No Po].
  destruct (ph_get_numeric this p_filesz h sv Hs) as [Ns Ps].
  assert (HNo : Number ov = raw ov) by (apply Number_exact; [done | lia]).
  assert (HNs : Number sv = raw sv) by (apply Number_exact; [done | lia]).
  unfold ProgramHeader.set_value. rewrite He, Ho, Hs. cbn [bind].
  rewrite HNo, HNs. unfold Buffer_copy.
  destruct (Z.eqb_spec (raw sv) 0) as [Hz|Hnz].
  - (* nothing to copy *)
    rewrite Hz. change (Z.to_nat 0) with 0%nat.
    rewrite take_0, app_nil_l, Nat.add_0_r, take_drop. unfold bs.
    rewrite insert_contents_id. by repeat case_match.
  - assert (Hlen : length (take (Z.to_nat (raw sv)) (bytes_of val h)) = Z.to_nat (raw sv))
      by (rewrite length_take, length_bytes_of by done; lia).
    replace (Z.of_nat (byteLength (elf_buffer e)) <=? raw ov) with false
      by (symmetry; apply Z.leb_gt; lia).
    replace ((0 <? raw sv) && (raw sv <? 0)) with false
      by (symmetry; apply andb_false_iff; right; apply Z.ltb_ge; lia).
    replace (raw sv =? 0) with false by (symmetry; by apply Z.eqb_neq).
    replace ((Z.of_nat (byteLength (elf_buffer e)) =? 0) || (Z.of_nat (byteLength val) =? 0))
      with false
      by (symmetry; apply orb_false_iff; split; apply Z.eqb_neq; lia).
    replace (raw ov <? 0) with false by (symmetry; apply Z.ltb_ge; lia).
    replace ((0 <? 0) || (Z.of_nat (byteLength val) <=? 0)) with false
      by (symmetry; apply orb_false_iff; split; [done | apply Z.leb_gt; lia]).
    replace (raw sv <? 0) with false by (symmetry; apply Z.ltb_ge; lia).
    replace (Z.of_nat (byteLength val) <? raw sv) with false
      by (symmetry; apply Z.ltb_ge; lia).
    replace (Z.of_nat (byteLength (elf_buffer e)) - raw ov <? raw sv - 0) with false
      by (symmetry; apply Z.ltb_ge; lia).
    rewrite Z.sub_0_r. change (Z.to_nat 0) with 0%nat.
    by rewrite drop_0, Hlen.
Qed.

(** X14: assigning a buffer to the [value] of a program header stores
    into the file's memory, not into the program header's: when the
    segment [offset, offset + filesz) lies inside the file and below 2^31
    and the given buffer has at least [filesz] bytes, the file afterwards
    holds the first [filesz] bytes of the given buffer at [offset] and its
    old bytes everywhere else, its length is the same, and no other
    ArrayBuffer changes. *)
Theorem set_value_stores_into_the_file (this : ProgramHeader) e (val : Buffer) (h : heap)
    ov sv :
  elf this = Some e ->
  well_formed (elf_buffer e) h ->
  well_formed val h ->
  ProgramHeader.offset this h = Ok ov ->
  ProgramHeader.filesz this h = Ok sv ->
  0 < raw sv ->
  raw ov + raw sv <= Z.of_nat (byteLength (elf_buffer e)) ->
  raw ov + raw sv < 2 ^ 31 ->
  raw sv <= Z.of_nat (byteLength val) ->
  exists h',
    ProgramHeader.set_value this val h = Ok h' /\
    length h' = length h /\
    (forall ab, ab <> buffer (elf_buffer e) -> contents h' ab = contents h ab) /\
    bytes_of (elf_buffer e) h' =
      take (Z.to_nat (raw ov)) (bytes_of (elf_buffer e) h) ++
      take (Z.to_nat (raw sv)) (bytes_of val h) ++
      drop (Z.to_nat (raw ov + raw sv)) (bytes_of (elf_buffer e) h).
Proof.
  intros He Hwf Hwfv Ho Hs Hpos Hin Hlt Hval.
  destruct (ph_get_numeric this p_offset h ov Ho) as [_ Po].
  eexists. split; [by apply (set_value_run this e val h ov sv) |].
  assert (Hlen : length (take (Z.to_nat (raw sv)) (bytes_of val h)) = Z.to_nat (raw sv))
    by (rewrite length_take, length_bytes_of by done; lia).
  assert (Hab : (buffer (elf_buffer e) < length h)%nat)
    by (apply well_formed_allocated; [done | lia]).
  split; [apply length_insert |]. split.
  - intros ab Hne. by apply contents_insert_ne.
  - unfold bytes_of at 1. rewrite contents_insert_eq by done.
    replace (Z.to_nat (raw ov + raw sv)) with
      (Z.to_nat (raw ov) + length (take (Z.to_nat (raw sv)) (bytes_of val h)))%nat by lia.
    rewrite <- Hlen at 2.
    unfold well_formed in Hwf.
    apply splice_window; [done | rewrite Hlen; lia].
Qed.

Lemma set_value_stores_into_the_file_witness :
  exists h',
    ProgramHeader.set_value sample_segment sample_payload sample_heap_segment = Ok h' /\
    length h' = length sample_heap_segment /\
    (forall ab, ab <> 0%nat -> contents h' ab = contents sample_heap_segment ab) /\
    bytes_of (mkBuffer 0 0 256) h' =
      take (Z.to_nat 212) file32 ++ take (Z.to_nat 4) (w32 0x11223344 ++ w16 0x5566) ++
      drop (Z.to_nat (212 + 4)) file32.
Proof.
  apply (set_value_stores_into_the_file sample_segment sample_ref32 sample_payload
           sample_heap_segment (Num 212) (Num 4));
    first [reflexivity | cbn; lia | vm_compute; lia].
Defined.

Lemma spec_read_element_same this l (h h' : heap) e :
  elf this = Some e ->
  contents h' (view this) = contents h (view this) ->
  length (contents h' (view (elf_header e))) = length (contents h (view (elf_header e))) ->
  byte_at (contents h' (view (elf_header e))) 4 = byte_at (contents h (view (elf_header e))) 4 ->
  byte_at (contents h' (view (elf_header e))) 5 = byte_at (contents h (view (elf_header e))) 5 ->
  spec_read_element this l h' = spec_read_element this l h.
Proof.
  unfold spec_read_element, view, spec_is32bit, spec_isLE.
  cbn [el_buffer ELFHeader.element Element_element].
  by intros -> -> -> -> ->.
Qed.

(** X15: reading [value] after assigning it returns what was assigned:
    for a program header that holds its own copy of its bytes and whose
    segment lies inside the file, below 2^31 and after the class and data
    bytes of the identification, [ph.value = val] followed by [ph.value]
    gives a window that holds the first [filesz] bytes of [val]. *)
Theorem value_after_set_value (this : ProgramHeader) e (val : Buffer) (h h' : heap) ov sv :
  elf this = Some e ->
  well_formed (elf_buffer e) h ->
  well_formed val h ->
  view this <> buffer (elf_buffer e) ->
  ProgramHeader.offset this h = Ok ov ->
  ProgramHeader.filesz this h = Ok sv ->
  0 < raw sv ->
  (6 <= byteOffset (elf_buffer e) + Z.to_nat (raw ov))%nat ->
  raw ov + raw sv <= Z.of_nat (byteLength (elf_buffer e)) ->
  raw ov + raw sv < 2 ^ 31 ->
  raw sv <= Z.of_nat (byteLength val) ->
  ProgramHeader.set_value this val h = Ok h' ->
  exists w, ProgramHeader.value this h' = Ok w /\
            bytes_of w h' = take (Z.to_nat (raw sv)) (bytes_of val h).
Proof.
  intros He Hwf Hwfv Hown Ho Hs Hpos Hsix Hin Hlt Hval Hset.
  destruct (ph_get_numeric this p_offset h ov Ho) as [No Po].
  destruct (ph_get_numeric this p_filesz h sv Hs) as [Ns Ps].
  rewrite (set_value_run this e val h ov sv) in Hset by done.
  injection Hset as <-.
  set (file := buffer (elf_buffer e)) in *.
  set (bs := contents h file).
  set (p := (byteOffset (elf_buffer e) + Z.to_nat (raw ov))%nat).
  set (bytes := take (Z.to_nat (raw sv)) (bytes_of val h)).
  assert (Hlen : length bytes = Z.to_nat (raw sv))
    by (unfold bytes; rewrite length_take, length_bytes_of by done; lia).
  assert (Hab : (file < length h)%nat) by (apply well_formed_allocated; [done | lia]).
  assert (Hbs : (byteOffset (elf_buffer e) + byteLength (elf_buffer e) <= length bs)%nat)
    by exact Hwf.
  set (h' := <[file := take p bs ++ bytes ++ drop (p + Z.to_nat (raw sv)) bs]> h).
  assert (Hnew : contents h' file = take p bs ++ bytes ++ drop (p + Z.to_nat (raw sv)) bs)
    by by apply contents_insert_eq.
  assert (Hsame : forall g, ph_get g this h' = ph_get g this h).
  { intros g. rewrite !ph_get_spec. apply (spec_read_element_same _ _ _ _ e He).
    - by apply contents_insert_ne.
    - destruct (decide (view (elf_header e) = file)) as [->|Hne];
        [| unfold h'; by rewrite contents_insert_ne].
      rewrite Hnew, !length_app, length_take, length_drop, Hlen. fold bs. lia.
    - destruct (decide (view (elf_header e) = file)) as [->|Hne];
        [| unfold h'; by rewrite contents_insert_ne].
      rewrite Hnew. unfold byte_at. fold bs.
      rewrite lookup_app_l by (rewrite length_take; lia).
      by rewrite lookup_take_lt by lia.
    - destruct (decide (view (elf_header e) = file)) as [->|Hne];
        [| unfold h'; by rewrite contents_insert_ne].
      rewrite Hnew. unfold byte_at. fold bs.
      rewrite lookup_app_l by (rewrite length_take; lia).
      by rewrite lookup_take_lt by lia. }
  assert (Hwf' : well_formed (elf_buffer e) h').
  { unfold well_formed. fold file. rewrite Hnew.
    rewrite !length_app, length_take, length_drop, Hlen. lia. }
  unfold ProgramHeader.value. rewrite He.
  pose proof (Hsame p_offset) as Ho'. pose proof (Hsame p_filesz) as Hs'.
  cbn [ph_get] in Ho', Hs'. rewrite Ho', Hs', Ho, Hs. cbn [bind].
  eexists. split; [reflexivity |].
  rewrite !Number_exact, js_add_exact by (done || lia).
  rewrite bytes_of_slice by (done || lia).
  unfold bytes_of. fold file. rewrite Hnew.
  replace (p + Z.to_nat (raw sv))%nat with (p + length bytes)%nat by lia.
  unfold p. rewrite splice_window by lia.
  rewrite drop_app_length'
    by (rewrite !length_take, length_drop; lia).
  replace (Z.to_nat (raw ov + raw sv - raw ov)) with (length bytes) by lia.
  by rewrite take_app_length.
Qed.

Lemma value_after_set_value_witness :
  exists h',
    ProgramHeader.set_value sample_segment sample_payload sample_heap_segment = Ok h' /\
    exists w, ProgramHeader.value sample_segment h' = Ok w /\
              bytes_of w h' = take (Z.to_nat 4) (w32 0x11223344 ++ w16 0x5566).
Proof.
  eexists. split; [vm_compute; reflexivity |].
  apply (value_after_set_value sample_segment sample_ref32 sample_payload
           sample_heap_segment _ (Num 212) (Num 4));
    first [reflexivity | discriminate | cbn; lia | vm_compute; lia | vm_compute; reflexivity].
Defined.


(** ** Sections by type, symbols and dynamic entries *)

Lemma filter_type_spec type (h : heap) (l : list SectionHeader) :
  Forall (fun sh => exists t, SectionHeader.type sh h = Ok t) l ->
  exists r, ELF.filter_type type l h = Ok r /\
    sublist r l /\
    forall sh, sh ∈ r <->
      sh ∈ l /\ exists t, SectionHeader.type sh h = Ok t /\ js_eq t type = true.
Proof.
  induction 1 as [|x l [t Ht] _ (r & Hr & Hsub & Hin)]; cbn [ELF.filter_type].
  - exists []. split; [done |]. split; [done |].
    intros sh. split; [by intros ?%elem_of_nil | by intros [?%elem_of_nil _]].
  - rewrite Ht, Hr. cbn [bind]. eexists. split; [reflexivity |].
    destruct (js_eq t type) eqn:Eq.
    + split; [by apply sublist_skip |]. intros sh. rewrite !elem_of_cons, Hin. split.
      * intros [->|[? ?]]; [eauto | eauto].
      * intros [[->|?] ?]; [by left | by right].
    + split; [by apply sublist_cons |]. intros sh. rewrite elem_of_cons, Hin. split.
      * intros [? ?]. eauto.
      * intros [[->|?] (t' & Ht' & Eq')]; [congruence | eauto].
Qed.

Lemma filter_type_inv type (h : heap) (l : list SectionHeader) r :
  ELF.filter_type type l h = Ok r ->
  Forall (fun sh => exists t, SectionHeader.type sh h = Ok t) l.
Proof.
  revert r. induction l as [|x l IH]; intros r; cbn [ELF.filter_type]; [done |].
  destruct (SectionHeader.type x h) as [t| |] eqn:Ht; cbn [bind]; [| done | done].
  destruct (ELF.filter_type type l h) as [r'| |]; cbn [bind]; [| done | done].
  intros _. constructor; eauto.
Qed.

(** X16: [getSectionHeadersByType] returns when the type of every section
    header of the file can be read, and then its result is the section
    headers whose type equals the given one, in the order of the file: a
    sublist of [sectionHeaders] that holds exactly the matching ones. *)
Theorem getSectionHeadersByType_selects (this : ELF) (type : Z) (h : heap) :
  Forall (fun sh => exists t, SectionHeader.type sh h = Ok t) (sectionHeaders this) ->
  exists r, ELF.getSectionHeadersByType this type h = Ok r /\
    sublist r (sectionHeaders this) /\
    forall sh, sh ∈ r <->
      sh ∈ sectionHeaders this /\
      exists t, SectionHeader.type sh h = Ok t /\ js_eq t type = true.
Proof. apply filter_type_spec. Qed.

Lemma getSectionHeadersByType_selects_witness :
  exists r, ELF.getSectionHeadersByType sample_elf32 2 sample_heap32 = Ok r /\
    sublist r (sectionHeaders sample_elf32) /\
    forall sh, sh ∈ r <->
      sh ∈ sectionHeaders sample_elf32 /\
      exists t, SectionHeader.type sh sample_heap32 = Ok t /\ js_eq t 2 = true.
Proof.
  apply getSectionHeadersByType_selects.
  repeat constructor; eexists; vm_compute; reflexivity.
Defined.

Lemma getData_extends {T} (elfElement : ELFElementConstructor T)
    (this : SectionHeader) fuel (h : heap) recs h' :
  SectionHeader.getData fuel elfElement this h = Ok (recs, h') ->
  exists k, h' = h ++ k /\ length k = length recs.
Proof.
  intros Hrun. unfold SectionHeader.getData in Hrun.
  destruct (SectionHeader.value this h) as [value| |]; cbn [bind] in Hrun; [| done | done].
  destruct (SectionHeader.type this h) as [tv| |]; cbn [bind] in Hrun; [| done | done].
  destruct (negb _); [done |].
  apply getData_loop_extends in Hrun as (k & new & -> & -> & Hlen). eauto.
Qed.

Lemma getData_each_inv fuel (elfElement : ELFElementConstructor Element) :
  (forall b r, elf (FromBuffer elfElement b r) = r) ->
  forall shs acc (h : heap) res h',
    ELF.getData_each fuel elfElement shs acc h = Ok (res, h') ->
    exists new k,
      res = acc ++ new /\ map fst new = shs /\
      Forall (fun p => Forall (fun s : Element => elf s = elf (fst p)) (snd p)) new /\
      h' = h ++ k /\ length k = length (concat (map snd new)).
Proof.
  intros Hmk. induction shs as [|sh shs IH]; intros acc h res h'; cbn [ELF.getData_each].
  - intros [= <- <-]. exists [], []. by rewrite !app_nil_r.
  - destruct (SectionHeader.getData fuel elfElement sh h) as [[records h1]| |] eqn:Hg;
      cbn [bind]; [| done | done].
    intros (new & k & -> & Hfst & Hall & -> & Hlen)%IH.
    destruct (getData_extends _ _ _ _ _ _ Hg) as (k1 & -> & Hlen1).
    exists ((sh, records) :: new), (k1 ++ k).
    rewrite <- !app_assoc. cbn [app map fst snd concat]. rewrite Hfst.
    split; [done |]. split; [done |]. split; [| split; [done |]].
    + constructor; [| done]. cbn [fst snd].
      apply (getData_Forall _ _ _ _ _ _ _ (fun b _ => Hmk b (elf sh)) Hg).
    + rewrite !length_app. lia.
Qed.

(** X17: [getSymbols] extracts from the sections that
    [getSectionHeadersByType] gives for SYMTAB, and [getDynamic] from
    those it gives for DYNAMIC, one entry per section in that order (a
    DYNSYM section is not in the result of [getSymbols]); every record
    refers to the file of its section, and the store grows by one
    ArrayBuffer per record and is otherwise unchanged. *)
Theorem getSymbols_getDynamic_results fuel c (this : ELF) (h : heap) res h' :
  ELF.getSymbols fuel c this h = Ok (res, h') \/ ELF.getDynamic fuel c this h = Ok (res, h') ->
  (ELF.getSymbols fuel c this h = Ok (res, h') ->
   ELF.getSectionHeadersByType this (SYMTAB c) h = Ok (map fst res)) /\
  (ELF.getDynamic fuel c this h = Ok (res, h') ->
   ELF.getSectionHeadersByType this (DYNAMIC c) h = Ok (map fst res)) /\
  Forall (fun p => Forall (fun s : Element => elf s = elf (fst p)) (snd p)) res /\
  exists k, h' = h ++ k /\ length k = length (concat (map snd res)).
Proof.
  assert (Hsym : ELF.getSymbols fuel c this h = Ok (res, h') ->
    ELF.getSectionHeadersByType this (SYMTAB c) h = Ok (map fst res) /\
    Forall (fun p => Forall (fun s : Element => elf s = elf (fst p)) (snd p)) res /\
    exists k, h' = h ++ k /\ length k = length (concat (map snd res))).
  { unfold ELF.getSymbols.
    destruct (ELF.getSectionHeadersByType this (SYMTAB c) h) as [shs| |]; cbn [bind];
      [| done | done].
    intros (new & k & -> & <- & Hall & -> & Hlen)%getData_each_inv; [| done].
    cbn [app]. eauto. }
  assert (Hdyn : ELF.getDynamic fuel c this h = Ok (res, h') ->
    ELF.getSectionHeadersByType this (DYNAMIC c) h = Ok (map fst res) /\
    Forall (fun p => Forall (fun s : Element => elf s = elf (fst p)) (snd p)) res /\
    exists k, h' = h ++ k /\ length k = length (concat (map snd res))).
  { unfold ELF.getDynamic.
    destruct (ELF.getSectionHeadersByType this (DYNAMIC c) h) as [shs| |]; cbn [bind];
      [| done | done].
    intros (new & k & -> & <- & Hall & -> & Hlen)%getData_each_inv; [| done].
    cbn [app]. eauto. }
  intros Hrun.
  split; [by intros (? & _)%Hsym |]. split; [by intros (? & _)%Hdyn |].
  destruct Hrun as [(_ & ? & ?)%Hsym|(_ & ? & ?)%Hdyn]; done.
Qed.

Lemma getSymbols_getDynamic_results_witness :
  exists res h',
    ELF.getSymbols 100 elf_sh_type sample_elf32 sample_heap32 = Ok (res, h') /\
    ELF.getSectionHeadersByType sample_elf32 2 sample_heap32 = Ok (map fst res) /\
    exists k, h' = sample_heap32 ++ k /\ length k = length (concat (map snd res)).
Proof.
  eexists _, _.
  assert (Hrun : ELF.getSymbols 100 elf_sh_type sample_elf32 sample_heap32 = Ok _)
    by (vm_compute; reflexivity).
  destruct (getSymbols_getDynamic_results _ _ _ _ _ _ (or_introl Hrun))
    as (Hsym & _ & _ & Hk).
  split; [exact Hrun |]. split; [exact (Hsym Hrun) | exact Hk].
Defined.

Lemma getData_loop_Throw {T} (elfElement : ELFElementConstructor T)
    (this : SectionHeader) e value err :
  elf this = Some e ->
  forall fuel i result (h : heap),
    SectionHeader.getData_loop fuel elfElement this value i result h = Throw err ->
    err = RangeError.
Proof.
  intros He. induction fuel as [|fuel IH]; intros i result h; [done |].
  cbn [SectionHeader.getData_loop].
  destruct (SectionHeader.size this h) as [sz|err'|] eqn:Hsz; cbn [bind]; [| | done].
  2: { intros [= <-]. by apply (sh_get_Throw this e sh_size h). }
  destruct (js_lt i sz); [| done].
  destruct (SectionHeader.entsize this h) as [es|err'|] eqn:Hes; cbn [bind]; [| | done].
  2: { intros [= <-]. by apply (sh_get_Throw this e sh_entsize h). }
  rewrite Buffer_from_eq.
  match goal with
  | |- context [SectionHeader.entsize this ?h1] =>
      destruct (SectionHeader.entsize this h1) as [es'|err'|] eqn:Hes'
  end; cbn [bind]; [| | done].
  2: { intros [= <-]. by apply (sh_get_Throw this e sh_entsize _ _ He Hes'). }
  apply IH.
Qed.

(** Past its type guard, [getData] raises no TypeError. *)
Lemma getData_Throw {T} (elfElement : ELFElementConstructor T)
    (this : SectionHeader) e t fuel (h : heap) err :
  elf this = Some e ->
  SectionHeader.type this h = Ok t ->
  includes (SH_TYPES elfElement) t = true ->
  SectionHeader.getData fuel elfElement this h = Throw err ->
  err = RangeError.
Proof.
  intros He Ht Hin. unfold SectionHeader.getData, SectionHeader.value. rewrite He.
  destruct (SectionHeader.offset this h) as [o|err'|] eqn:Ho; cbn [bind]; [| | done].
  2: { intros [= <-]. by apply (sh_get_Throw this e sh_offset h). }
  destruct (SectionHeader.size this h) as [sz|err'|] eqn:Hsz; cbn [bind]; [| | done].
  2: { intros [= <-]. by apply (sh_get_Throw this e sh_size h). }
  rewrite Ht. cbn [bind]. rewrite Hin. cbn [negb].
  by apply getData_loop_Throw with (e := e).
Qed.

Lemma getData_each_Throw {T} (elfElement : ELFElementConstructor T) fuel (h0 : heap) err :
  forall shs acc k,
    Forall (fun sh => allocated sh h0 /\ (exists e, elf sh = Some e) /\
                      exists t, SectionHeader.type sh h0 = Ok t /\
                                includes (SH_TYPES elfElement) t = true) shs ->
    ELF.getData_each fuel elfElement shs acc (h0 ++ k) = Throw err ->
    err = RangeError.
Proof.
  induction shs as [|sh shs IH]; intros acc k Hall; cbn [ELF.getData_each]; [done |].
  apply Forall_cons in Hall as [(Ha & [e He] & t & Ht & Hin) Hall].
  assert (Ht' : SectionHeader.type sh (h0 ++ k) = Ok t)
    by (rewrite <- Ht; by apply (sh_get_app sh sh_type_)).
  destruct (SectionHeader.getData fuel elfElement sh (h0 ++ k)) as [[records h1]|err'|] eqn:Hg;
    cbn [bind]; [| | done].
  - destruct (getData_extends _ _ _ _ _ _ Hg) as (k1 & -> & _).
    rewrite <- app_assoc. by apply IH.
  - intros [= <-]. by apply (getData_Throw elfElement sh e t fuel (h0 ++ k)).
Qed.

Lemma filter_type_Throw type (h : heap) err : forall l,
  Forall (fun sh => exists e, elf sh = Some e) l ->
  ELF.filter_type type l h = Throw err -> err = RangeError.
Proof.
  induction l as [|x l IH]; intros Hall; cbn [ELF.filter_type]; [done |].
  apply Forall_cons in Hall as [[e He] Hall].
  destruct (SectionHeader.type x h) as [t|err'|] eqn:Ht; cbn [bind]; [| | done].
  2: { intros [= <-]. by apply (sh_get_Throw x e sh_type_ h). }
  destruct (ELF.filter_type type l h) as [r|err'|] eqn:Hr; cbn [bind]; [done | | done].
  intros [= <-]. by apply IH.
Qed.

Lemma type_is_number this (h : heap) t :
  SectionHeader.type this h = Ok t -> t = Num (raw t).
Proof.
  intros Ht. change (sh_get sh_type_ this h = Ok t) in Ht.
  rewrite sh_get_spec in Ht. unfold spec_read_element in Ht.
  destruct (elf this); [| done]. case_match; [| done].
  by apply spec_read_fixed in Ht as [? _].
Qed.

Lemma getData_each_filtered {T} (elfElement : ELFElementConstructor T) fuel type
    (this : ELF) (h : heap) shs err :
  In type (SH_TYPES elfElement) ->
  Forall (fun sh => allocated sh h /\ exists e, elf sh = Some e) (sectionHeaders this) ->
  ELF.getSectionHeadersByType this type h = Ok shs ->
  ELF.getData_each fuel elfElement shs [] h = Throw err -> err = RangeError.
Proof.
  intros Hty Hall Hsel.
  pose proof (filter_type_inv _ _ _ _ Hsel) as Hread.
  destruct (filter_type_spec type h _ Hread) as (r & Hr & _ & Hin).
  unfold ELF.getSectionHeadersByType in Hsel. rewrite Hsel in Hr. injection Hr as <-.
  rewrite <- (app_nil_r h) at 1. apply getData_each_Throw.
  apply Forall_forall. intros sh (Hsh & t & Ht & Heq)%Hin.
  rewrite Forall_forall in Hall. destruct (Hall sh Hsh) as [Ha He].
  split; [done |]. split; [done |]. exists t. split; [done |].
  rewrite (type_is_number _ _ _ Ht) in *. cbn [js_eq includes] in *.
  apply existsb_exists. exists type. split; [done |].
  by rewrite Z.eqb_eq in *.
Qed.

(** X18: on a file whose section headers refer to their file, as the
    decoded ones do, [getSymbols] and [getDynamic] never raise the
    invalid-type TypeError of [getData]: the sections they pass have been
    selected by the very type that the record kind accepts, and extracting
    from one section does not change what the next one reads.  The only
    error they can raise is the RangeError of a field that lies beyond the
    bytes of a section header. *)
Theorem getSymbols_getDynamic_raise_only_RangeError fuel c (this : ELF) (h : heap) err :
  Forall (fun sh => allocated sh h /\ exists e, elf sh = Some e) (sectionHeaders this) ->
  (ELF.getSymbols fuel c this h = Throw err -> err = RangeError) /\
  (ELF.getDynamic fuel c this h = Throw err -> err = RangeError).
Proof.
  intros Hall.
  assert (Helf : Forall (fun sh => exists e, elf sh = Some e) (sectionHeaders this))
    by (eapply Forall_impl; [exact Hall | by intros ? [_ ?]]).
  unfold ELF.getSymbols, ELF.getDynamic. split.
  - destruct (ELF.getSectionHeadersByType this (SYMTAB c) h) as [shs|err'|] eqn:Hsel;
      cbn [bind]; [| | done].
    + apply (getData_each_filtered _ fuel (SYMTAB c) this h shs err); [by left | done | done].
    + intros [= <-]. by apply (filter_type_Throw _ _ _ _ Helf Hsel).
  - destruct (ELF.getSectionHeadersByType this (DYNAMIC c) h) as [shs|err'|] eqn:Hsel;
      cbn [bind]; [| | done].
    + apply (getData_each_filtered _ fuel (DYNAMIC c) this h shs err); [by left | done | done].
    + intros [= <-]. by apply (filter_type_Throw _ _ _ _ Helf Hsel).
Qed.

Lemma getSymbols_getDynamic_raise_only_RangeError_witness :
  exists err,
    ELF.getSymbols 100 elf_sh_type sample_elf32_short sample_heap32_short = Throw err /\
    err = RangeError.
Proof.
  eexists. split; [vm_compute; reflexivity |].
  apply (proj1 (getSymbols_getDynamic_raise_only_RangeError 100 elf_sh_type
                  sample_elf32_short sample_heap32_short RangeError
                  ltac:(constructor; [| constructor];
                        split; [| by eexists];
                        split; [vm_compute; lia | intros ? [= <-]; vm_compute; lia]))).
  vm_compute. reflexivity.
Defined.


(** ** Records: relocations, dynamic entries and notes *)

Lemma note_fields_disjoint is32 f g :
  f <> g -> regions_disjoint is32 (spec_note_layout f) (spec_note_layout g) = true.
Proof. destruct f, g, is32; intros Hne; try congruence; reflexivity. Qed.

Lemma rel_fields_disjoint is32 f g :
  f <> g -> regions_disjoint is32 (spec_rel_layout f) (spec_rel_layout g) = true.
Proof. destruct f, g, is32; intros Hne; try congruence; reflexivity. Qed.

Lemma dyn_fields_disjoint is32 f g :
  spec_dyn_layout f <> spec_dyn_layout g ->
  regions_disjoint is32 (spec_dyn_layout f) (spec_dyn_layout g) = true.
Proof.
  destruct f, g, is32; cbn [spec_dyn_layout]; intros Hne; try congruence; reflexivity.
Qed.

(** X19: in a note, a dynamic entry and a relocation, writing a value
    that fits one field leaves what every other field reads unchanged,
    under either word width; for a dynamic entry "other" means one of
    [tag] and [val]/[ptr], and for a relocation the addend counts whether
    or not the relocation carries one. *)
Theorem record_set_keeps_other_fields (this : Element) v (h h' : heap) :
  apart this = true ->
  (forall f g, f <> g ->
     fits (OfNote this f) v h = true ->
     note_set f this v h = Ok h' -> note_get g this h' = note_get g this h) /\
  (forall f g, spec_dyn_layout f <> spec_dyn_layout g ->
     fits (OfDyn this f) v h = true ->
     dyn_set f this v h = Ok h' -> dyn_get g this h' = dyn_get g this h) /\
  (forall na f g, f <> g ->
     fits (OfRel (mkRel this na) f) v h = true ->
     rel_set f (mkRel this na) v h = Ok h' ->
     rel_get g (mkRel this na) h' = rel_get g (mkRel this na) h).
Proof.
  intros Hap. split; [| split]; [intros f g Hne | intros f g Hne | intros na f g Hne];
    unfold fits; cbn [accessor_is32bit accessor_layout];
    match goal with
    | |- match ?x with _ => _ end = _ -> _ => destruct x as [is32| |] eqn:H32
    end; try done; intros [Hfit Hen]%andb_prop.
  - rewrite note_set_spec, !note_get_spec.
    apply (element_write_read_other this _ _ v h h' is32); try done.
    by apply note_fields_disjoint.
  - rewrite dyn_set_spec, !dyn_get_spec.
    apply (element_write_read_other this _ _ v h h' is32); try done.
    by apply dyn_fields_disjoint.
  - rewrite rel_set_spec, Hen. intros Hw.
    destruct (accessor_enabled (OfRel (mkRel this na) g)) eqn:Hg.
    + rewrite !rel_get_spec by done. cbn [rel_element] in *.
      apply (element_write_read_other this (spec_rel_layout f) (spec_rel_layout g) v h h'
               is32); [done | exact H32 | done | | done].
      by apply rel_fields_disjoint.
    + destruct g; try done. cbn [accessor_enabled needsAddend] in Hg.
      cbn [rel_get]. unfold Rel.added. cbn [needsAddend].
      by destruct na as [[|]|].
Qed.

Lemma record_set_keeps_other_fields_witness :
  exists h',
    note_set n_descsz sample_program (Big 7) sample_heap64 = Ok h' /\
    note_get n_namesz sample_program h' = note_get n_namesz sample_program sample_heap64.
Proof.
  eexists. split; [vm_compute; reflexivity |].
  apply (proj1 (record_set_keeps_other_fields sample_program (Big 7) sample_heap64 _ eq_refl)
           n_descsz n_namesz);
    [discriminate | reflexivity | vm_compute; reflexivity].
Defined.

(** X20: [ptr] of a dynamic entry is another name of [val]: a value that
    fits, assigned through either of the two, is what both return
    afterwards. *)
Theorem dyn_ptr_is_val (this : Dyn) v (h h' : heap) :
  apart this = true ->
  fits (OfDyn this d_val) v h = true ->
  dyn_set d_ptr this v h = Ok h' \/ dyn_set d_val this v h = Ok h' ->
  dyn_get d_val this h' = Ok v /\ dyn_get d_ptr this h' = Ok v.
Proof.
  intros Hap. unfold fits. cbn [accessor_is32bit accessor_layout accessor_enabled].
  match goal with
  | |- match ?x with _ => _ end = _ -> _ => destruct x as [is32| |] eqn:H32
  end; try done.
  rewrite andb_true_r, !dyn_set_spec, !dyn_get_spec. cbn [spec_dyn_layout].
  intros Hfit [Hw|Hw]; split; by apply (element_roundtrip this _ v h h' is32).
Qed.

Lemma dyn_ptr_is_val_witness :
  exists h',
    dyn_set d_ptr sample_program (Big 9) sample_heap64 = Ok h' /\
    dyn_get d_val sample_program h' = Ok (Big 9).
Proof.
  eexists. split; [vm_compute; reflexivity |].
  apply (dyn_ptr_is_val sample_program (Big 9) sample_heap64 _ eq_refl);
    [reflexivity | left; vm_compute; reflexivity].
Defined.

(** ** Access without the identification bytes *)

(** X21: every getter and every setter that reaches the store first needs
    the variant of the file: when the word width cannot be read (the file
    has fewer than the nine identification bytes, or the element has no
    file), the access fails with that very error, also for a field that
    lies within the bytes that are there, and a setter stores nothing.
    This holds for the fields of section headers as well.  The one
    accessor that does not reach the store is the addend of a relocation
    whose [needsAddend] is not true: its getter returns undefined or false
    and its setter does nothing, whether or not the variant can be read. *)
Theorem no_access_without_the_variant (h : heap) err :
  (forall a, accessor_enabled a = true ->
     accessor_is32bit a h = Throw err ->
     accessor_get a h = Throw err /\ forall v, accessor_set a v h = Throw err) /\
  (forall (this : SectionHeader) f,
     is32bit this h = Throw err -> sh_get f this h = Throw err) /\
  (forall a, accessor_enabled a = false ->
     (accessor_get a h = Ok Undefined \/ accessor_get a h = Ok (Boolean false)) /\
     forall v, accessor_set a v h = Ok h).
Proof.
  assert (Hel : forall (this : Element),
            is32bit this h = Throw err ->
            forall l, spec_read_element this l h = Throw err /\
                      forall v, element_write this l v h = Throw err).
  { intros this. cbn [is32bit Element_element].
    unfold spec_read_element, element_write.
    destruct (elf this) as [e|]; [| by intros [= <-]].
    rewrite header_is32bit. unfold view. cbn [el_buffer ELFHeader.element].
    case_match; [done | by intros [= <-]]. }
  split.
  - intros [this f|this f|this f|this f|this f|this f] Hen;
      cbn [accessor_is32bit accessor_get accessor_set].
    + rewrite header_is32bit, header_get_spec. unfold spec_read.
      destruct (Nat.leb_spec 9 (length (contents h (view this)))) as [|Hlt]; [done |].
      intros [= <-]. split.
      * case_match eqn:E; [| done]. apply Nat.leb_le in E.
        destruct f, (spec_is32bit _); cbn in E; lia.
      * intros v. rewrite header_set_spec.
        destruct (Nat.leb_spec 9 (length (contents h (view this)))); [lia | done].
    + intros H32. rewrite ph_get_spec. split; [| intros v; rewrite ph_set_spec];
        by apply Hel.
    + intros H32. rewrite sym_get_spec. split; [| intros v; rewrite sym_set_spec];
        by apply Hel.
    + intros H32. rewrite rel_get_spec by done.
      split; [| intros v; rewrite rel_set_spec, Hen]; by apply Hel.
    + intros H32. rewrite dyn_get_spec. split; [| intros v; rewrite dyn_set_spec];
        by apply Hel.
    + intros H32. rewrite note_get_spec. split; [| intros v; rewrite note_set_spec];
        by apply Hel.
  - split; [intros this f H32; rewrite sh_get_spec; by apply Hel |].
    intros a Hen. destruct (disabled_accessor a h Hen) as (Hv & _ & Hset). done.
Qed.

Lemma no_access_without_the_variant_witness :
  (accessor_get (OfProgramHeader sample_program_no_ident p_type) sample_heap_no_ident
   = Throw RangeError /\
   forall v,
     accessor_set (OfProgramHeader sample_program_no_ident p_type) v sample_heap_no_ident
     = Throw RangeError) /\
  forall v,
    accessor_set (OfRel (mkRel sample_program_no_ident None) r_added) v sample_heap_no_ident
    = Ok sample_heap_no_ident.
Proof.
  split.
  - apply (proj1 (no_access_without_the_variant sample_heap_no_ident RangeError)
             (OfProgramHeader sample_program_no_ident p_type));
      vm_compute; reflexivity.
  - apply (proj2 (proj2 (no_access_without_the_variant sample_heap_no_ident RangeError))
             (OfRel (mkRel sample_program_no_ident None) r_added)).
    reflexivity.
Defined.

(** ** The DataView of an element *)

(** X22: the getters and setters reach their bytes through a DataView
    over the whole ArrayBuffer under the element's buffer, so they do not
    depend on the window of that buffer: two headers, or two elements of
    one file, whose buffers lie on the same ArrayBuffer read the same
    values and store the same bytes, whatever their byteOffset and
    byteLength.  A field is therefore read at its offset from the start of
    the ArrayBuffer. *)
Theorem accessors_ignore_the_window (b b' : Buffer) (h : heap) :
  buffer b = buffer b' ->
  (forall f, header_get f (mkELFHeader b) h = header_get f (mkELFHeader b') h) /\
  (forall f v, header_set f (mkELFHeader b) v h = header_set f (mkELFHeader b') v h) /\
  (forall e f, sh_get f (mkElement b e) h = sh_get f (mkElement b' e) h) /\
  (forall e f, ph_get f (mkElement b e) h = ph_get f (mkElement b' e) h) /\
  (forall e f v, ph_set f (mkElement b e) v h = ph_set f (mkElement b' e) v h) /\
  (forall e f, sym_get f (mkElement b e) h = sym_get f (mkElement b' e) h) /\
  (forall e f v, sym_set f (mkElement b e) v h = sym_set f (mkElement b' e) v h).
Proof.
  intros Hb.
  repeat split; intros;
    rewrite ?header_get_spec, ?header_set_spec, ?sh_get_spec, ?ph_get_spec, ?ph_set_spec,
      ?sym_get_spec, ?sym_set_spec;
    unfold spec_read_element, element_write, view;
    cbn [el_buffer ELFHeader.element header_buffer element_buffer elf];
    by rewrite Hb.
Qed.

Lemma accessors_ignore_the_window_witness :
  header_get e_machine (mkELFHeader (mkBuffer 0 64 56)) [file64] = Ok (Num 0x3e).
Proof.
  rewrite <- (proj1 (accessors_ignore_the_window (mkBuffer 0 0 120) (mkBuffer 0 64 56)
                       [file64] eq_refl) e_machine).
  reflexivity.
Defined.
